(** * UNAVsalseo: the per-device quota enforcer and the metrics aggregator

    A shallow embedding of [src/lib/rate-limit.ts] (module [RateLimit]) and of
    [computeMetrics] from [src/app/admin/dashboard/metrics/page.tsx] (module
    [Aggregator]), followed by the properties of the specification checked
    against them.

    The callers of the quota enforcer and the code around the aggregator are
    embedded as well: the page that creates a post (module [CreatePage]), the
    feed (module [Home]), the anonymous identity and the events of a visit
    (module [Analytics]) and the public dashboard (module [Dashboard]); their
    properties follow those of the specification.

    Conventions of the embedding:
    - [Date.now()] is a reading of the wall clock in milliseconds, an integer;
      every call of [Date.now()] in the source is an explicit argument of the
      embedded function, in the order in which the source reads the clock.
    - [localStorage] is the record [Store]; a key that was never written is
      [None], and [getJSON] then yields its fallback.  The functions are the
      browser-side ones ([typeof window] is defined).
    - A JavaScript object written [{}] or parsed from JSON and used as a
      dictionary is a [gmap] of its own properties, read together with the
      members that it inherits from [Object.prototype] (module [JS]); a [Set]
      is a [gset].
    - A JavaScript number is a binary64 number.  Clock readings, instants and
      counts are integers of [Z], or [NaN], which is [None]: the instants of
      [Date] and the clock are whole numbers below [2^53] in size, on which
      [+], [-] and the comparisons are exact.  Fractions go through the
      rounding [JS.fl] of binary64 (type [JS.number]).
      [new Date(s).getTime()] of a string that is not a date is [NaN]. *)

From Stdlib Require Import ZArith QArith Qround Qabs Qpower Qreduction.
From Stdlib Require Import Lia Lqa Permutation.
From stdpp Require Import base option list sorting gmap sets strings pretty.

Local Open Scope Z_scope.
Set Warnings "-clear-no-such-hyp".

(** ** JavaScript numbers and plain objects *)

Module JS.

(** *** Plain objects

    An object written [{}] or made by [JSON.parse] inherits from
    [Object.prototype]: [obj[key]] answers an own property when there is one,
    else the member of [Object.prototype] of that name when there is one, and
    [undefined] otherwise.  These are the names of the members of
    [Object.prototype] (ECMAScript, with the legacy names of its annex B);
    all of them are functions, but [__proto__], an accessor that answers
    [Object.prototype] itself. *)
Definition Object_prototype : list string :=
  ["constructor"; "hasOwnProperty"; "isPrototypeOf"; "propertyIsEnumerable";
   "toLocaleString"; "toString"; "valueOf"; "__proto__";
   "__defineGetter__"; "__defineSetter__"; "__lookupGetter__";
   "__lookupSetter__"].

Definition inherited (key : string) : bool :=
  bool_decide (key ∈ Object_prototype).

(** *** Binary64

    A JavaScript number is a binary64 number of IEEE 754: a fraction is
    stored as the nearest number of the form [m * 2^e] with [|m| < 2^53],
    a tie going to the even [m], and the result of [+], [-], [*] and [/] is
    the exact result so rounded.  [fl] is that rounding.  The exponent is
    left unbounded: the numbers of this program are counts of array
    elements, instants, pixels, and quotients and small multiples of those,
    far from the least and the greatest binary64 number.  The two zeros are
    not told apart. *)

Definition pow2 (e : Z) : Q := (2 ^ e)%Q.

(** [floor (log2 x)] of a positive fraction. *)
Definition ilog2 (x : Q) : Z :=
  let g := Z.log2 (Qnum x) - Z.log2 (Zpos (Qden x)) in
  if Qle_bool (pow2 g) x then g else g - 1.

(** The nearest integer, the even one at a tie. *)
Definition rne (x : Q) : Z :=
  let f := Qfloor x in
  match Qcompare (x - inject_Z f) (1 # 2) with
  | Lt => f
  | Gt => f + 1
  | Eq => if Z.even f then f else f + 1
  end.

(** Rounding of a positive fraction: the significand is scaled into
    [[2^52, 2^53)] and rounded to an integer. *)
Definition fl_pos (x : Q) : Q :=
  let e := ilog2 x - 52 in
  (inject_Z (rne (x / pow2 e)) * pow2 e)%Q.

Definition fl (x : Q) : Q :=
  match Qcompare x 0 with
  | Eq => 0%Q
  | Gt => Qred (fl_pos x)
  | Lt => Qred (- fl_pos (- x))
  end.

(** The fractions that binary64 holds exactly. *)
Definition representable (x : Q) : Prop :=
  ∃ m e : Z, Z.abs m <= 2 ^ 53 ∧ (x == inject_Z m * pow2 e)%Q.

(** A JavaScript number: [NaN], an infinity, or a fraction that binary64
    holds. *)
Inductive number : Type :=
  | NaN
  | Infinity (negative : bool)
  | Fin (x : Q).

Definition Qneg (x : Q) : bool := negb (Qle_bool 0 x).
Definition Qzero (x : Q) : bool := Qeq_bool x 0.

(** [a / b]. *)
Definition div (a b : number) : number :=
  match a, b with
  | NaN, _ | _, NaN => NaN
  | Infinity _, Infinity _ => NaN
  | Infinity s, Fin y => Infinity (xorb s (Qneg y))
  | Fin _, Infinity _ => Fin 0
  | Fin x, Fin y =>
      if Qzero y then (if Qzero x then NaN else Infinity (Qneg x))
      else Fin (fl (x / y))
  end.

(** [a * b]. *)
Definition mul (a b : number) : number :=
  match a, b with
  | NaN, _ | _, NaN => NaN
  | Infinity s, Infinity s' => Infinity (xorb s s')
  | Infinity s, Fin y | Fin y, Infinity s =>
      if Qzero y then NaN else Infinity (xorb s (Qneg y))
  | Fin x, Fin y => Fin (fl (x * y))
  end.

(** [a + b] and [a - b]. *)
Definition add (a b : number) : number :=
  match a, b with
  | NaN, _ | _, NaN => NaN
  | Infinity s, Infinity s' => if Bool.eqb s s' then Infinity s else NaN
  | Infinity s, Fin _ | Fin _, Infinity s => Infinity s
  | Fin x, Fin y => Fin (fl (x + y))
  end.

Definition sub (a b : number) : number :=
  match a, b with
  | NaN, _ | _, NaN => NaN
  | Infinity s, Infinity s' => if Bool.eqb s s' then NaN else Infinity s
  | Infinity s, Fin _ => Infinity s
  | Fin _, Infinity s => Infinity (negb s)
  | Fin x, Fin y => Fin (fl (x - y))
  end.

(** [a > b]; a comparison with [NaN] is false. *)
Definition gt (a b : number) : bool :=
  match a, b with
  | NaN, _ | _, NaN => false
  | Infinity s, Infinity s' => negb s && s'
  | Infinity s, Fin _ => negb s
  | Fin _, Infinity s => s
  | Fin x, Fin y => negb (Qle_bool x y)
  end.

(** [Math.round(a)]: the nearest integer, the greater one at a tie; it is a
    binary64 number whenever [a] is. *)
Definition Math_round (a : number) : number :=
  match a with
  | Fin x => Fin (inject_Z (Qfloor (x + (1 # 2))))
  | _ => a
  end.

(** A whole number as a JavaScript number. *)
Definition of_Z (n : Z) : number := Fin (inject_Z n).
Definition of_nat (n : nat) : number := of_Z (Z.of_nat n).

End JS.

(** ** Rate limiting ([src/lib/rate-limit.ts]) *)

Module RateLimit.

(** The three keys of [STORAGE_KEYS]: [sg_likes] holds an object from post
    identifiers to counts, [sg_post_times] an array of timestamps and
    [sg_last_fetch] one timestamp. *)
Record Store : Type := mkStore {
  sg_likes : option (gmap string Z);
  sg_post_times : option (list Z);
  sg_last_fetch : option Z
}.

Definition empty_store : Store :=
  {| sg_likes := None; sg_post_times := None; sg_last_fetch := None |}.

Definition LIKE_LIMIT_PER_POST : Z := 5.
Definition POST_LIMIT : nat := 3.
Definition POST_WINDOW_MS : Z := 10 * 60 * 1000.
Definition FETCH_COOLDOWN_MS : Z := 3000.

(** [getJSON(key, fallback)]: the stored value, or the fallback when the key
    is absent. *)
Definition getJSON {T : Type} (raw : option T) (fallback : T) : T :=
  match raw with
  | Some v => v
  | None => fallback
  end.

(** *** Likes *)

(** [likes[postId] ?? 0].  [likes] is the object parsed from [sg_likes], or
    [{}]: the answer is the count stored for the post; without one and for an
    identifier that names a member of [Object.prototype] it is that member,
    which is neither [null] nor [undefined] and survives the [??]; without
    one otherwise it is 0.  The member is [None]: a function or an object,
    [NaN] in the arithmetic and false in the comparison that follow. *)
Definition getLikesGiven (s : Store) (postId : string) : option Z :=
  let likes := getJSON (sg_likes s) ∅ in
  match likes !! postId with
  | Some n => Some n
  | None => if JS.inherited postId then None else Some 0
  end.

(** [Math.max(0, LIKE_LIMIT_PER_POST - given)], [NaN] ([None]) of [NaN]. *)
Definition remainingLikes (s : Store) (postId : string) : option Z :=
  match getLikesGiven s postId with
  | Some given => Some (Z.max 0 (LIKE_LIMIT_PER_POST - given))
  | None => None
  end.

Definition canLikePost (s : Store) (postId : string) : bool :=
  match getLikesGiven s postId with
  | Some given => bool_decide (given < LIKE_LIMIT_PER_POST)
  | None => false
  end.

(** [recordLike] returns the store it leaves behind and its boolean result.
    Past the test of [canLikePost], [likes[postId] ?? 0] is a count, so the
    last branch is never taken. *)
Definition recordLike (s : Store) (postId : string) : Store * bool :=
  if negb (canLikePost s postId) then (s, false)
  else
    let likes := getJSON (sg_likes s) ∅ in
    match getLikesGiven s postId with
    | Some given =>
        let likes' := <[postId := given + 1]> likes in
        ({| sg_likes := Some likes';
            sg_post_times := sg_post_times s;
            sg_last_fetch := sg_last_fetch s |}, true)
    | None => (s, false)
    end.

(** *** Posts *)

(** [getRecentPostTimes], with [now] the value of its [Date.now()]. *)
Definition getRecentPostTimes (s : Store) (now : Z) : list Z :=
  let times := getJSON (sg_post_times s) [] in
  filter (λ t, now - t < POST_WINDOW_MS) times.

Record PostStatus : Type := mkPostStatus {
  allowed : bool;
  waitSeconds : Z
}.

(** [Math.min(...xs)] on a non-empty argument list. *)
Definition Math_min (x : Z) (xs : list Z) : Z := foldr Z.min x xs.

(** [Math.ceil(ms / 1000)] for an integer number of milliseconds. *)
Definition ceil_seconds (ms : Z) : Z := Qceiling (inject_Z ms / 1000).

(** [canPost]: [now] is the clock reading inside [getRecentPostTimes], [now']
    the later one of [Date.now() - oldest].  The branch on the empty list is
    never taken after the length test ([0 < POST_LIMIT]); it stands for the
    [Math.min()] of no arguments. *)
Definition canPost (s : Store) (now now' : Z) : PostStatus :=
  let recent := getRecentPostTimes s now in
  if bool_decide (length recent < POST_LIMIT)%nat then
    {| allowed := true; waitSeconds := 0 |}
  else
    match recent with
    | [] => {| allowed := true; waitSeconds := 0 |}
    | t :: ts =>
        let oldest := Math_min t ts in
        let waitMs := POST_WINDOW_MS - (now' - oldest) in
        {| allowed := false; waitSeconds := ceil_seconds waitMs |}
    end.

(** [recordPost]: [now] is read by [getRecentPostTimes], [now'] is pushed. *)
Definition recordPost (s : Store) (now now' : Z) : Store :=
  let recent := getRecentPostTimes s now in
  {| sg_likes := sg_likes s;
     sg_post_times := Some (recent ++ [now']);
     sg_last_fetch := sg_last_fetch s |}.

Definition postsRemaining (s : Store) (now : Z) : Z :=
  Z.max 0 (Z.of_nat POST_LIMIT - Z.of_nat (length (getRecentPostTimes s now))).

(** *** Fetch throttle *)

Definition canFetch (s : Store) (now : Z) : bool :=
  let last := getJSON (sg_last_fetch s) 0 in
  bool_decide (now - last >= FETCH_COOLDOWN_MS).

Definition recordFetch (s : Store) (now : Z) : Store :=
  {| sg_likes := sg_likes s;
     sg_post_times := sg_post_times s;
     sg_last_fetch := Some now |}.

(** *** Sequences of calls *)

(** A call of one of the two post-creation functions, with its clock
    readings. *)
Inductive post_op : Type :=
  | OpCanPost (now now' : Z)
  | OpRecordPost (now now' : Z).

Definition step_post (s : Store) (o : post_op) : Store :=
  match o with
  | OpCanPost _ _ => s
  | OpRecordPost now now' => recordPost s now now'
  end.

Definition run_posts (s : Store) (ops : list post_op) : Store :=
  foldl step_post s ops.

(** The timestamps a run has recorded, oldest first, whether or not they are
    still stored. *)
Definition recorded (ops : list post_op) : list Z :=
  omap (λ o, match o with
             | OpRecordPost _ now' => Some now'
             | OpCanPost _ _ => None
             end) ops.

(** The clock never goes backwards: every reading is at least [clk], the
    reading before it. *)
Fixpoint clock_monotone (clk : Z) (ops : list post_op) : Prop :=
  match ops with
  | [] => True
  | OpCanPost now now' :: rest
  | OpRecordPost now now' :: rest =>
      clk <= now ∧ now <= now' ∧ clock_monotone now' rest
  end.

(** The caller's discipline of [create/page.tsx]: [recordPost] is only called
    when the last call before it was a [canPost] that answered [allowed];
    [permit] is that answer. *)
Fixpoint checked (s : Store) (permit : bool) (ops : list post_op) : Prop :=
  match ops with
  | [] => True
  | OpCanPost now now' :: rest =>
      checked s (allowed (canPost s now now')) rest
  | OpRecordPost now now' :: rest =>
      permit = true ∧ checked (recordPost s now now') false rest
  end.

(** How many timestamps of [l] lie in the window [[a, a + POST_WINDOW_MS)]. *)
Definition in_window (a : Z) (l : list Z) : nat :=
  length (filter (λ t, a <= t < a + POST_WINDOW_MS) l).

(** The array under [sg_post_times], as [getJSON] reads it. *)
Definition stored_times (s : Store) : list Z := getJSON (sg_post_times s) [].

(** What a disciplined run maintains, between the stored array, the
    timestamps [h] recorded so far, the last clock reading [clk] and the
    answer [permit] of the last [canPost]. *)
Record run_inv (s : Store) (h : list Z) (clk : Z) (permit : bool) : Prop := {
  inv_recent : ∀ n, clk <= n →
    filter (λ t, n - t < POST_WINDOW_MS) (stored_times s)
    = filter (λ t, n - t < POST_WINDOW_MS) h;
  inv_window : ∀ a, (in_window a h ≤ POST_LIMIT)%nat;
  inv_length : (length (stored_times s) ≤ POST_LIMIT)%nat;
  inv_permit : permit = true →
    (length (getRecentPostTimes s clk) < POST_LIMIT)%nat
}.

(** A sequence of like attempts. *)
Definition run_likes (s : Store) (posts : list string) : Store :=
  foldl (λ st p, fst (recordLike st p)) s posts.

(** The count that [sg_likes] holds for a post, 0 when it holds none. *)
Definition stored_likes (s : Store) (postId : string) : Z :=
  default 0 (getJSON (sg_likes s) ∅ !! postId).

(** An identifier that names no member of [Object.prototype]; the
    identifiers of the posts are those that the database gives its rows. *)
Definition ordinary (key : string) : Prop := JS.inherited key = false.

End RateLimit.

(** ** Metrics aggregation ([computeMetrics] of the admin dashboard) *)

Module Aggregator.

(** A JavaScript number that is an integer or [NaN] ([None]); timestamps,
    their differences and sums of those. *)
Definition time : Type := option Z.

(** A JavaScript number that may be a fraction: the rates and averages. *)
Definition number : Type := JS.number.

(** [RawEvent].  [created_at] holds [new Date(e.created_at).getTime()], the
    only use the aggregator makes of the field: the instant in milliseconds,
    or [None] ([NaN]) for a string that is not a date. *)
Record RawEvent : Type := mkEvent {
  id : string;
  event_name : string;
  user_pseudo_id : option string;
  created_at : time
}.

Record RawFeedback : Type := mkFeedback { rating : string }.

(** [likes] is read as [p.likes ?? 0]; it is a whole number that binary64
    holds. *)
Record RawPost : Type := mkPost { likes : option Z }.

Record Metrics : Type := mkMetrics {
  uniqueVisits : nat;
  activationRate : number;
  activationGoalMet : bool;
  totalQrScans : nat;
  dau : nat;
  totalPosts : nat;
  totalLikes : number;
  totalShares : nat;
  engagementRate : number;
  avgSessionLengthMin : number;
  churnRate : number;
  day1Retention : number;
  viralCoefficient : number;
  npsScore : number;
  npsThresholdMet : bool;
  happyCount : nat;
  normalCount : nat;
  sadCount : nat;
  totalFeedback : nat
}.

Definition EMPTY_METRICS : Metrics :=
  {| uniqueVisits := 0; activationRate := JS.of_Z 0; activationGoalMet := false;
     totalQrScans := 0; dau := 0; totalPosts := 0; totalLikes := JS.of_Z 0;
     totalShares := 0; engagementRate := JS.of_Z 0;
     avgSessionLengthMin := JS.of_Z 0; churnRate := JS.of_Z 0;
     day1Retention := JS.of_Z 0; viralCoefficient := JS.of_Z 0;
     npsScore := JS.of_Z 0; npsThresholdMet := false; happyCount := 0;
     normalCount := 0; sadCount := 0; totalFeedback := 0 |}.

Definition MS_24H : Z := 24 * 60 * 60 * 1000.
Definition MS_48H : Z := 48 * 60 * 60 * 1000.
Definition MS_7D : Z := 7 * 24 * 60 * 60 * 1000.
Definition MS_8D : Z := 8 * 24 * 60 * 60 * 1000.
Definition SESSION_GAP : Z := 30 * 60 * 1000.

(** *** Arithmetic and comparison of instants

    [NaN] is absorbing for [+] and [-], and every comparison with [NaN] is
    false. *)

Definition num_sub (a b : time) : time :=
  match a, b with
  | Some x, Some y => Some (x - y)
  | _, _ => None
  end.

Definition num_add (a b : time) : time :=
  match a, b with
  | Some x, Some y => Some (x + y)
  | _, _ => None
  end.

Definition num_lt (a b : time) : bool :=
  match a, b with
  | Some x, Some y => bool_decide (x < y)
  | _, _ => false
  end.

Definition num_ge (a b : time) : bool :=
  match a, b with
  | Some x, Some y => bool_decide (x >= y)
  | _, _ => false
  end.

Definition num_gt (a b : time) : bool :=
  match a, b with
  | Some x, Some y => bool_decide (x > y)
  | _, _ => false
  end.

(** An instant or a sum of durations where a fraction is formed from it. *)
Definition of_time (t : time) : number :=
  match t with
  | Some n => JS.of_Z n
  | None => JS.NaN
  end.

(** A count as a fraction. *)
Definition Qnat (n : nat) : Q := inject_Z (Z.of_nat n).

(** [Math.round(x * 10) / 10] and [Math.round(x * 100) / 100]. *)
Definition round1 (x : number) : number :=
  JS.div (JS.Math_round (JS.mul x (JS.of_Z 10))) (JS.of_Z 10).
Definition round2 (x : number) : number :=
  JS.div (JS.Math_round (JS.mul x (JS.of_Z 100))) (JS.of_Z 100).

(** *** Identities

    [.map((e) => e.user_pseudo_id).filter(Boolean)] keeps the identities that
    are neither [null] nor the empty string. *)

Definition truthy_id (e : RawEvent) : option string :=
  match user_pseudo_id e with
  | Some u => if decide (u = "") then None else Some u
  | None => None
  end.

Definition ids (events : list RawEvent) : list string := omap truthy_id events.

Definition named (name : string) (e : RawEvent) : Prop := event_name e = name.

#[global] Instance named_dec name e : Decision (named name e).
Proof. unfold named. apply _. Defined.

(** The age [now - t] of an event. *)
Definition age (now : Z) (e : RawEvent) : time :=
  num_sub (Some now) (created_at e).

(** *** Unique users and activation *)

Definition allUsers (events : list RawEvent) : gset string :=
  list_to_set (ids events).

Definition activatedUsers (events : list RawEvent) : gset string :=
  list_to_set (ids (filter (named "post_created") events)).

(** The local [activationRate], before rounding. *)
Definition activationRate_raw (events : list RawEvent) : number :=
  let uniqueVisits := size (allUsers events) in
  if bool_decide (0 < uniqueVisits)%nat
  then JS.mul (JS.div (JS.of_nat (size (activatedUsers events)))
                      (JS.of_nat uniqueVisits))
              (JS.of_Z 100)
  else JS.of_Z 0.

(** *** Daily active users and engagement *)

Definition recent24h (now : Z) (events : list RawEvent) : gset string :=
  list_to_set (ids (filter (λ e, num_lt (age now e) (Some MS_24H)) events)).

(** [posts.reduce((s, p) => s + (p.likes ?? 0), 0)]. *)
Definition sumLikes (posts : list RawPost) : number :=
  foldl (λ s p, JS.add s (JS.of_Z (default 0 (likes p)))) (JS.of_Z 0) posts.

Definition countNamed (name : string) (events : list RawEvent) : nat :=
  length (filter (named name) events).

Definition totalViews (events : list RawEvent) : nat :=
  length (filter (λ e, event_name e ∈ ["session_start"; "first_visit"]) events).

Definition engagementRate_raw (events : list RawEvent) (posts : list RawPost)
    : number :=
  let views := totalViews events in
  if bool_decide (0 < views)%nat
  then JS.mul (JS.div (JS.add (sumLikes posts)
                              (JS.of_nat (countNamed "share_post" events)))
                      (JS.of_nat views))
              (JS.of_Z 100)
  else JS.of_Z 0.

(** *** Average session length *)

(** The first loop: [byUser[uid]] collects, in the order of [events], the
    timestamps of the events that carry the identity [uid].  [byUser] is an
    object written [{}]: for an identity that names a member of
    [Object.prototype], [byUser[uid]] is that member, which is not falsy, so
    no array is stored, and which has no [push], so the call throws a
    [TypeError]; that is [None]. *)
Definition byUser (events : list RawEvent) : option (gmap string (list time)) :=
  foldl (λ acc e,
           m ← acc;
           match truthy_id e with
           | None => Some m
           | Some uid =>
               match m !! uid with
               | Some times => Some (<[uid := times ++ [created_at e]]> m)
               | None =>
                   if JS.inherited uid then None
                   else Some (<[uid := [created_at e]]> m)
               end
           end) (Some ∅) events.

(** [.sort((a, b) => a - b)].  The comparison function is [comparefn]; a
    result of [NaN] counts as [+0] ([SortCompare] of ECMAScript).  On numbers
    the outcome is the ascending arrangement, whatever the algorithm; with a
    [NaN] among them the order is left to the engine, and the embedding takes a
    stable insertion sort. *)
Definition comparefn (a b : time) : time := num_sub a b.

Definition SortCompare (a b : time) : Z := default 0 (comparefn a b).

Fixpoint sort_insert (x : time) (l : list time) : list time :=
  match l with
  | [] => [x]
  | y :: l' =>
      if bool_decide (SortCompare y x < 0) then y :: sort_insert x l'
      else x :: y :: l'
  end.

Definition js_sort (l : list time) : list time := foldr sort_insert [] l.

(** The variables of the session loop. *)
Record Sessions : Type := mkSessions {
  sessionStart : time;
  lastEvent : time;
  totalSessionMs : time;
  sessionCount : nat
}.

(** One round of [for (let i = 1; i < times.length; i++)], at [times[i] = t]. *)
Definition session_step (st : Sessions) (t : time) : Sessions :=
  let st' :=
    if num_gt (num_sub t (lastEvent st)) (Some SESSION_GAP) then
      {| sessionStart := t;
         lastEvent := lastEvent st;
         totalSessionMs :=
           num_add (totalSessionMs st) (num_sub (lastEvent st) (sessionStart st));
         sessionCount := S (sessionCount st) |}
    else st in
  {| sessionStart := sessionStart st';
     lastEvent := t;
     totalSessionMs := totalSessionMs st';
     sessionCount := sessionCount st' |}.

(** The body of [for (const uid in byUser)] below the sort, on the sorted
    array and from the totals [acc] so far.  [times[0]] of an empty array is
    [undefined], which is [NaN] in the arithmetic that follows. *)
Definition session_loop (times : list time) (acc : time * nat) : time * nat :=
  let first := default None (head times) in
  let st := foldl session_step
              {| sessionStart := first; lastEvent := first;
                 totalSessionMs := acc.1; sessionCount := acc.2 |}
              (tail times) in
  (num_add (totalSessionMs st) (num_sub (lastEvent st) (sessionStart st)),
   S (sessionCount st)).

(** The body of [for (const uid in byUser)] for one identity. *)
Definition user_sessions (times : list time) (acc : time * nat) : time * nat :=
  session_loop (js_sort times) acc.

(** The pair [(totalSessionMs, sessionCount)] after the second loop, over the
    arrays that the first loop has stored.  Both are sums over the
    identities, the same in whatever order the loop visits them. *)
Definition sessionTotals (stored : gmap string (list time)) : time * nat :=
  map_fold (λ _ times acc, user_sessions times acc) (Some 0, 0%nat) stored.

Definition avgSessionLengthMin_raw (totals : time * nat) : number :=
  let '(totalSessionMs, sessionCount) := totals in
  if bool_decide (0 < sessionCount)%nat
  then JS.div (JS.div (of_time totalSessionMs) (JS.of_nat sessionCount))
              (JS.of_Z 60000)
  else JS.of_Z 0.

(** *** Churn *)

Definition activeWeekAgo (now : Z) (events : list RawEvent) : gset string :=
  list_to_set (ids (filter (λ e, num_ge (age now e) (Some MS_7D)
                                 && num_lt (age now e) (Some MS_8D)) events)).

Definition activeLast24h (now : Z) (events : list RawEvent) : gset string :=
  list_to_set (ids (filter (λ e, num_lt (age now e) (Some MS_24H)) events)).

Definition churnedUsers (now : Z) (events : list RawEvent) : list string :=
  filter (λ uid, uid ∉ activeLast24h now events) (elements (activeWeekAgo now events)).

Definition churnRate_raw (now : Z) (events : list RawEvent) : number :=
  let week := size (activeWeekAgo now events) in
  if bool_decide (0 < week)%nat
  then JS.mul (JS.div (JS.of_nat (length (churnedUsers now events)))
                      (JS.of_nat week))
              (JS.of_Z 100)
  else JS.of_Z 0.

(** *** Day-1 retention *)

(** [!firstVisitByUser[uid]]: true of a missing entry ([undefined]), of [NaN]
    and of [0]. *)
Definition falsy (v : option time) : bool :=
  match v with
  | None => true
  | Some None => true
  | Some (Some t) => bool_decide (t = 0)
  end.

(** [firstVisitByUser] is an object written [{}] as well: for an identity
    that names a member of [Object.prototype] the member is read, which is
    not falsy and which no number is below, so nothing is stored. *)
Definition firstVisitByUser (events : list RawEvent) : gmap string time :=
  foldl (λ m e,
           if bool_decide (named "first_visit" e) then
             match truthy_id e with
             | Some uid =>
                 let t := created_at e in
                 if bool_decide (m !! uid = None) && JS.inherited uid then m
                 else if falsy (m !! uid) || num_lt t (default None (m !! uid))
                 then <[uid := t]> m else m
             | None => m
             end
           else m) ∅ events.

(** [events.some(...)] for the identity [uid] first seen at [firstTime]. *)
Definition hasReturn (events : list RawEvent) (uid : string) (firstTime : time) : bool :=
  existsb (λ e,
             bool_decide (user_pseudo_id e = Some uid)
             && negb (bool_decide (named "first_visit" e))
             && num_ge (created_at e) (num_add firstTime (Some MS_24H))
             && num_lt (created_at e) (num_add firstTime (Some MS_48H))) events.

(** The pair [(eligibleDay1, returnedDay1)] after the loop over
    [Object.entries(firstVisitByUser)]; both are counts. *)
Definition day1Counts (now : Z) (events : list RawEvent) : nat * nat :=
  map_fold (λ uid firstTime acc,
              if num_lt (num_sub (Some now) firstTime) (Some MS_24H) then acc
              else (S acc.1, if hasReturn events uid firstTime then S acc.2 else acc.2))
           (0%nat, 0%nat) (firstVisitByUser events).

Definition day1Retention_raw (now : Z) (events : list RawEvent) : number :=
  let '(eligibleDay1, returnedDay1) := day1Counts now events in
  if bool_decide (0 < eligibleDay1)%nat
  then JS.mul (JS.div (JS.of_nat returnedDay1) (JS.of_nat eligibleDay1))
              (JS.of_Z 100)
  else JS.of_Z 0.

(** *** Virality and satisfaction *)

Definition viralCoefficient_raw (events : list RawEvent) : number :=
  let uniqueVisits := size (allUsers events) in
  if bool_decide (0 < uniqueVisits)%nat
  then JS.div (JS.of_nat (countNamed "share_post" events)) (JS.of_nat uniqueVisits)
  else JS.of_Z 0.

Definition countRating (r : string) (feedback : list RawFeedback) : nat :=
  length (filter (λ f, rating f = r) feedback).

Definition npsScore_raw (feedback : list RawFeedback) : number :=
  let totalFeedback := length feedback in
  let happyPct := if bool_decide (0 < totalFeedback)%nat
                  then JS.div (JS.of_nat (countRating "happy" feedback))
                              (JS.of_nat totalFeedback)
                  else JS.of_Z 0 in
  let sadPct := if bool_decide (0 < totalFeedback)%nat
                then JS.div (JS.of_nat (countRating "sad" feedback))
                            (JS.of_nat totalFeedback)
                else JS.of_Z 0 in
  JS.Math_round (JS.mul (JS.sub happyPct sadPct) (JS.of_Z 100)).

(** *** The snapshot

    [now] is the one [Date.now()] at the head of [computeMetrics].
    [snapshot] is the function past its first loop, with the arrays [stored]
    that the loop has left in [byUser]; [computeMetrics] is [None] when that
    loop throws. *)
Definition snapshot (now : Z) (events : list RawEvent)
    (feedback : list RawFeedback) (posts : list RawPost)
    (stored : gmap string (list time)) : Metrics :=
  {| uniqueVisits := size (allUsers events);
     activationRate := round1 (activationRate_raw events);
     activationGoalMet := JS.gt (activationRate_raw events) (JS.of_Z 50);
     totalQrScans := countNamed "qr_scan" events;
     dau := size (recent24h now events);
     totalPosts := length posts;
     totalLikes := sumLikes posts;
     totalShares := countNamed "share_post" events;
     engagementRate := round1 (engagementRate_raw events posts);
     avgSessionLengthMin :=
       round1 (avgSessionLengthMin_raw (sessionTotals stored));
     churnRate := round1 (churnRate_raw now events);
     day1Retention := round1 (day1Retention_raw now events);
     viralCoefficient := round2 (viralCoefficient_raw events);
     npsScore := npsScore_raw feedback;
     npsThresholdMet := JS.gt (npsScore_raw feedback) (JS.of_Z 40);
     happyCount := countRating "happy" feedback;
     normalCount := countRating "normal" feedback;
     sadCount := countRating "sad" feedback;
     totalFeedback := length feedback |}.

Definition computeMetrics (now : Z) (events : list RawEvent)
    (feedback : list RawFeedback) (posts : list RawPost) : option Metrics :=
  stored ← byUser events;
  Some (snapshot now events feedback posts stored).

End Aggregator.

(** ** Vocabulary of the specification *)

Module Claims.
Import Aggregator.

(** [y] is [x] rounded to one decimal: the binary64 number for a multiple
    [k/10] of one tenth that is nearest to [x].  When [x] lies halfway
    between two tenths either of them is nearest. *)
Definition rounded1 (x : Q) (y : number) : Prop :=
  ∃ k : Z,
    y = JS.Fin (JS.fl (inject_Z k / 10))
    ∧ (Qabs (inject_Z k / 10 - x) <= 1 / 20)%Q.

(** A number is the fraction [x]. *)
Definition is_num (y : number) (x : Q) : Prop :=
  ∃ q : Q, y = JS.Fin q ∧ (q == x)%Q.

(** A number is neither [NaN] nor an infinity. *)
Definition finite (y : number) : Prop := ∃ q : Q, y = JS.Fin q.

(** The percentage [part / whole * 100], 0 of an empty whole. *)
Definition percent (part whole : nat) : Q :=
  if decide (whole = 0%nat) then 0%Q
  else (Qnat part / Qnat whole * 100)%Q.

(** The same percentage as binary64 arithmetic forms it. *)
Definition percent64 (part whole : nat) : number :=
  if decide (whole = 0%nat) then JS.of_Z 0
  else JS.mul (JS.div (JS.of_nat part) (JS.of_nat whole)) (JS.of_Z 100).

(** No event carries an identity that names a member of [Object.prototype];
    the identities that the application gives out are those of
    [crypto.randomUUID()]. *)
Definition identities_ordinary (events : list RawEvent) : Prop :=
  ∀ e u, e ∈ events → truthy_id e = Some u → JS.inherited u = false.

(** An array of JavaScript has fewer than [2^32] elements. *)
Definition array {A : Type} (l : list A) : Prop :=
  Z.of_nat (length l) < 2 ^ 32.

(** The sum of the like counts of the posts, and the posts on which it is
    exact in binary64: no count is negative and the sum is at most [2^53]. *)
Definition likes_total (posts : list RawPost) : Z :=
  foldr (λ p s, default 0 (likes p) + s) 0 posts.

Definition likes_exact (posts : list RawPost) : Prop :=
  Forall (λ p, 0 <= default 0 (likes p)) posts ∧ likes_total posts <= 2 ^ 53.

(** The timestamps of the events per identity, in the order of the events:
    what the first loop of the sessions stores when it does not throw. *)
Definition grouped (events : list RawEvent) : gmap string (list time) :=
  foldl (λ m e,
           match truthy_id e with
           | None => m
           | Some uid => <[uid := default [] (m !! uid) ++ [created_at e]]> m
           end) ∅ events.

(** The totals of the session loops, [None] when the first loop throws. *)
Definition session_totals (events : list RawEvent) : option (time * nat) :=
  sessionTotals <$> byUser events.

(** The snapshot of events none of which makes the first loop throw. *)
Definition metrics_of (now : Z) (events : list RawEvent)
    (feedback : list RawFeedback) (posts : list RawPost) : Metrics :=
  snapshot now events feedback posts (grouped events).

(** The durations of the sessions of one identity, from its timestamps in
    ascending order: a new session starts at every gap above [gap], and a
    session lasts from its first to its last event.  [start] and [last] are the
    first and the latest event of the session that is open. *)
Fixpoint sessions_from (gap start last : Z) (times : list Z) : list Z :=
  match times with
  | [] => [last - start]
  | t :: times' =>
      if bool_decide (t - last > gap)
      then (last - start) :: sessions_from gap t t times'
      else sessions_from gap start t times'
  end.

Definition sessions (gap : Z) (times : list Z) : list Z :=
  match merge_sort Z.le times with
  | [] => []
  | t :: times' => sessions_from gap t t times'
  end.

Definition Zsum (l : list Z) : Z := foldr Z.add 0 l.

(** The timestamps of the events that carry the identity [u], in the order of
    the events. *)
Definition times_of (u : string) (events : list RawEvent) : list time :=
  created_at <$> filter (λ e, truthy_id e = Some u) events.

(** [t0] is the earliest [first_visit] time of the identity [u]. *)
Definition first_seen (events : list RawEvent) (u : string) (t0 : Z) : Prop :=
  u ≠ ""
  ∧ (∃ e, e ∈ events ∧ event_name e = "first_visit"
          ∧ user_pseudo_id e = Some u ∧ created_at e = Some t0)
  ∧ (∀ e t, e ∈ events → event_name e = "first_visit" →
            user_pseudo_id e = Some u → created_at e = Some t → t0 <= t).

(** The identity [u], first seen at [t0], has an event other than a
    [first_visit] with a timestamp in [[t0 + 24h, t0 + 48h)]. *)
Definition came_back (events : list RawEvent) (u : string) (t0 : Z) : Prop :=
  ∃ e t, e ∈ events ∧ user_pseudo_id e = Some u
         ∧ event_name e ≠ "first_visit" ∧ created_at e = Some t
         ∧ t0 + 24 * 60 * 60 * 1000 <= t < t0 + 48 * 60 * 60 * 1000.

(** Every [first_visit] event that carries an identity has a timestamp that
    is a date, and not the instant 0. *)
Definition first_visits_dated (events : list RawEvent) : Prop :=
  ∀ e, e ∈ events → event_name e = "first_visit" → is_Some (truthy_id e) →
       ∃ t, created_at e = Some t ∧ t ≠ 0.

(** The events whose timestamp is a date. *)
Definition dated (events : list RawEvent) : list RawEvent :=
  filter (λ e, is_Some (created_at e)) events.

(** Every event that carries an identity has a timestamp that is a date. *)
Definition timestamps_parse (events : list RawEvent) : Prop :=
  ∀ e, e ∈ events → is_Some (truthy_id e) → is_Some (created_at e).

End Claims.

(** ** Inputs used as examples *)

Module Examples.
Import Aggregator.

(** The [n]-th identity of a crowd. *)
Definition uid (n : nat) : string := "u" +:+ pretty n.

(** An event of identity [n] at the instant [t]. *)
Definition event_of (name : string) (t : Z) (n : nat) : RawEvent :=
  {| id := ""; event_name := name; user_pseudo_id := Some (uid n);
     created_at := Some t |}.

(** [posters + lurkers] identities with one event each; the first [posters]
    of them created a post. *)
Definition crowd (posters lurkers : nat) : list RawEvent :=
  (event_of "post_created" 0 <$> seq 0 posters)
  ++ (event_of "session_start" 0 <$> seq posters lurkers).

End Examples.


(** ** The page that creates a post ([src/app/create/page.tsx])

    The component keeps its quota in the [Store] of [RateLimit].  One run of
    [handleSubmit] is taken from its first line to its last, with the answers
    of the storage service and of the database as arguments; the interval
    [check] only reads the store, so it may fire between two lines of
    [handleSubmit] without a change to what [handleSubmit] does. *)

Module CreatePage.
Import RateLimit.

(** What the component shows of the quota: the state variables
    [rateLimited], [waitSeconds] and [remaining]. *)
Record Banner : Type := mkBanner {
  rateLimited : bool;
  bannerWait : Z;
  remaining : Z
}.

(** [check], the body of the one-second interval: [now] and [now'] are the
    clock readings of [canPost], [now''] the one of [postsRemaining]. *)
Definition check (s : Store) (now now' now'' : Z) : Banner :=
  let status := canPost s now now' in
  {| rateLimited := negb (allowed status);
     bannerWait := waitSeconds status;
     remaining := postsRemaining s now'' |}.

(** [formatWait]: [seconds / 60] rounded down, and [seconds % 60], which has
    the sign of [seconds]. *)
Definition formatWait (seconds : Z) : string :=
  let m := seconds / 60 in
  let s := Z.rem seconds 60 in
  if bool_decide (m > 0) then pretty m +:+ "m " +:+ pretty s +:+ "s"
  else pretty s +:+ "s".

(** The strings of decimal digits, as a whole number that is not negative
    prints. *)
Definition digit (c : Ascii.ascii) : bool :=
  bool_decide (String c EmptyString
               ∈ ["0"; "1"; "2"; "3"; "4"; "5"; "6"; "7"; "8"; "9"]).

Fixpoint digits (s : string) : bool :=
  match s with
  | EmptyString => true
  | String c r => digit c && digits r
  end.

(** What one call of [handleSubmit] meets on its way.  [trimmed] is
    [content.trim()]; [uploaded] is [None] without an image and otherwise tells
    whether the upload succeeded; [inserted] tells whether the row was
    inserted.  [checkNow] and [checkNow'] are the clock readings of [canPost],
    [recordNow] and [recordNow'] those of [recordPost]. *)
Record Submission : Type := mkSubmission {
  trimmed : string;
  uploaded : option bool;
  inserted : bool;
  checkNow : Z;
  checkNow' : Z;
  recordNow : Z;
  recordNow' : Z
}.

(** Where [handleSubmit] returns.  [Posted] is the end of the function, after
    [recordPost()], [trackEvent("post_created")] and [router.push("/")]. *)
Inductive Outcome : Type :=
  | Blank
  | Refused (wait : Z)
  | UploadFailed
  | InsertFailed
  | Posted.

Definition handleSubmit (s : Store) (sub : Submission) : Store * Outcome :=
  if decide (trimmed sub = "") then (s, Blank)
  else
    let status := canPost s (checkNow sub) (checkNow' sub) in
    if negb (allowed status) then (s, Refused (waitSeconds status))
    else
      match uploaded sub with
      | Some false => (s, UploadFailed)
      | _ =>
          if negb (inserted sub) then (s, InsertFailed)
          else (recordPost s (recordNow sub) (recordNow' sub), Posted)
      end.

(** A visit of the page: interval checks and submissions, one after the
    other. *)
Inductive PageEvent : Type :=
  | Check (now now' now'' : Z)
  | Submit (sub : Submission).

Definition page_step (s : Store) (ev : PageEvent) : Store :=
  match ev with
  | Check _ _ _ => s
  | Submit sub => (handleSubmit s sub).1
  end.

Definition run_page (s : Store) (evs : list PageEvent) : Store :=
  foldl page_step s evs.

(** The timestamps that the submissions of a visit record, oldest first. *)
Fixpoint posted (s : Store) (evs : list PageEvent) : list Z :=
  match evs with
  | [] => []
  | ev :: rest =>
      match ev with
      | Submit sub =>
          match (handleSubmit s sub).2 with
          | Posted => [recordNow' sub]
          | _ => []
          end
      | Check _ _ _ => []
      end ++ posted (page_step s ev) rest
  end.

(** The clock readings of a visit never go backwards; [clk] is the reading
    before the first. *)
Fixpoint page_clock (clk : Z) (evs : list PageEvent) : Prop :=
  match evs with
  | [] => True
  | Check now now' now'' :: rest =>
      clk <= now ∧ now <= now' ∧ now' <= now'' ∧ page_clock now'' rest
  | Submit sub :: rest =>
      clk <= checkNow sub ∧ checkNow sub <= checkNow' sub
      ∧ checkNow' sub <= recordNow sub ∧ recordNow sub <= recordNow' sub
      ∧ page_clock (recordNow' sub) rest
  end.

End CreatePage.

(** ** The feed (the component [Home] of the home page)

    The state of the component [Home] that the handlers below read and write,
    next to the [Store] of [RateLimit].  A handler is taken from its first
    line to its last, with the answer of the database as an argument; two
    handlers do not overlap. *)

Module Home.
Import RateLimit.

Definition PAGE_SIZE : nat := 15.
Definition MASONRY_GAP : Z := 16.

Inductive MediaType : Type := image | video.

(** [Post] of [src/lib/types.ts].  [created_at] holds
    [new Date(post.created_at).getTime()], as in [Aggregator]. *)
Record Post : Type := mkFeedPost {
  id : string;
  content : string;
  media_url : option string;
  media_type : option MediaType;
  likes : Z;
  created_at : Aggregator.time
}.

Record State : Type := mkState {
  store : Store;
  posts : list Post;
  likesLeft : gmap string (option Z);
  hasMore : bool;
  pageRef : nat
}.

Definition initial (s : Store) : State :=
  {| store := s; posts := []; likesLeft := ∅; hasMore := true; pageRef := 0 |}.

(** [map[key] = value] on an object written [{}], for a number [value]: it
    writes the own property, but for [__proto__], whose setter takes a number
    for no prototype and changes nothing. *)
Definition assign (key : string) (value : option Z)
    (map : gmap string (option Z)) : gmap string (option Z) :=
  if decide (key = "__proto__") then map else <[key := value]> map.

(** [syncLikesLeft]: a fresh object with [remainingLikes] of every post of the
    list, a number or [NaN] ([None]). *)
Definition syncLikesLeft (s : Store) (postList : list Post)
    : gmap string (option Z) :=
  foldl (λ map p, assign (id p) (remainingLikes s (id p)) map) ∅ postList.

(** The rows that a fetch asks for: [.range(from, to)]. *)
Definition initialRange : Z * Z := (0, Z.of_nat PAGE_SIZE - 1).

Definition nextRange (st : State) : Z * Z :=
  let nextPage := (pageRef st + 1)%nat in
  let from := Z.of_nat nextPage * Z.of_nat PAGE_SIZE in
  (from, from + Z.of_nat PAGE_SIZE - 1).

(** [fetchInitialPosts]; [response] is [None] for an error and the rows
    otherwise. *)
Definition fetchInitialPosts (st : State) (response : option (list Post)) : State :=
  match response with
  | None =>
      {| store := store st; posts := posts st; likesLeft := likesLeft st;
         hasMore := true; pageRef := 0 |}
  | Some fetched =>
      {| store := store st; posts := fetched;
         likesLeft := syncLikesLeft (store st) fetched;
         hasMore := negb (bool_decide (length fetched < PAGE_SIZE)%nat);
         pageRef := 0 |}
  end.

(** The updater that [fetchNextPage] hands to [setPosts]. *)
Definition mergePage (prev fetched : list Post) : list Post :=
  let existingIds : gset string := list_to_set (id <$> prev) in
  let newPosts := filter (λ p, id p ∉ existingIds) fetched in
  prev ++ newPosts.

Definition fetchNextPage (st : State) (response : option (list Post)) : State :=
  if negb (hasMore st) then st
  else
    match response with
    | None => st
    | Some fetched =>
        let hasMore' :=
          if bool_decide (length fetched < PAGE_SIZE)%nat then false
          else hasMore st in
        if bool_decide (0 < length fetched)%nat then
          let merged := mergePage (posts st) fetched in
          {| store := store st; posts := merged;
             likesLeft := syncLikesLeft (store st) merged;
             hasMore := hasMore'; pageRef := (pageRef st + 1)%nat |}
        else
          {| store := store st; posts := posts st; likesLeft := likesLeft st;
             hasMore := hasMore'; pageRef := pageRef st |}
    end.

(** The effect that runs when the component mounts: [recordFetch()], then
    [fetchInitialPosts()]. *)
Definition mount (s : Store) (now : Z) (response : option (list Post)) : State :=
  fetchInitialPosts (initial (recordFetch s now)) response.

(** [handleRefresh]: [now] is the clock reading of [canFetch], [now'] the one
    of [recordFetch].  The second component tells whether the posts were
    fetched. *)
Definition handleRefresh (st : State) (now now' : Z)
    (response : option (list Post)) : State * bool :=
  if negb (canFetch (store st) now) then (st, false)
  else
    let st' := {| store := recordFetch (store st) now'; posts := posts st;
                  likesLeft := likesLeft st; hasMore := hasMore st;
                  pageRef := pageRef st |} in
    (fetchInitialPosts st' response, true).

(** [prev.map((p) => p.id === postId ? { ...p, likes } : p)]. *)
Definition setLikes (postId : string) (n : Z) (prev : list Post) : list Post :=
  (λ p, if decide (id p = postId)
        then {| id := id p; content := content p; media_url := media_url p;
                media_type := media_type p; likes := n;
                created_at := created_at p |}
        else p) <$> prev.

(** [handleLike]; [updated] tells whether the update of the row succeeded.
    The second component is the update that was sent, if any: the row and its
    new number of likes.  The object literal [{ ...prev, [postId]: ... }]
    defines the own property [postId] whatever its name. *)
Definition handleLike (st : State) (postId : string) (currentLikes : Z)
    (updated : bool) : State * option (string * Z) :=
  if negb (canLikePost (store st) postId) then (st, None)
  else
    let '(s', allowed) := recordLike (store st) postId in
    if negb allowed then
      ({| store := s'; posts := posts st; likesLeft := likesLeft st;
          hasMore := hasMore st; pageRef := pageRef st |}, None)
    else
      let likesLeft' := <[postId := remainingLikes s' postId]> (likesLeft st) in
      let shown := setLikes postId (currentLikes + 1) (posts st) in
      let posts' := if updated then shown
                    else setLikes postId currentLikes shown in
      ({| store := s'; posts := posts'; likesLeft := likesLeft';
          hasMore := hasMore st; pageRef := pageRef st |},
       Some (postId, currentLikes + 1)).

(** The like button of a post: [likesLeft[post.id] ?? 5] and [maxedOut].
    [likesLeft] is a plain object: without an own property, an identifier
    that names a member of [Object.prototype] reads that member ([None]: not
    a number), and [left <= 0] is false of it as it is of [NaN]. *)
Definition left (st : State) (postId : string) : option Z :=
  match likesLeft st !! postId with
  | Some v => v
  | None => if JS.inherited postId then None else Some 5
  end.

Definition maxedOut (st : State) (postId : string) : bool :=
  match left st postId with
  | Some n => bool_decide (n <= 0)
  | None => false
  end.

(** *** A visit of the feed

    What happens on the page after it is mounted: refreshes, further pages and
    likes, one after the other. *)
Inductive HomeEvent : Type :=
  | Refresh (now now' : Z) (response : option (list Post))
  | NextPage (response : option (list Post))
  | Like (postId : string) (currentLikes : Z) (updated : bool).

Definition home_step (st : State) (ev : HomeEvent) : State :=
  match ev with
  | Refresh now now' response => (handleRefresh st now now' response).1
  | NextPage response => fetchNextPage st response
  | Like postId currentLikes updated =>
      (handleLike st postId currentLikes updated).1
  end.

Definition run_home (st : State) (evs : list HomeEvent) : State :=
  foldl home_step st evs.

(** The updates of the number of likes that a visit sends, oldest first. *)
Fixpoint updates (st : State) (evs : list HomeEvent) : list (string * Z) :=
  match evs with
  | [] => []
  | ev :: rest =>
      match ev with
      | Like postId currentLikes updated =>
          option_list (handleLike st postId currentLikes updated).2
      | _ => []
      end ++ updates (home_step st ev) rest
  end.

(** The clock readings [(now, now')] of the refreshes of a visit that fetched
    the posts, oldest first. *)
Fixpoint refreshes (st : State) (evs : list HomeEvent) : list (Z * Z) :=
  match evs with
  | [] => []
  | ev :: rest =>
      match ev with
      | Refresh now now' response =>
          if (handleRefresh st now now' response).2 then [(now, now')] else []
      | _ => []
      end ++ refreshes (home_step st ev) rest
  end.

(** The like buttons tell the truth: for every post on screen with an
    ordinary identifier, [likesLeft] holds what [remainingLikes] answers. *)
Definition likes_in_sync (st : State) : Prop :=
  ∀ p, p ∈ posts st → ordinary (id p) →
       likesLeft st !! id p = Some (remainingLikes (store st) (id p)).

(** [sg_last_fetch] as [canFetch] reads it. *)
Definition lastFetch (st : State) : Z := getJSON (sg_last_fetch (store st)) 0.

(** *** [timeAgo]

    [now] is the clock reading and [t] the instant of the date string, [None]
    when the string is not a date; a [NaN] prints as [NaN]. *)

Definition floor_div (x : Aggregator.time) (k : Z) : Aggregator.time :=
  (λ n, n / k) <$> x.

Definition show (x : Aggregator.time) : string :=
  match x with
  | Some n => pretty n
  | None => "NaN"
  end.

Definition timeAgo (now : Z) (t : Aggregator.time) : string :=
  let seconds := floor_div (Aggregator.num_sub (Some now) t) 1000 in
  if Aggregator.num_lt seconds (Some 60) then show seconds +:+ "s"
  else
    let minutes := floor_div seconds 60 in
    if Aggregator.num_lt minutes (Some 60) then show minutes +:+ "m"
    else
      let hours := floor_div minutes 60 in
      if Aggregator.num_lt hours (Some 24) then show hours +:+ "h"
      else show (floor_div hours 24) +:+ "d".

(** *** The masonry engine ([layoutMasonry])

    [heights] are the [offsetHeight]s of the children of the grid, in the
    order of the document, [containerWidth] is [container.offsetWidth] and
    [innerWidth] is [window.innerWidth]; all are whole numbers of pixels.
    The width of a column and the [x] of a card are fractions, rounded as
    binary64 rounds them. *)

(** [Math.min(...colHeights)], [None] for the [Infinity] of no argument. *)
Definition minHeight (colHeights : list Z) : option Z :=
  match colHeights with
  | [] => None
  | h :: hs => Some (Math_min h hs)
  end.

(** [Math.max(...colHeights)]; the 0 stands for the [-Infinity] of no
    argument, which does not arise with 2 or 3 columns. *)
Definition maxHeight (colHeights : list Z) : Z :=
  match colHeights with
  | [] => 0
  | h :: hs => foldr Z.max h hs
  end.

(** [colHeights.indexOf(Math.min(...colHeights))]: the first column of the
    least height.  There are 2 or 3 columns where this is used, so the minimum
    exists and is found; the index 0 stands for the [-1] of a failed search. *)
Definition shortestColumn (colHeights : list Z) : nat :=
  default 0%nat
    (m ← minHeight colHeights; fst <$> list_find (λ h, h = m) colHeights).

(** A card as [layoutMasonry] leaves it: its column, and the [x] and [y] of
    its [translate]. *)
Record Card : Type := mkCard {
  column : nat;
  x : Q;
  y : Z
}.

(** [shortest * (colWidth + MASONRY_GAP)]. *)
Definition offsetX (colWidth : Q) (shortest : nat) : Q :=
  JS.fl (inject_Z (Z.of_nat shortest) * JS.fl (colWidth + inject_Z MASONRY_GAP)).

(** [(containerWidth - MASONRY_GAP * (cols - 1)) / cols]. *)
Definition columnWidth (containerWidth : Z) (cols : nat) : Q :=
  JS.fl (inject_Z (containerWidth - MASONRY_GAP * (Z.of_nat cols - 1))
         / inject_Z (Z.of_nat cols)).

(** The [forEach] over the children: each card goes to the shortest column,
    which grows by the height of the card and the gap. *)
Fixpoint placeCards (colWidth : Q) (colHeights : list Z) (heights : list Z)
    : list Card * list Z :=
  match heights with
  | [] => ([], colHeights)
  | offsetHeight :: rest =>
      let shortest := shortestColumn colHeights in
      let card :=
        {| column := shortest;
           x := offsetX colWidth shortest;
           y := default 0 (colHeights !! shortest) |} in
      let colHeights' :=
        <[shortest := default 0 (colHeights !! shortest)
                      + (offsetHeight + MASONRY_GAP)]> colHeights in
      let '(cards, final) := placeCards colWidth colHeights' rest in
      (card :: cards, final)
  end.

(** What [layoutMasonry] does: nothing without a grid or without children;
    with one column it clears the styles and lets the cards flow; otherwise it
    places every card and sets the height of the container. *)
Inductive Layout : Type :=
  | Untouched
  | Flow
  | Grid (colWidth : Q) (cards : list Card) (height : Z).

Definition columns (innerWidth : Z) : nat :=
  if bool_decide (innerWidth >= 1024) then 3%nat
  else if bool_decide (innerWidth >= 768) then 2%nat
  else 1%nat.

Definition layoutMasonry (container : option (list Z * Z)) (innerWidth : Z)
    : Layout :=
  match container with
  | None => Untouched
  | Some ([], _) => Untouched
  | Some (heights, containerWidth) =>
      let cols := columns innerWidth in
      if decide (cols = 1%nat) then Flow
      else
        let colWidth := columnWidth containerWidth cols in
        let '(cards, colHeights) :=
          placeCards colWidth (replicate cols 0) heights in
        Grid colWidth cards (maxHeight colHeights)
  end.

End Home.

(** ** The anonymous identity and the events of a visit
    ([src/lib/identity.ts], [src/lib/analytics.ts] and the effect of
    [AnalyticsProvider])

    [window] is [None] where the code runs without a browser.  Each
    [crypto.randomUUID()] that a function may call is an argument of the
    function, as the clock readings are. *)

Module Analytics.

Definition SESSION_GAP_MS : Z := 30 * 60 * 1000.

(** What is stored under [sg_last_session_ts]: the empty string, or a string
    that is not empty, which stands here as what [parseInt(_, 10)] makes of
    it; [now.toString()] is read back as [now]. *)
Inductive Stamp : Type :=
  | EmptyString
  | Text (parsed : Aggregator.time).

(** The two keys of [localStorage] that the identity and the provider use;
    [None] is a key that was never written. *)
Record Device : Type := mkDevice {
  sg_user_pseudo_id : option string;
  sg_last_session_ts : option Stamp
}.

(** A stored string counts as present when it is neither [null] nor
    empty. *)
Definition present (item : option string) : bool :=
  match item with
  | Some s => negb (bool_decide (s = ""))
  | None => false
  end.

Definition isFirstVisit (window : option Device) : bool :=
  match window with
  | None => false
  | Some d => negb (present (sg_user_pseudo_id d))
  end.

(** [getUserId] in a browser: the device it leaves behind and the identity it
    returns. *)
Definition getUserIdIn (d : Device) (uuid : string) : Device * string :=
  let id := sg_user_pseudo_id d in
  if negb (present id) then
    ({| sg_user_pseudo_id := Some uuid;
        sg_last_session_ts := sg_last_session_ts d |}, uuid)
  else (d, default "" id).

Definition getUserId (window : option Device) (uuid : string)
    : option Device * string :=
  match window with
  | None => (None, "")
  | Some d => let '(d', id) := getUserIdIn d uuid in (Some d', id)
  end.

(** The row that [trackEvent] inserts; [metadata] is passed on as it is given
    and is left out. *)
Record TrackedEvent : Type := mkTracked {
  event_name : string;
  user_pseudo_id : string;
  post_id : option string
}.

Definition trackEvent (window : option Device) (uuid : string)
    (eventName : string) (postId : option string)
    : option Device * TrackedEvent :=
  let '(window', userId) := getUserId window uuid in
  (window', {| event_name := eventName; user_pseudo_id := userId;
               post_id := postId |}).

(** [trackEvent] in a browser. *)
Definition trackEventIn (d : Device) (uuid : string)
    (eventName : string) (postId : option string) : Device * TrackedEvent :=
  let '(d', userId) := getUserIdIn d uuid in
  (d', {| event_name := eventName; user_pseudo_id := userId;
          post_id := postId |}).

(** What one mount of [AnalyticsProvider] meets: the clock reading, the
    [source] parameter of the address, and what [crypto.randomUUID()] would
    return to each of the four calls of [getUserId], in the order of the
    calls. *)
Record Visit : Type := mkVisit {
  now : Z;
  source : option string;
  uuid0 : string;
  uuid1 : string;
  uuid2 : string;
  uuid3 : string
}.

(** [!lastSession || now - parseInt(lastSession, 10) > SESSION_GAP_MS]. *)
Definition sessionExpired (lastSession : option Stamp) (now : Z) : bool :=
  match lastSession with
  | None => true
  | Some EmptyString => true
  | Some (Text t) =>
      Aggregator.num_gt (Aggregator.num_sub (Some now) t) (Some SESSION_GAP_MS)
  end.

(** The effect of [AnalyticsProvider], which runs in a browser: the device it
    leaves behind and the rows it inserts, in order. *)
Definition mountEffect (d : Device) (v : Visit) : Device * list TrackedEvent :=
  let isNew := isFirstVisit (Some d) in
  let d1 := (getUserIdIn d (uuid0 v)).1 in
  let '(d2, first) :=
    if isNew then
      let '(d', row) := trackEventIn d1 (uuid1 v) "first_visit" None in
      (d', [row])
    else (d1, []) in
  let '(d3, session) :=
    if sessionExpired (sg_last_session_ts d2) (now v) then
      let d' := {| sg_user_pseudo_id := sg_user_pseudo_id d2;
                   sg_last_session_ts := Some (Text (Some (now v))) |} in
      let '(d'', row) := trackEventIn d' (uuid2 v) "session_start" None in
      (d'', [row])
    else (d2, []) in
  let '(d4, scan) :=
    if bool_decide (source v = Some "qr") then
      let '(d', row) := trackEventIn d3 (uuid3 v) "qr_scan" None in
      (d', [row])
    else (d3, []) in
  (d4, first ++ session ++ scan).

(** Mounts on one device, one after the other; every row goes with the clock
    reading of its mount. *)
Fixpoint run_mounts (d : Device) (visits : list Visit)
    : Device * list (Z * TrackedEvent) :=
  match visits with
  | [] => (d, [])
  | v :: rest =>
      let '(d', rows) := mountEffect d v in
      let '(d'', log) := run_mounts d' rest in
      (d'', ((λ row, (now v, row)) <$> rows) ++ log)
  end.

(** The clock readings of the mounts that inserted a row of the given
    name. *)
Definition timesOf (name : string) (log : list (Z * TrackedEvent)) : list Z :=
  fst <$> filter (λ r, event_name r.2 = name) log.

(** The row of an event without a post, as [trackEvent(name)] inserts it for
    the identity [i]. *)
Definition row (name i : string) : TrackedEvent :=
  {| event_name := name; user_pseudo_id := i; post_id := None |}.

(** [crypto.randomUUID()] never returns the empty string. *)
Definition fresh (v : Visit) : Prop :=
  uuid0 v ≠ "" ∧ uuid1 v ≠ "" ∧ uuid2 v ≠ "" ∧ uuid3 v ≠ "".

End Analytics.

(** ** The public dashboard ([src/app/dashboard/analytics/page.tsx])

    [fetchDashboard] from the answers of its three queries; the [data] of an
    answer is [None] when the query failed. *)

Module Dashboard.

Record DashboardData : Type := mkDashboard {
  totalPosts : nat;
  totalLikes : JS.number;
  totalFeedback : nat;
  happyCount : nat;
  normalCount : nat;
  sadCount : nat;
  happyPercent : JS.number;
  sadPercent : JS.number;
  totalShares : nat
}.

Definition EMPTY : DashboardData :=
  {| totalPosts := 0; totalLikes := JS.of_Z 0; totalFeedback := 0;
     happyCount := 0; normalCount := 0; sadCount := 0;
     happyPercent := JS.of_Z 0; sadPercent := JS.of_Z 0; totalShares := 0 |}.

(** [total > 0 ? Math.round((count / total) * 100) : 0]. *)
Definition percentOf (count total : nat) : JS.number :=
  if bool_decide (0 < total)%nat
  then JS.Math_round
         (JS.mul (JS.div (JS.of_nat count) (JS.of_nat total)) (JS.of_Z 100))
  else JS.of_Z 0.

(** The record that [fetchDashboard] hands to [setData].  The rows of the
    third query are the [share_post] events, of which only the number is
    used. *)
Definition fetchDashboard (postsRes : option (list Aggregator.RawPost))
    (feedbackRes : option (list Aggregator.RawFeedback))
    (sharesRes : option (list string)) : DashboardData :=
  let posts := default [] postsRes in
  let feedbackRows := default [] feedbackRes in
  let totalFeedback := length feedbackRows in
  let happyCount := Aggregator.countRating "happy" feedbackRows in
  let normalCount := Aggregator.countRating "normal" feedbackRows in
  let sadCount := Aggregator.countRating "sad" feedbackRows in
  {| totalPosts := length posts;
     totalLikes := Aggregator.sumLikes posts;
     totalFeedback := totalFeedback;
     happyCount := happyCount;
     normalCount := normalCount;
     sadCount := sadCount;
     happyPercent := percentOf happyCount totalFeedback;
     sadPercent := percentOf sadCount totalFeedback;
     totalShares := length (default [] sharesRes) |}.

End Dashboard.
(** * Properties of binary64 rounding *)

Module Binary64.
Import JS.
Local Open Scope Q_scope.

(** ** Powers of two *)

Lemma pow2_pos e : 0 < pow2 e.
Proof. apply Qpower_0_lt. reflexivity. Qed.

Lemma pow2_plus a b : pow2 (a + b) == pow2 a * pow2 b.
Proof. apply Qpower_plus. discriminate. Qed.

Lemma pow2_le a b : (a <= b)%Z -> pow2 a <= pow2 b.
Proof. intros. apply Qpower_le_compat_l; [assumption | discriminate]. Qed.

Lemma pow2_lt a b : (a < b)%Z -> pow2 a < pow2 b.
Proof. intros. apply Qpower_lt_compat_l; [assumption | reflexivity]. Qed.

Lemma pow2_lt_inv a b : pow2 a < pow2 b -> (a < b)%Z.
Proof. intros. apply (Qpower_lt_compat_l_inv 2); [assumption | reflexivity]. Qed.

Lemma pow2_Z e : (0 <= e)%Z -> pow2 e == inject_Z (2 ^ e).
Proof. intros. symmetry. apply Zpower_Qpower. assumption. Qed.

Lemma pow2_succ a : pow2 (a + 1) == 2 * pow2 a.
Proof. rewrite pow2_plus. change (pow2 1) with 2. ring. Qed.

Lemma ilog2_spec x : 0 < x -> pow2 (ilog2 x) <= x /\ x < pow2 (ilog2 x + 1).
Proof.
  intros Hx. destruct x as [n d]. unfold ilog2. cbn [Qnum Qden].
  assert (Hn : (0 < n)%Z) by (unfold Qlt in Hx; cbn in Hx; lia).
  set (ln := Z.log2 n). set (ld := Z.log2 (Z.pos d)).
  destruct (Z.log2_spec n Hn) as [Hn1 Hn2]. fold ln in Hn1, Hn2.
  destruct (Z.log2_spec (Z.pos d) eq_refl) as [Hd1 Hd2]. fold ld in Hd1, Hd2.
  assert (Hln : (0 <= ln)%Z) by apply Z.log2_nonneg.
  assert (Hld : (0 <= ld)%Z) by apply Z.log2_nonneg.
  (* n # d against powers of two *)
  assert (Hx_eq : (n # d) * inject_Z (Z.pos d) == inject_Z n).
  { unfold Qeq, Qmult, inject_Z. cbn. lia. }
  assert (Hlo : pow2 (ln - ld - 1) < n # d).
  { apply Qmult_lt_r with (z := pow2 (ld + 1)); [apply pow2_pos|].
    rewrite <- pow2_plus. replace (ln - ld - 1 + (ld + 1))%Z with ln by lia.
    apply Qle_lt_trans with (inject_Z n).
    - rewrite pow2_Z by lia. rewrite <- Zle_Qle. exact Hn1.
    - rewrite <- Hx_eq. apply Qmult_lt_l; [exact Hx|].
      rewrite pow2_Z by lia. rewrite <- Zlt_Qlt. replace (ld + 1)%Z with (Z.succ ld) by lia. exact Hd2. }
  assert (Hhi : n # d < pow2 (ln - ld + 1)).
  { apply Qmult_lt_r with (z := pow2 ld); [apply pow2_pos|].
    rewrite <- pow2_plus. replace (ln - ld + 1 + ld)%Z with (ln + 1)%Z by lia.
    apply Qle_lt_trans with (inject_Z n).
    - rewrite <- Hx_eq. apply Qmult_le_l; [exact Hx|].
      rewrite pow2_Z by lia. rewrite <- Zle_Qle. exact Hd1.
    - rewrite pow2_Z by lia. rewrite <- Zlt_Qlt. replace (ln + 1)%Z with (Z.succ ln) by lia. exact Hn2. }
  destruct (Qle_bool (pow2 (ln - ld)) (n # d)) eqn:E.
  - apply Qle_bool_iff in E. split; assumption.
  - split.
    + apply Qlt_le_weak. exact Hlo.
    + replace (ln - ld - 1 + 1)%Z with (ln - ld)%Z by lia.
      apply Qnot_le_lt. intros H. apply Qle_bool_iff in H. congruence.
Qed.

Lemma ilog2_unique x L : pow2 L <= x -> x < pow2 (L + 1) -> ilog2 x = L.
Proof.
  intros H1 H2.
  assert (Hx : 0 < x) by (eapply Qlt_le_trans; [apply (pow2_pos L)|exact H1]).
  destruct (ilog2_spec x Hx) as [H3 H4].
  assert (ilog2 x < L + 1)%Z by (apply pow2_lt_inv; eapply Qle_lt_trans; eassumption).
  assert (L < ilog2 x + 1)%Z by (apply pow2_lt_inv; eapply Qle_lt_trans; eassumption).
  lia.
Qed.

(** ** Rounding to an integer *)

Lemma rne_cases x :
  let f := Qfloor x in
  (rne x = f /\ x - inject_Z f <= 1 # 2) \/ (rne x = (f + 1)%Z /\ 1 # 2 <= x - inject_Z f).
Proof.
  intros f. unfold rne. fold f.
  destruct (Qcompare (x - inject_Z f) (1 # 2)) eqn:E.
  - apply Qeq_alt in E. destruct (Z.even f); [left | right]; split; auto; rewrite E; apply Qle_refl.
  - apply Qlt_alt in E. left. split; auto. apply Qlt_le_weak, E.
  - apply Qgt_alt in E. right. split; auto. apply Qlt_le_weak, E.
Qed.

Lemma rne_ge x k : inject_Z k <= x -> (k <= rne x)%Z.
Proof.
  intros H. apply Qfloor_resp_le in H. rewrite Qfloor_Z in H.
  destruct (rne_cases x) as [[-> _] | [-> _]]; lia.
Qed.

Lemma rne_le x k : x <= inject_Z k -> (rne x <= k)%Z.
Proof.
  intros H. pose proof (Qfloor_le x) as Hf.
  destruct (rne_cases x) as [[-> _] | [-> Hh]].
  - rewrite Zle_Qle. eapply Qle_trans; eassumption.
  - assert (inject_Z (Qfloor x) < inject_Z k) by lra.
    rewrite <- Zlt_Qlt in H0. lia.
Qed.

Lemma rne_err x : Qabs (inject_Z (rne x) - x) <= 1 # 2.
Proof.
  pose proof (Qfloor_le x) as Hf. pose proof (Qlt_floor x) as Hc.
  rewrite inject_Z_plus in Hc. change (inject_Z 1) with 1 in Hc.
  apply Qabs_Qle_condition.
  destruct (rne_cases x) as [[-> Hh] | [-> Hh]].
  - split; lra.
  - rewrite inject_Z_plus. change (inject_Z 1) with 1. split; lra.
Qed.

Lemma pow2_div_mul x e : x / pow2 e * pow2 e == x.
Proof. field. pose proof (pow2_pos e). lra. Qed.

(** The scaled significand of a positive number lies in [2^52, 2^53). *)
Lemma significand_range x :
  0 < x ->
  let e := (ilog2 x - 52)%Z in
  pow2 52 <= x / pow2 e /\ x / pow2 e < pow2 53.
Proof.
  intros Hx e. destruct (ilog2_spec x Hx) as [H1 H2].
  pose proof (pow2_pos e) as He.
  split.
  - apply Qle_shift_div_l; [exact He|]. rewrite <- pow2_plus.
    unfold e. replace (52 + (ilog2 x - 52))%Z with (ilog2 x) by lia. exact H1.
  - apply Qlt_shift_div_r; [exact He|]. rewrite <- pow2_plus.
    unfold e. replace (53 + (ilog2 x - 52))%Z with (ilog2 x + 1)%Z by lia. exact H2.
Qed.

Lemma fl_pos_le x y : 0 < x -> representable y -> x <= y -> fl_pos x <= y.
Proof.
  intros Hx (k & j & Hk & Hy) Hxy. unfold fl_pos.
  destruct (significand_range x Hx) as [Hm1 Hm2].
  set (e := (ilog2 x - 52)%Z) in *. pose proof (pow2_pos e) as He.
  destruct (Z_le_gt_dec e j) as [Hje | Hje].
  - (* y is a multiple of 2^e *)
    assert (HK : y == inject_Z (k * 2 ^ (j - e)) * pow2 e).
    { rewrite Hy, inject_Z_mult, <- pow2_Z by lia.
      rewrite <- Qmult_assoc, <- pow2_plus. replace (j - e + e)%Z with j by lia. reflexivity. }
    rewrite HK. apply Qmult_le_compat_r; [|apply Qlt_le_weak, He].
    rewrite <- Zle_Qle. apply rne_le.
    apply Qle_shift_div_r; [exact He|]. rewrite <- HK. exact Hxy.
  - (* y <= 2^(e+52) <= x *)
    assert (Hy' : y <= pow2 (52 + e)).
    { rewrite Hy. apply Qle_trans with (inject_Z (2 ^ 53) * pow2 j).
      - apply Qmult_le_compat_r; [|apply Qlt_le_weak, pow2_pos]. rewrite <- Zle_Qle. lia.
      - rewrite <- pow2_Z by lia. rewrite <- pow2_plus. apply pow2_le. lia. }
    apply Qle_trans with (pow2 (52 + e)); [|].
    + rewrite pow2_plus. apply Qmult_le_compat_r; [|apply Qlt_le_weak, He].
      rewrite (pow2_Z 52) by lia. rewrite <- Zle_Qle. apply rne_le.
      rewrite <- pow2_Z by lia.
      apply Qle_shift_div_r; [exact He|]. rewrite <- pow2_plus.
      eapply Qle_trans; eassumption.
    + apply Qle_trans with x; [|exact Hxy].
      rewrite pow2_plus. apply Qle_trans with (x / pow2 e * pow2 e).
      * apply Qmult_le_compat_r; [exact Hm1 | apply Qlt_le_weak, He].
      * rewrite pow2_div_mul. apply Qle_refl.
Qed.

Lemma fl_pos_ge x y : 0 < x -> representable y -> y <= x -> y <= fl_pos x.
Proof.
  intros Hx (k & j & Hk & Hy) Hxy. unfold fl_pos.
  destruct (significand_range x Hx) as [Hm1 Hm2].
  set (e := (ilog2 x - 52)%Z) in *. pose proof (pow2_pos e) as He.
  assert (Hlow : pow2 (52 + e) <= inject_Z (rne (x / pow2 e)) * pow2 e).
  { rewrite pow2_plus. apply Qmult_le_compat_r; [|apply Qlt_le_weak, He].
    rewrite (pow2_Z 52) by lia. rewrite <- Zle_Qle. apply rne_ge.
    rewrite <- pow2_Z by lia. exact Hm1. }
  destruct (Z_le_gt_dec e j) as [Hje | Hje].
  - assert (HK : y == inject_Z (k * 2 ^ (j - e)) * pow2 e).
    { rewrite Hy, inject_Z_mult, <- pow2_Z by lia.
      rewrite <- Qmult_assoc, <- pow2_plus. replace (j - e + e)%Z with j by lia. reflexivity. }
    rewrite HK. apply Qmult_le_compat_r; [|apply Qlt_le_weak, He].
    rewrite <- Zle_Qle. apply rne_ge.
    apply Qle_shift_div_l; [exact He|]. rewrite <- HK. exact Hxy.
  - apply Qle_trans with (pow2 (52 + e)); [|exact Hlow].
    rewrite Hy. apply Qle_trans with (inject_Z (2 ^ 53) * pow2 j).
    + apply Qmult_le_compat_r; [|apply Qlt_le_weak, pow2_pos]. rewrite <- Zle_Qle. lia.
    + rewrite <- pow2_Z by lia. rewrite <- pow2_plus. apply pow2_le. lia.
Qed.

Lemma fl_pos_err x : 0 < x -> Qabs (fl_pos x - x) <= x * (1 # 2 ^ 53).
Proof.
  intros Hx. unfold fl_pos.
  destruct (significand_range x Hx) as [Hm1 Hm2].
  set (e := (ilog2 x - 52)%Z) in *. pose proof (pow2_pos e) as He.
  set (m := x / pow2 e) in *.
  assert (Hxm : x == m * pow2 e) by (unfold m; symmetry; apply pow2_div_mul).
  assert (Hd : inject_Z (rne m) * pow2 e - x == (inject_Z (rne m) - m) * pow2 e).
  { rewrite Hxm at 1. ring. }
  rewrite Hd, Qabs_Qmult, (Qabs_pos (pow2 e)) by (apply Qlt_le_weak, He).
  apply Qle_trans with ((1 # 2) * pow2 e).
  - apply Qmult_le_compat_r; [apply rne_err | apply Qlt_le_weak, He].
  - rewrite Hxm. 
    assert (H52 : inject_Z (2 ^ 52) <= m) by (rewrite <- pow2_Z by lia; exact Hm1).
    change (inject_Z (2 ^ 52)) with 4503599627370496 in H52.
    change (1 # 2 ^ 53) with (1 # 9007199254740992).
    assert (0 <= (m - 4503599627370496) * pow2 e).
    { apply Qmult_le_0_compat; lra. }
    lra.
Qed.

(** ** Rounding to binary64 *)

Lemma representable_opp y : representable y -> representable (- y).
Proof.
  intros (k & j & Hk & Hy). exists (- k)%Z, j. split; [lia|].
  rewrite Hy, inject_Z_opp. ring.
Qed.

Lemma representable_Z n : (Z.abs n <= 2 ^ 53)%Z -> representable (inject_Z n).
Proof. intros H. exists n, 0%Z. split; [exact H|]. change (pow2 0) with 1. ring. Qed.

Lemma representable_eq x y : x == y -> representable x -> representable y.
Proof. intros E (k & j & Hk & Hy). exists k, j. split; [exact Hk|]. rewrite <- E. exact Hy. Qed.

Lemma rne_proper x y : x == y -> rne x = rne y.
Proof.
  intros E. unfold rne. rewrite (Qfloor_comp _ _ E).
  assert (E' : x - inject_Z (Qfloor y) == y - inject_Z (Qfloor y)) by (rewrite E; reflexivity).
  rewrite (Qcompare_comp _ _ E' _ _ (Qeq_refl (1 # 2))). reflexivity.
Qed.

Lemma ilog2_proper x y : 0 < x -> x == y -> ilog2 x = ilog2 y.
Proof.
  intros Hx E. symmetry. destruct (ilog2_spec x Hx) as [H1 H2].
  apply ilog2_unique; lra.
Qed.

Lemma fl_pos_proper x y : 0 < x -> x == y -> fl_pos x == fl_pos y.
Proof.
  intros Hx E. unfold fl_pos. rewrite <- (ilog2_proper x y Hx E).
  assert (E' : x / pow2 (ilog2 x - 52) == y / pow2 (ilog2 x - 52)).
  { unfold Qdiv. apply Qmult_comp; [exact E | reflexivity]. }
  rewrite (rne_proper _ _ E'). reflexivity.
Qed.

Lemma fl_proper x y : x == y -> fl x = fl y.
Proof.
  intros E. unfold fl. rewrite <- (Qcompare_comp _ _ E _ _ (Qeq_refl 0)).
  destruct (Qcompare x 0) eqn:C.
  - reflexivity.
  - apply Qlt_alt in C. apply Qred_complete.
    assert (E' : - x == - y) by (rewrite E; reflexivity).
    rewrite (fl_pos_proper (- x) (- y)); [reflexivity | lra | exact E'].
  - apply Qgt_alt in C. apply Qred_complete. apply fl_pos_proper; assumption.
Qed.

Lemma fl_0 : fl 0 = 0.
Proof. reflexivity. Qed.

Lemma fl_le x y : representable y -> x <= y -> fl x <= y.
Proof.
  intros Hy Hxy. unfold fl. destruct (Qcompare x 0) eqn:C.
  - apply Qeq_alt in C. lra.
  - apply Qlt_alt in C. rewrite Qred_correct.
    assert (- y <= fl_pos (- x)).
    { apply fl_pos_ge; [lra | apply representable_opp, Hy | lra]. }
    lra.
  - apply Qgt_alt in C. rewrite Qred_correct. apply fl_pos_le; assumption.
Qed.

Lemma fl_ge x y : representable y -> y <= x -> y <= fl x.
Proof.
  intros Hy Hxy. unfold fl. destruct (Qcompare x 0) eqn:C.
  - apply Qeq_alt in C. lra.
  - apply Qlt_alt in C. rewrite Qred_correct.
    assert (fl_pos (- x) <= - y).
    { apply fl_pos_le; [lra | apply representable_opp, Hy | lra]. }
    lra.
  - apply Qgt_alt in C. rewrite Qred_correct. apply fl_pos_ge; assumption.
Qed.

Lemma fl_exact x : representable x -> fl x == x.
Proof.
  intros H. apply Qle_antisym; [apply fl_le | apply fl_ge]; auto; apply Qle_refl.
Qed.

Lemma fl_err x : Qabs (fl x - x) <= Qabs x * (1 # 2 ^ 53).
Proof.
  unfold fl. destruct (Qcompare x 0) eqn:C.
  - apply Qeq_alt in C. rewrite C. vm_compute. discriminate.
  - apply Qlt_alt in C. rewrite Qred_correct.
    rewrite (Qabs_neg x) by lra.
    assert (E : - fl_pos (- x) - x == - (fl_pos (- x) - - x)) by ring.
    rewrite E, Qabs_opp. apply fl_pos_err. lra.
  - apply Qgt_alt in C. rewrite Qred_correct.
    rewrite (Qabs_pos x) by lra. apply fl_pos_err. exact C.
Qed.

Lemma fl_representable x : representable (fl x).
Proof.
  unfold fl. destruct (Qcompare x 0) eqn:C.
  - apply (representable_Z 0). vm_compute. discriminate.
  - apply Qlt_alt in C. eapply representable_eq; [symmetry; apply Qred_correct|].
    apply representable_opp. unfold fl_pos.
    assert (Hx : 0 < - x) by lra.
    destruct (significand_range (- x) Hx) as [Hm1 Hm2].
    eexists _, _. split; [|reflexivity].
    assert (0 <= rne (- x / pow2 (ilog2 (- x) - 52)) <= 2 ^ 53)%Z; [|lia].
    split.
    + apply rne_ge. eapply Qle_trans; [|exact Hm1]. apply Qlt_le_weak, pow2_pos.
    + apply rne_le. rewrite <- pow2_Z by lia. apply Qlt_le_weak, Hm2.
  - apply Qgt_alt in C. eapply representable_eq; [symmetry; apply Qred_correct|].
    unfold fl_pos.
    destruct (significand_range x C) as [Hm1 Hm2].
    eexists _, _. split; [|reflexivity].
    assert (0 <= rne (x / pow2 (ilog2 x - 52)) <= 2 ^ 53)%Z; [|lia].
    split.
    + apply rne_ge. eapply Qle_trans; [|exact Hm1]. apply Qlt_le_weak, pow2_pos.
    + apply rne_le. rewrite <- pow2_Z by lia. apply Qlt_le_weak, Hm2.
Qed.

Lemma representable_double x : representable x -> representable (2 * x).
Proof.
  intros (k & j & Hk & Hx). exists k, (j + 1)%Z. split; [exact Hk|].
  rewrite Hx, pow2_succ. ring.
Qed.

Lemma fl_Z n : (Z.abs n <= 2 ^ 53)%Z -> fl (inject_Z n) == inject_Z n.
Proof. intros. apply fl_exact, representable_Z. assumption. Qed.

End Binary64.

(** * Rates in binary64 *)

Module Rates.
Import JS Binary64 Aggregator Claims.

Ltac Qlit :=
  change (inject_Z 0) with 0%Q in *;
  change (inject_Z 1) with 1%Q in *;
  change (inject_Z 10) with 10%Q in *;
  change (inject_Z 40) with 40%Q in *;
  change (inject_Z 50) with 50%Q in *;
  change (inject_Z 100) with 100%Q in *;
  change (inject_Z 1000) with 1000%Q in *;
  change (inject_Z 60000) with 60000%Q in *;
  change (inject_Z (-1)) with (-1)%Q in *;
  change (inject_Z (-100)) with (-100)%Q in *;
  change (2 ^ 53)%positive with 9007199254740992%positive in *.

Ltac Qconst :=
  unfold Qdiv in *;
  Qlit;
  change (/ 10)%Q with (1 # 10)%Q in *;
  change (/ 20)%Q with (1 # 20)%Q in *;
  change (/ 2)%Q with (1 # 2)%Q in *.

(** ** Single operations *)

(** The error of one rounding, as two inequalities. *)
Lemma fl_near (v bound : Q) :
  (Qabs v <= bound)%Q →
  (v - bound * (1 # 2 ^ 53) <= fl v <= v + bound * (1 # 2 ^ 53))%Q.
Proof.
  intros Hv. pose proof (fl_err v) as Herr.
  apply Qabs_Qle_condition in Herr.
  assert (Hb : (Qabs v * (1 # 2 ^ 53) <= bound * (1 # 2 ^ 53))%Q).
  { apply Qmult_le_compat_r; [exact Hv|discriminate]. }
  lra.
Qed.

Lemma fl_range (v lo hi : Q) :
  representable lo → representable hi →
  (lo <= v <= hi)%Q → (lo <= fl v <= hi)%Q.
Proof. intros Hlo Hhi [H1 H2]. split; [by apply fl_ge|by apply fl_le]. Qed.

Lemma representable_const (n : Z) :
  Z.abs n <= 2 ^ 53 → representable (inject_Z n).
Proof. apply representable_Z. Qed.

Lemma Qnat_pos n : (0 < n)%nat → (0 < Qnat n)%Q.
Proof. intros Hn. unfold Qnat. rewrite <- (Zlt_Qlt 0). lia. Qed.

Lemma Qnat_nonneg n : (0 <= Qnat n)%Q.
Proof. unfold Qnat. rewrite <- (Zle_Qle 0). lia. Qed.

Lemma Qnat_le n m : (n ≤ m)%nat → (Qnat n <= Qnat m)%Q.
Proof. intros Hn. unfold Qnat. rewrite <- Zle_Qle. lia. Qed.

Lemma Qzero_Qnat n : (0 < n)%nat → Qzero (inject_Z (Z.of_nat n)) = false.
Proof.
  intros Hn. unfold Qzero. apply not_true_is_false. intros H.
  apply Qeq_bool_iff in H. pose proof (Qnat_pos n Hn). unfold Qnat in *. lra.
Qed.

(** [a / b] of two counts, the second not 0. *)
Lemma div_counts (a b : nat) :
  (0 < b)%nat → div (of_nat a) (of_nat b) = Fin (fl (Qnat a / Qnat b)).
Proof. intros Hb. unfold div, of_nat, of_Z. by rewrite Qzero_Qnat. Qed.

(** A fraction of a whole lies between 0 and 1. *)
Lemma ratio_range (a b : nat) :
  (a ≤ b)%nat → (0 < b)%nat → (0 <= Qnat a / Qnat b <= 1)%Q.
Proof.
  intros Hab Hb. pose proof (Qnat_pos b Hb) as Hpos.
  pose proof (Qnat_nonneg a) as Ha. pose proof (Qnat_le a b Hab) as Hle.
  split.
  - apply Qle_shift_div_l; [done|]. lra.
  - apply Qle_shift_div_r; [done|]. lra.
Qed.

Lemma representable_0 : representable 0.
Proof. apply (representable_const 0). done. Qed.
Lemma representable_1 : representable 1.
Proof. apply (representable_const 1). done. Qed.
Lemma representable_100 : representable 100.
Proof. apply (representable_const 100). done. Qed.
Lemma representable_1000 : representable 1000.
Proof. apply (representable_const 1000). done. Qed.
Lemma representable_m1 : representable (-1).
Proof. apply (representable_const (-1)). done. Qed.
Lemma representable_m100 : representable (-100).
Proof. apply (representable_const (-100)). done. Qed.

(** ** A percentage and its rounding to one decimal *)

(** [(q * 100)] and [(q * 100) * 10] in binary64, for a fraction [q] of a
    whole that binary64 holds up to its rounding. *)
Lemma percent_chain (q f : Q) :
  (0 <= q <= 1)%Q → (0 <= f <= 1)%Q →
  (q - (1 # 2 ^ 53) <= f <= q + (1 # 2 ^ 53))%Q →
  let r := fl (f * 100) in
  let s := fl (r * 10) in
  (0 <= r <= 100)%Q
  ∧ (100 * q - 200 * (1 # 2 ^ 53) <= r <= 100 * q + 200 * (1 # 2 ^ 53))%Q
  ∧ (0 <= s <= 1000)%Q
  ∧ (1000 * q - 3000 * (1 # 2 ^ 53) <= s <= 1000 * q + 3000 * (1 # 2 ^ 53))%Q.
Proof.
  intros Hq Hf Hfq r s.
  assert (Hr : (0 <= r <= 100)%Q).
  { apply fl_range; [apply representable_0|apply representable_100|]. lra. }
  assert (Hr' : (f * 100 - 100 * (1 # 2 ^ 53) <= r <= f * 100 + 100 * (1 # 2 ^ 53))%Q).
  { apply fl_near. apply Qabs_Qle_condition. lra. }
  assert (Hs : (0 <= s <= 1000)%Q).
  { apply fl_range; [apply representable_0|apply representable_1000|]. lra. }
  assert (Hs' : (r * 10 - 1000 * (1 # 2 ^ 53) <= s <= r * 10 + 1000 * (1 # 2 ^ 53))%Q).
  { apply fl_near. apply Qabs_Qle_condition. lra. }
  Qconst. split_and!; lra.
Qed.

(** A fraction of counts in binary64. *)
Lemma ratio64 (a b : nat) :
  (a ≤ b)%nat → (0 < b)%nat →
  let q := (Qnat a / Qnat b)%Q in
  (0 <= fl q <= 1)%Q ∧ (q - (1 # 2 ^ 53) <= fl q <= q + (1 # 2 ^ 53))%Q.
Proof.
  intros Hab Hb q. pose proof (ratio_range a b Hab Hb) as Hq. fold q in Hq.
  split.
  - apply fl_range; [apply representable_0|apply representable_1|done].
  - assert (H1 : (Qabs q <= 1)%Q) by (apply Qabs_Qle_condition; lra).
    pose proof (fl_near q 1 H1). lra.
Qed.

(** [Math.round]: the result is within one half of its argument. *)
Lemma round_near (x : Q) :
  let k := Qfloor (x + (1 # 2)) in
  (inject_Z k - (1 # 2) <= x)%Q ∧ (x < inject_Z k + (1 # 2))%Q.
Proof.
  intros k. pose proof (Qfloor_le (x + (1 # 2))) as Hle.
  pose proof (Qlt_floor (x + (1 # 2))) as Hlt.
  rewrite inject_Z_plus in Hlt. fold k in Hle, Hlt. Qconst. split; lra.
Qed.

Lemma round_range (x : Q) (lo hi : Z) :
  (inject_Z lo <= x <= inject_Z hi)%Q → lo <= Qfloor (x + (1 # 2)) <= hi.
Proof.
  intros [Hlo Hhi]. split.
  - rewrite <- (Qfloor_Z lo). apply Qfloor_resp_le. lra.
  - assert (H : Qfloor (x + (1 # 2)) <= Qfloor (inject_Z hi + (1 # 2)))
      by (apply Qfloor_resp_le; lra).
    etrans; [exact H|].
    assert (Hlt : (inject_Z (Qfloor (inject_Z hi + (1 # 2))) < inject_Z (hi + 1))%Q).
    { pose proof (Qfloor_le (inject_Z hi + (1 # 2))).
      rewrite inject_Z_plus. Qconst. lra. }
    rewrite <- Zlt_Qlt in Hlt. lia.
Qed.

(** An integer within a little more than one half of a fraction [N / B] is
    within one half of it, when the little more is too small to hold another
    multiple of [1 / (2 * B)]. *)
Lemma nearest_integer_Z (N B k : Z) (y eps : Q) :
  0 < B →
  (inject_Z k - (1 # 2) <= y <= inject_Z k + (1 # 2))%Q →
  (inject_Z N / inject_Z B - eps <= y <= inject_Z N / inject_Z B + eps)%Q →
  (2 * inject_Z B * eps < 1)%Q →
  - B <= 2 * k * B - 2 * N <= B.
Proof.
  intros HB Hk Hy Heps.
  assert (HBq : (0 < inject_Z B)%Q) by (by rewrite <- (Zlt_Qlt 0)).
  set (T := (inject_Z N / inject_Z B)%Q) in *.
  assert (HT : (T * inject_Z B == inject_Z N)%Q) by (unfold T; field; lra).
  assert (HD : (inject_Z (2 * k * B - 2 * N)
                == 2 * inject_Z B * (inject_Z k - T))%Q).
  { unfold Z.sub. rewrite inject_Z_plus, inject_Z_opp, !inject_Z_mult.
    change (inject_Z 2) with 2%Q. rewrite <- HT. ring. }
  assert (Hup : (2 * inject_Z B * (inject_Z k - T)
                 <= 2 * inject_Z B * ((1 # 2) + eps))%Q).
  { apply Qmult_le_l; lra. }
  assert (Hdown : (2 * inject_Z B * (- ((1 # 2) + eps))
                   <= 2 * inject_Z B * (inject_Z k - T))%Q).
  { apply Qmult_le_l; lra. }
  assert (H1 : (inject_Z (2 * k * B - 2 * N) < inject_Z (B + 1))%Q).
  { rewrite HD, inject_Z_plus. Qconst. lra. }
  assert (H2 : (inject_Z (- B - 1) < inject_Z (2 * k * B - 2 * N))%Q).
  { rewrite HD. unfold Z.sub. rewrite inject_Z_plus, !inject_Z_opp. Qconst. lra. }
  rewrite <- Zlt_Qlt in H1, H2. lia.
Qed.

Lemma nearest_integer (N B k : Z) (y eps : Q) :
  0 < B →
  (inject_Z k - (1 # 2) <= y <= inject_Z k + (1 # 2))%Q →
  (inject_Z N / inject_Z B - eps <= y <= inject_Z N / inject_Z B + eps)%Q →
  (2 * inject_Z B * eps < 1)%Q →
  (Qabs (inject_Z k - inject_Z N / inject_Z B) <= 1 # 2)%Q.
Proof.
  intros HB Hk Hy Heps.
  destruct (nearest_integer_Z N B k y eps HB Hk Hy Heps) as [H4 H3].
  assert (HBq : (0 < inject_Z B)%Q) by (by rewrite <- (Zlt_Qlt 0)).
  set (T := (inject_Z N / inject_Z B)%Q) in *.
  assert (HT : (T * inject_Z B == inject_Z N)%Q) by (unfold T; field; lra).
  assert (HD : (inject_Z (2 * k * B - 2 * N)
                == 2 * inject_Z B * (inject_Z k - T))%Q).
  { unfold Z.sub. rewrite inject_Z_plus, inject_Z_opp, !inject_Z_mult.
    change (inject_Z 2) with 2%Q. rewrite <- HT. ring. }
  rewrite Zle_Qle in H3, H4.
  rewrite HD in H3, H4. rewrite inject_Z_opp in H4.
  apply Qabs_Qle_condition.
  assert (Hhalf : (2 * inject_Z B * (1 # 2) == inject_Z B)%Q) by ring.
  split.
  - apply (Qmult_le_l _ _ (2 * inject_Z B)); [lra|]. lra.
  - apply (Qmult_le_l _ _ (2 * inject_Z B)); [lra|]. lra.
Qed.

Lemma round1_Fin (x : Q) :
  round1 (Fin x)
  = Fin (fl (inject_Z (Qfloor (fl (x * inject_Z 10) + (1 # 2))) / inject_Z 10)).
Proof. reflexivity. Qed.

Lemma percent64_Fin (a b : nat) :
  (0 < b)%nat →
  percent64 a b = Fin (fl (fl (Qnat a / Qnat b) * inject_Z 100)).
Proof.
  intros Hb. unfold percent64. rewrite decide_False by lia.
  by rewrite div_counts.
Qed.

Lemma percent_pos (a b : nat) :
  (0 < b)%nat → (percent a b == 100 * (Qnat a / Qnat b))%Q.
Proof. intros Hb. unfold percent. rewrite decide_False by lia. ring. Qed.

(** The rate that is returned for a percentage is a tenth nearest to it. *)
Lemma percent64_rounded1 (a b : nat) :
  (a ≤ b)%nat → Z.of_nat b < 2 ^ 32 →
  rounded1 (percent a b) (round1 (percent64 a b)).
Proof.
  intros Hab Hsmall. destruct (decide (b = 0%nat)) as [->|Hb].
  { exists 0. split; [vm_compute; reflexivity|]. vm_compute. discriminate. }
  assert (Hpos : (0 < b)%nat) by lia.
  rewrite percent64_Fin, round1_Fin by done.
  pose proof (ratio_range a b Hab Hpos) as Hq.
  destruct (ratio64 a b Hab Hpos) as [Hf Hfq]. cbv zeta in Hf, Hfq.
  set (q := (Qnat a / Qnat b)%Q) in *.
  destruct (percent_chain q (fl q) Hq Hf Hfq) as (_ & _ & Hs & Hs').
  cbv zeta in Hs, Hs'. Qconst.
  set (s := fl (fl (fl q * 100) * 10)) in *.
  destruct (round_near s) as [Hk1 Hk2]. cbv zeta in Hk1, Hk2.
  set (k := Qfloor (s + (1 # 2))) in *.
  exists k. split; [done|].
  assert (Hnear : (Qabs (inject_Z k - inject_Z (1000 * Z.of_nat a)
                                       / inject_Z (Z.of_nat b)) <= 1 # 2)%Q).
  { apply (nearest_integer _ _ k s (3000 * (1 # 9007199254740992))); [lia| | |].
    - split; lra.
    - assert (E : (inject_Z (1000 * Z.of_nat a) / inject_Z (Z.of_nat b)
                   == 1000 * q)%Q).
      { unfold q, Qnat. rewrite inject_Z_mult. Qconst. ring. }
      rewrite E. Qconst. lra.
    - assert (Hb32 : (inject_Z (Z.of_nat b) <= 4294967296)%Q).
      { change 4294967296%Q with (inject_Z (2 ^ 32)). rewrite <- Zle_Qle. lia. }
      lra. }
  rewrite (percent_pos a b Hpos). change (Qnat a / Qnat b)%Q with q.
  assert (E : (inject_Z (1000 * Z.of_nat a) / inject_Z (Z.of_nat b)
               == 1000 * q)%Q).
  { unfold q, Qnat. rewrite inject_Z_mult. Qconst. ring. }
  rewrite E in Hnear. apply Qabs_Qle_condition in Hnear.
  apply Qabs_Qle_condition. Qconst. lra.
Qed.

(** Whatever the counts, the rate that is returned is a number between 0
    and 100. *)
Lemma percent64_range (a b : nat) :
  (a ≤ b)%nat →
  ∃ y : Q, round1 (percent64 a b) = Fin y ∧ (0 <= y <= 100)%Q.
Proof.
  intros Hab. destruct (decide (b = 0%nat)) as [->|Hb].
  { exists 0%Q. split; [vm_compute; reflexivity|]. lra. }
  assert (Hpos : (0 < b)%nat) by lia.
  rewrite percent64_Fin, round1_Fin by done.
  pose proof (ratio_range a b Hab Hpos) as Hq.
  destruct (ratio64 a b Hab Hpos) as [Hf Hfq]. cbv zeta in Hf, Hfq.
  set (q := (Qnat a / Qnat b)%Q) in *.
  destruct (percent_chain q (fl q) Hq Hf Hfq) as (_ & _ & Hs & _).
  cbv zeta in Hs. Qconst.
  set (s := fl (fl (fl q * 100) * 10)) in *.
  assert (Hk : 0 <= Qfloor (s + (1 # 2)) <= 1000).
  { apply round_range. Qconst. lra. }
  set (k := Qfloor (s + (1 # 2))) in *.
  eexists. split; [done|].
  destruct Hk as [Hk0 Hk1]. rewrite Zle_Qle in Hk0, Hk1.
  apply fl_range; [apply representable_0|apply representable_100|].
  Qconst. lra.
Qed.

(** The percentage in binary64 is above 50 exactly when the part is more
    than half of the whole. *)
Lemma percent64_above_half (a b : nat) :
  (a ≤ b)%nat → Z.of_nat b <= 2 ^ 52 →
  gt (percent64 a b) (of_Z 50) = true ↔ (b < 2 * a)%nat.
Proof.
  intros Hab Hsmall. destruct (decide (b = 0%nat)) as [->|Hb].
  { split; [|lia]. intros H. vm_compute in H. discriminate H. }
  assert (Hpos : (0 < b)%nat) by lia.
  rewrite percent64_Fin by done. unfold gt, of_Z.
  rewrite negb_true_iff, <- not_true_iff_false, Qle_bool_iff.
  pose proof (Qnat_pos b Hpos) as HB.
  set (q := (Qnat a / Qnat b)%Q).
  assert (HqB : (q * Qnat b == Qnat a)%Q) by (unfold q; field; lra).
  split.
  - intros Habove. destruct (decide (b < 2 * a)%nat) as [|Hle]; [done|].
    exfalso. apply Habove.
    assert (Hq : (q <= 1 # 2)%Q).
    { apply (Qmult_le_r _ _ (Qnat b)); [done|]. rewrite HqB.
      assert (H2 : (2 * Qnat a <= Qnat b)%Q).
      { unfold Qnat. change 2%Q with (inject_Z 2).
        rewrite <- inject_Z_mult, <- Zle_Qle. lia. }
      lra. }
    assert (Hf : (fl q <= 1 # 2)%Q).
    { apply fl_le; [|done]. exists 1, (-1). split; [done|]. reflexivity. }
    apply fl_le; [apply (representable_const 50); done|]. Qconst. lra.
  - intros Hmore.
    assert (Hq : ((1 # 2) + (1 # 2 ^ 53) <= q)%Q).
    { apply (Qmult_le_r _ _ (Qnat b)); [done|]. rewrite HqB.
      assert (H2 : (Qnat b + 1 <= 2 * Qnat a)%Q).
      { unfold Qnat. change 2%Q with (inject_Z 2). change 1%Q with (inject_Z 1).
        rewrite <- inject_Z_mult, <- inject_Z_plus, <- Zle_Qle. lia. }
      assert (H3 : (Qnat b <= 4503599627370496)%Q).
      { unfold Qnat. change 4503599627370496%Q with (inject_Z (2 ^ 52)).
        by rewrite <- Zle_Qle. }
      Qconst. lra. }
    assert (Hf : ((1 # 2) + (1 # 2 ^ 53) <= fl q)%Q).
    { apply fl_ge; [|done]. exists (2 ^ 52 + 1), (-53). split; [done|].
      reflexivity. }
    assert (Hr : (50 + (1 # 2 ^ 47) <= fl (fl q * inject_Z 100))%Q).
    { apply fl_ge.
      - exists (50 * 2 ^ 47 + 1), (-47). split; [done|]. reflexivity.
      - Qconst. change (2 ^ 47)%positive with 140737488355328%positive. lra. }
    apply Qlt_not_le. change (2 ^ 47)%positive with 140737488355328%positive in Hr.
    change (inject_Z 50) with 50%Q. lra.
Qed.

(** ** Numbers that are neither [NaN] nor an infinity *)

Lemma finite_of_Z n : finite (of_Z n).
Proof. by eexists. Qed.

Lemma finite_of_nat n : finite (of_nat n).
Proof. by eexists. Qed.

Lemma finite_add x y : finite x → finite y → finite (add x y).
Proof. intros [q ->] [r ->]. by eexists. Qed.

Lemma finite_sub x y : finite x → finite y → finite (sub x y).
Proof. intros [q ->] [r ->]. by eexists. Qed.

Lemma finite_mul x y : finite x → finite y → finite (mul x y).
Proof. intros [q ->] [r ->]. by eexists. Qed.

Lemma finite_Math_round x : finite x → finite (Math_round x).
Proof. intros [q ->]. by eexists. Qed.

(** A quotient is a number when the divisor is not 0. *)
Lemma finite_div x y :
  finite x → (∃ r, y = Fin r ∧ Qzero r = false) → finite (div x y).
Proof. intros [q ->] (r & -> & Hr). unfold div. rewrite Hr. by eexists. Qed.

Lemma finite_div_count x (n : nat) :
  finite x → (0 < n)%nat → finite (div x (of_nat n)).
Proof.
  intros Hx Hn. apply finite_div; [done|]. eexists. split; [done|].
  by apply Qzero_Qnat.
Qed.

Lemma finite_div_const x (n : Z) :
  finite x → n ≠ 0 → finite (div x (of_Z n)).
Proof.
  intros Hx Hn. apply finite_div; [done|]. eexists. split; [done|].
  unfold Qzero. apply not_true_is_false. intros H. apply Qeq_bool_iff in H.
  change 0%Q with (inject_Z 0) in H. rewrite inject_Z_injective in H. done.
Qed.

Lemma finite_round1 x : finite x → finite (round1 x).
Proof.
  intros Hx. unfold round1.
  apply finite_div_const; [|done].
  by apply finite_Math_round, finite_mul; [|apply finite_of_Z].
Qed.

Lemma finite_round2 x : finite x → finite (round2 x).
Proof.
  intros Hx. unfold round2.
  apply finite_div_const; [|done].
  by apply finite_Math_round, finite_mul; [|apply finite_of_Z].
Qed.

(** Without the test of the divisor a rate is not a number: [0 / 0] is
    [NaN] and [1 / 0] is an infinity. *)
Example division_by_zero :
  div (of_nat 0) (of_nat 0) = NaN ∧ div (of_nat 1) (of_nat 0) = Infinity false
  ∧ round1 (mul (div (of_nat 0) (of_nat 0)) (of_Z 100)) = NaN.
Proof. split_and!; reflexivity. Qed.

(** One decimal of a number that is not negative is not negative. *)
Lemma round1_nonneg (x : Q) :
  (0 <= x)%Q → ∃ y : Q, round1 (Fin x) = Fin y ∧ (0 <= y)%Q.
Proof.
  intros Hx. rewrite round1_Fin. eexists. split; [done|].
  assert (H10 : (0 <= fl (x * inject_Z 10))%Q).
  { apply fl_ge; [apply representable_0|]. Qlit. lra. }
  assert (Hk : 0 <= Qfloor (fl (x * inject_Z 10) + (1 # 2))).
  { rewrite <- (Qfloor_Z 0). apply Qfloor_resp_le. Qlit. lra. }
  rewrite Zle_Qle in Hk.
  apply fl_ge; [apply representable_0|]. Qconst. lra.
Qed.

(** One decimal of a whole number is that number. *)
Lemma rounded1_whole (x : Q) (n : Z) (y : number) :
  (x == inject_Z n)%Q → rounded1 x y →
  y = Fin (fl (inject_Z (10 * n) / 10)).
Proof.
  intros Hx (k & -> & Hnear). rewrite Hx in Hnear.
  apply Qabs_Qle_condition in Hnear.
  assert (H1 : (inject_Z k < inject_Z (10 * n + 1))%Q).
  { rewrite inject_Z_plus, inject_Z_mult. Qconst. lra. }
  assert (H2 : (inject_Z (10 * n - 1) < inject_Z k)%Q).
  { unfold Z.sub. rewrite inject_Z_plus, inject_Z_mult, inject_Z_opp. Qconst. lra. }
  rewrite <- Zlt_Qlt in H1, H2. by replace k with (10 * n) by lia.
Qed.

(** ** Whole percentages and the satisfaction score *)

(** Two parts of one whole. *)
Lemma ratio_sum (h s t : nat) :
  (h + s ≤ t)%nat → (0 < t)%nat →
  (Qnat h / Qnat t + Qnat s / Qnat t <= 1)%Q.
Proof.
  intros Hsum Ht. pose proof (Qnat_pos t Ht) as Hpos.
  assert (E : (Qnat h / Qnat t + Qnat s / Qnat t
               == (Qnat h + Qnat s) / Qnat t)%Q) by (field; lra).
  rewrite E. apply Qle_shift_div_r; [done|].
  unfold Qnat. rewrite <- inject_Z_plus, Qmult_1_l, <- Zle_Qle. lia.
Qed.

(** [Math.round((count / total) * 100)] for a part of a whole: a whole
    number between 0 and 100, within a little more than one half of the
    percentage. *)
Lemma round_percent (c t : nat) :
  (c ≤ t)%nat → (0 < t)%nat →
  ∃ n : Z,
    Math_round (mul (div (of_nat c) (of_nat t)) (of_Z 100)) = of_Z n
    ∧ 0 <= n <= 100
    ∧ (Qabs (inject_Z n - 100 * (Qnat c / Qnat t))
       <= (1 # 2) + 200 * (1 # 2 ^ 53))%Q.
Proof.
  intros Hct Ht. rewrite div_counts by done.
  pose proof (ratio_range c t Hct Ht) as Hq.
  destruct (ratio64 c t Hct Ht) as [Hf Hfq]. cbv zeta in Hf, Hfq.
  set (q := (Qnat c / Qnat t)%Q) in *.
  destruct (percent_chain q (fl q) Hq Hf Hfq) as (Hr & Hr' & _ & _).
  cbv zeta in Hr, Hr'.
  cbn [mul of_Z Math_round]. Qlit.
  set (r := fl (fl q * 100)) in *.
  exists (Qfloor (r + (1 # 2))). split; [done|].
  split; [apply round_range; Qlit; lra|].
  destruct (round_near r) as [Hk1 Hk2]. cbv zeta in Hk1, Hk2.
  apply Qabs_Qle_condition. lra.
Qed.

(** The satisfaction score of [h] happy and [s] sad answers among [t]. *)
Lemma round_balance (h s t : nat) :
  (h + s ≤ t)%nat → (0 < t)%nat →
  ∃ n : Z,
    Math_round (mul (sub (div (of_nat h) (of_nat t)) (div (of_nat s) (of_nat t)))
                    (of_Z 100)) = of_Z n
    ∧ -100 <= n <= 100
    ∧ (Qabs (inject_Z n - 100 * (Qnat h / Qnat t - Qnat s / Qnat t))
       <= (1 # 2) + 400 * (1 # 2 ^ 53))%Q
    ∧ (Z.of_nat t < 2 ^ 32 →
       - Z.of_nat t
       <= 2 * n * Z.of_nat t - 2 * (100 * (Z.of_nat h - Z.of_nat s))
       <= Z.of_nat t).
Proof.
  intros Hsum Ht. rewrite !div_counts by done.
  pose proof (ratio_range h t ltac:(lia) Ht) as Hqh.
  pose proof (ratio_range s t ltac:(lia) Ht) as Hqs.
  pose proof (ratio_sum h s t Hsum Ht) as Hqsum.
  destruct (ratio64 h t ltac:(lia) Ht) as [Hfh Hfqh].
  destruct (ratio64 s t ltac:(lia) Ht) as [Hfs Hfqs].
  cbv zeta in *.
  set (qh := (Qnat h / Qnat t)%Q) in *. set (qs := (Qnat s / Qnat t)%Q) in *.
  cbn [sub mul of_Z Math_round]. Qlit.
  set (fh := fl qh) in *. set (fs := fl qs) in *.
  assert (Hd : (-1 <= fl (fh - fs) <= 1)%Q).
  { apply fl_range; [apply representable_m1|apply representable_1|]. lra. }
  assert (Hd' : (fh - fs - 1 * (1 # 2 ^ 53) <= fl (fh - fs)
                 <= fh - fs + 1 * (1 # 2 ^ 53))%Q).
  { apply fl_near. apply Qabs_Qle_condition. lra. }
  set (d := fl (fh - fs)) in *.
  assert (Hx : (-100 <= fl (d * 100) <= 100)%Q).
  { apply fl_range; [apply representable_m100|apply representable_100|]. lra. }
  assert (Hx' : (d * 100 - 100 * (1 # 9007199254740992) <= fl (d * 100)
                 <= d * 100 + 100 * (1 # 9007199254740992))%Q).
  { pose proof (fl_near (d * 100) 100) as Hn. Qlit. apply Hn.
    apply Qabs_Qle_condition. lra. }
  set (x := fl (d * 100)) in *.
  destruct (round_near x) as [Hk1 Hk2]. cbv zeta in Hk1, Hk2.
  exists (Qfloor (x + (1 # 2))). split; [done|].
  split; [apply round_range; Qlit; lra|]. Qlit.
  assert (Hxq : (100 * (qh - qs) - 400 * (1 # 9007199254740992) <= x
                 <= 100 * (qh - qs) + 400 * (1 # 9007199254740992))%Q)
    by lra.
  split.
  - apply Qabs_Qle_condition. lra.
  - intros Hsmall.
    apply (nearest_integer_Z _ _ _ x (400 * (1 # 9007199254740992))); [lia| | |].
    + split; lra.
    + assert (E : (inject_Z (100 * (Z.of_nat h - Z.of_nat s))
                   / inject_Z (Z.of_nat t) == 100 * (qh - qs))%Q).
      { unfold qh, qs, Qnat, Z.sub.
        rewrite inject_Z_mult, inject_Z_plus, inject_Z_opp.
        change (inject_Z 100) with 100%Q. field.
        pose proof (Qnat_pos t Ht). unfold Qnat in *. lra. }
      rewrite E. exact Hxq.
    + assert (Hb32 : (inject_Z (Z.of_nat t) <= 4294967296)%Q).
      { change 4294967296%Q with (inject_Z (2 ^ 32)). rewrite <- Zle_Qle. lia. }
      lra.
Qed.

End Rates.

(** * Properties of the quota enforcer *)

Module QuotaProofs.
Import RateLimit.

(** ** Likes *)

(** What [likes[postId] ?? 0] answers, from the stored count. *)
Lemma getLikesGiven_ordinary s p :
  ordinary p → getLikesGiven s p = Some (stored_likes s p).
Proof.
  unfold ordinary, getLikesGiven, stored_likes. intros ->.
  by destruct (getJSON (sg_likes s) ∅ !! p).
Qed.

Lemma getLikesGiven_Some s p n :
  getLikesGiven s p = Some n → n = stored_likes s p.
Proof.
  unfold getLikesGiven, stored_likes.
  destruct (getJSON (sg_likes s) ∅ !! p); [by intros [= <-]|].
  destruct (JS.inherited p); [done|by intros [= <-]].
Qed.

Lemma canLikePost_spec s p :
  canLikePost s p = true
  ↔ ∃ given, getLikesGiven s p = Some given ∧ given < LIKE_LIMIT_PER_POST.
Proof.
  unfold canLikePost. destruct (getLikesGiven s p) as [n|].
  - rewrite bool_decide_eq_true. naive_solver.
  - naive_solver.
Qed.

Lemma recordLike_rejected s p :
  canLikePost s p = false → recordLike s p = (s, false).
Proof. intros Hcan. unfold recordLike. by rewrite Hcan. Qed.

Lemma recordLike_accepted s p given :
  getLikesGiven s p = Some given → given < LIKE_LIMIT_PER_POST →
  recordLike s p
  = ({| sg_likes := Some (<[p := given + 1]> (getJSON (sg_likes s) ∅));
        sg_post_times := sg_post_times s;
        sg_last_fetch := sg_last_fetch s |}, true).
Proof.
  intros Hgiven Hlt. unfold recordLike, canLikePost. rewrite Hgiven.
  by rewrite bool_decide_eq_true_2.
Qed.

Lemma recordLike_cases s p :
  (canLikePost s p = false ∧ recordLike s p = (s, false))
  ∨ (∃ given, getLikesGiven s p = Some given ∧ given < LIKE_LIMIT_PER_POST
        ∧ canLikePost s p = true
        ∧ recordLike s p
          = ({| sg_likes := Some (<[p := given + 1]> (getJSON (sg_likes s) ∅));
                sg_post_times := sg_post_times s;
                sg_last_fetch := sg_last_fetch s |}, true)).
Proof.
  destruct (canLikePost s p) eqn:Hcan.
  - right. pose proof Hcan as (given & Hgiven & Hlt)%canLikePost_spec.
    exists given. split_and!; [done..|]. by apply recordLike_accepted.
  - left. split; [done|]. by apply recordLike_rejected.
Qed.

Lemma getLikesGiven_accepted s p given :
  getLikesGiven s p = Some given → given < LIKE_LIMIT_PER_POST →
  (recordLike s p).2 = true
  ∧ getLikesGiven (recordLike s p).1 p = Some (given + 1).
Proof.
  intros Hgiven Hlt. rewrite (recordLike_accepted s p given) by done.
  split; [done|]. unfold getLikesGiven. simpl. by rewrite lookup_insert_eq.
Qed.

Lemma recordLike_other s p q :
  p ≠ q → getLikesGiven (recordLike s p).1 q = getLikesGiven s q.
Proof.
  intros Hne.
  destruct (recordLike_cases s p) as [[_ ->]|(given & _ & _ & _ & ->)]; [done|].
  unfold getLikesGiven. simpl. by rewrite lookup_insert_ne.
Qed.

Lemma recordLike_post_times s p :
  sg_post_times (recordLike s p).1 = sg_post_times s.
Proof.
  by destruct (recordLike_cases s p) as [[_ ->]|(given & _ & _ & _ & ->)].
Qed.

Lemma recordLike_last_fetch s p :
  sg_last_fetch (recordLike s p).1 = sg_last_fetch s.
Proof.
  by destruct (recordLike_cases s p) as [[_ ->]|(given & _ & _ & _ & ->)].
Qed.

(** The stored count of a post after a [recordLike]. *)
Lemma stored_likes_recordLike s p q :
  stored_likes (recordLike s p).1 q
  = if decide (p = q ∧ canLikePost s p = true)
    then stored_likes s q + 1 else stored_likes s q.
Proof.
  destruct (recordLike_cases s p)
    as [[Hcan ->]|(given & Hgiven & Hlt & Hcan & ->)].
  - rewrite decide_False; [done|]. intros [_ ?]. congruence.
  - apply getLikesGiven_Some in Hgiven as ->.
    unfold stored_likes at 1. cbn [sg_likes getJSON fst].
    destruct (decide (p = q)) as [<-|Hne].
    + rewrite decide_True by done. by rewrite lookup_insert_eq.
    + rewrite decide_False by tauto. by rewrite lookup_insert_ne.
Qed.

(** On a member of [Object.prototype] that the stored object does not
    shadow, every like is refused and the number of likes left is [NaN]. *)
Lemma recordLike_inherited s p :
  JS.inherited p = true → getJSON (sg_likes s) ∅ !! p = None →
  getLikesGiven s p = None ∧ remainingLikes s p = None
  ∧ canLikePost s p = false ∧ recordLike s p = (s, false).
Proof.
  intros Hp Hown.
  assert (Hgiven : getLikesGiven s p = None).
  { unfold getLikesGiven. by rewrite Hown, Hp. }
  assert (Hcan : canLikePost s p = false).
  { unfold canLikePost. by rewrite Hgiven. }
  split_and!; [done| |done|by apply recordLike_rejected].
  unfold remainingLikes. by rewrite Hgiven.
Qed.

Lemma run_likes_snoc s attempts p :
  run_likes s (attempts ++ [p]) = (recordLike (run_likes s attempts) p).1.
Proof. unfold run_likes. by rewrite foldl_app. Qed.

(** On a device that never liked anything, the stored count of a post with an
    ordinary identifier is the number of attempts on it, capped at the
    ceiling. *)
Lemma stored_likes_run_likes attempts p :
  ordinary p →
  stored_likes (run_likes empty_store attempts) p
  = Z.min LIKE_LIMIT_PER_POST (Z.of_nat (length (filter (λ q, q = p) attempts))).
Proof.
  intros Hp.
  induction attempts as [|q attempts IH] using rev_ind; [done|].
  rewrite run_likes_snoc, filter_app, length_app, filter_cons, filter_nil.
  rewrite stored_likes_recordLike.
  destruct (decide (q = p)) as [->|Hne]; simpl.
  - unfold canLikePost. rewrite (getLikesGiven_ordinary _ _ Hp).
    unfold LIKE_LIMIT_PER_POST in *.
    case_bool_decide.
    + rewrite decide_True by done. lia.
    + rewrite decide_False by (intros [_ ?]; done). lia.
  - rewrite decide_False by tauto. rewrite IH. f_equal. lia.
Qed.

(** C6. For a post whose identifier names no member of [Object.prototype],
    as the identifiers of the posts table do, and after every sequence of
    like attempts on a device, whatever its store held before:
    [getLikesGiven] is a count and [remainingLikes] is [max 0 (5 - given)]; a
    [recordLike] at or beyond the ceiling fails and leaves the store as it
    is; a [recordLike] below the ceiling succeeds and adds exactly one to the
    counter of that post.  On a device that starts with an empty store the
    likes left for the post are 5 less the number of attempts on it, not
    below 0. *)
Theorem like_quota (s : Store) (attempts : list string) (p : string) :
  ordinary p →
  let s' := run_likes s attempts in
  ∃ given : Z,
    getLikesGiven s' p = Some given
    ∧ remainingLikes s' p = Some (Z.max 0 (5 - given))
    ∧ (if bool_decide (5 <= given)
       then recordLike s' p = (s', false)
       else (recordLike s' p).2 = true
            ∧ getLikesGiven (recordLike s' p).1 p = Some (given + 1))
    ∧ remainingLikes (run_likes empty_store attempts) p
      = Some (Z.max 0 (5 - Z.of_nat (length (filter (λ q, q = p) attempts)))).
Proof.
  intros Hp s'. exists (stored_likes s' p).
  pose proof (getLikesGiven_ordinary s' p Hp) as Hgiven.
  split_and!.
  - done.
  - unfold remainingLikes. by rewrite Hgiven.
  - case_bool_decide as Hc.
    + apply recordLike_rejected. unfold canLikePost. rewrite Hgiven.
      apply bool_decide_eq_false_2. unfold LIKE_LIMIT_PER_POST. lia.
    + apply getLikesGiven_accepted; [done|]. unfold LIKE_LIMIT_PER_POST. lia.
  - unfold remainingLikes. rewrite (getLikesGiven_ordinary _ _ Hp).
    rewrite stored_likes_run_likes by done.
    unfold LIKE_LIMIT_PER_POST. f_equal. lia.
Qed.

Lemma like_quota_witness :
  let s' := run_likes empty_store ["a"; "b"; "a"] in
  getLikesGiven s' "a" = Some 2
  ∧ remainingLikes s' "a" = Some 3
  ∧ (recordLike s' "a").2 = true
  ∧ getLikesGiven (recordLike s' "a").1 "a" = Some 3.
Proof.
  intros s'.
  destruct (like_quota empty_store ["a"; "b"; "a"] "a" eq_refl)
    as (given & Hgiven & Hleft & Hrecord & _).
  assert (Htwo : given = 2).
  { assert (Hs : getLikesGiven s' "a" = Some 2) by (vm_compute; reflexivity).
    fold s' in Hgiven. congruence. }
  subst given. fold s' in Hgiven, Hleft, Hrecord.
  rewrite bool_decide_eq_false_2 in Hrecord by lia.
  destruct Hrecord as [Hok Hnext].
  split_and!; [exact Hgiven|exact Hleft|exact Hok|exact Hnext].
Defined.

(** C10. [recordLike p], accepted or rejected, changes neither the counter of
    another post nor the post timestamps nor the last-fetch timestamp: a
    counter that differs afterwards is the one of [p]. *)
Theorem recordLike_frame (s : Store) (p p' : string) :
  p ≠ p' →
  let s' := (recordLike s p).1 in
  getLikesGiven s' p' = getLikesGiven s p'
  ∧ sg_post_times s' = sg_post_times s
  ∧ sg_last_fetch s' = sg_last_fetch s
  ∧ (∀ q, getLikesGiven s' q ≠ getLikesGiven s q → q = p).
Proof.
  intros Hne s'. subst s'. split_and!.
  - by apply recordLike_other.
  - apply recordLike_post_times.
  - apply recordLike_last_fetch.
  - intros q Hq. destruct (decide (p = q)) as [|Hpq]; [done|].
    by rewrite recordLike_other in Hq.
Qed.

Lemma recordLike_frame_witness :
  let s := run_likes empty_store ["a"; "b"; "a"] in
  let s' := (recordLike s "a").1 in
  "a" ≠ "b"
  ∧ getLikesGiven s' "b" = getLikesGiven s "b"
  ∧ sg_post_times s' = sg_post_times s
  ∧ sg_last_fetch s' = sg_last_fetch s
  ∧ (∀ q, getLikesGiven s' q ≠ getLikesGiven s q → q = "a").
Proof.
  intros s s'.
  split; [discriminate|].
  apply (recordLike_frame s "a" "b"). discriminate.
Defined.

(** ** Fetch throttle *)

(** C9. [canFetch] answers true exactly when [now - lastFetch >= 3000] ms,
    with [lastFetch] read as 0 when the key is absent; right after
    [recordFetch] at [t] it answers false, and at a later reading [t'] it
    answers true exactly when at least 3000 ms have passed since [t];
    [recordFetch] overwrites the one timestamp whatever it was and touches
    nothing else. *)
Theorem fetch_cooldown (s : Store) (now t t' : Z) :
  (canFetch s now = true ↔ now - default 0 (sg_last_fetch s) >= 3 * 1000)
  ∧ canFetch (recordFetch s t) t = false
  ∧ (canFetch (recordFetch s t) t' = true ↔ t' - t >= 3 * 1000)
  ∧ recordFetch s t = {| sg_likes := sg_likes s;
                         sg_post_times := sg_post_times s;
                         sg_last_fetch := Some t |}.
Proof.
  unfold canFetch, recordFetch, FETCH_COOLDOWN_MS. simpl.
  split_and!.
  - rewrite bool_decide_eq_true. by destruct (sg_last_fetch s).
  - apply bool_decide_eq_false. lia.
  - by rewrite bool_decide_eq_true.
  - done.
Qed.

(** ** Posts *)

Lemma recent_elem s now t :
  t ∈ getRecentPostTimes s now ↔ t ∈ stored_times s ∧ now - t < POST_WINDOW_MS.
Proof. unfold getRecentPostTimes, stored_times. rewrite list_elem_of_filter. tauto. Qed.

Lemma Math_min_elem x xs : Math_min x xs ∈ x :: xs.
Proof.
  unfold Math_min. induction xs as [|y ys IH]; simpl; [left|].
  destruct (Z.min_spec y (foldr Z.min x ys)) as [[_ ->]|[_ ->]].
  - right. left.
  - apply elem_of_cons in IH as [->|IH]; [left|by do 2 right].
Qed.

Lemma Math_min_le x xs t : t ∈ x :: xs → Math_min x xs <= t.
Proof.
  unfold Math_min. induction xs as [|y ys IH]; simpl.
  - intros ->%list_elem_of_singleton. lia.
  - rewrite !elem_of_cons. intros [->|[->|Hin]].
    + etrans; [apply Z.le_min_r|]. apply IH. set_solver.
    + apply Z.le_min_l.
    + etrans; [apply Z.le_min_r|]. apply IH. set_solver.
Qed.

Lemma ceil_seconds_div ms : ceil_seconds ms = - ((- ms) / 1000).
Proof.
  unfold ceil_seconds, Qceiling, Qfloor. simpl.
  by rewrite Z.mul_1_r.
Qed.

(** [ceil_seconds ms] is the least number of whole seconds that covers [ms]. *)
Lemma ceil_seconds_spec ms :
  1000 * (ceil_seconds ms - 1) < ms <= 1000 * ceil_seconds ms.
Proof.
  rewrite ceil_seconds_div.
  pose proof (Z.div_mod (- ms) 1000 ltac:(lia)).
  pose proof (Z.mod_pos_bound (- ms) 1000 ltac:(lia)). lia.
Qed.

Lemma canPost_allowed s now now' :
  allowed (canPost s now now') = true
  ↔ (length (getRecentPostTimes s now) < POST_LIMIT)%nat.
Proof.
  unfold canPost. case_bool_decide as Hlen; simpl; [done|].
  destruct (getRecentPostTimes s now); simpl in *; [|split; [done|lia]].
  unfold POST_LIMIT in Hlen. lia.
Qed.

Lemma canPost_open s now now' :
  (length (getRecentPostTimes s now) < POST_LIMIT)%nat →
  canPost s now now' = {| allowed := true; waitSeconds := 0 |}.
Proof. intros Hlen. unfold canPost. by rewrite bool_decide_eq_true_2. Qed.

Lemma canPost_closed s now now' :
  (POST_LIMIT ≤ length (getRecentPostTimes s now))%nat →
  ∃ oldest,
    oldest ∈ getRecentPostTimes s now
    ∧ (∀ t, t ∈ getRecentPostTimes s now → oldest <= t)
    ∧ canPost s now now'
      = {| allowed := false;
           waitSeconds := Qceiling (inject_Z (POST_WINDOW_MS - (now' - oldest)) / 1000) |}.
Proof.
  intros Hlen. unfold canPost. rewrite bool_decide_eq_false_2 by lia.
  destruct (getRecentPostTimes s now) as [|t ts] eqn:Hrecent.
  { unfold POST_LIMIT in Hlen. simpl in Hlen. lia. }
  exists (Math_min t ts). split_and!; [apply Math_min_elem| |done].
  intros t'. apply Math_min_le.
Qed.

(** C5, as stated, fails at the edge of the window: a timestamp that is
    exactly ten minutes old is not older than [now - 10 min], and
    [getRecentPostTimes] discards it all the same. *)
Lemma prune_edge_counterexample :
  ¬ (∀ (s : Store) (now t : Z),
       t ∈ stored_times s →
       (t ∉ getRecentPostTimes s now ↔ t < now - POST_WINDOW_MS)).
Proof.
  intros H.
  pose (s := {| sg_likes := None; sg_post_times := Some [0]; sg_last_fetch := None |}).
  destruct (H s 600000 0) as [Hold _]; [left|].
  assert (Hgone : 0 ∉ getRecentPostTimes s 600000).
  { rewrite recent_elem. unfold POST_WINDOW_MS. lia. }
  apply Hold in Hgone. unfold POST_WINDOW_MS in Hgone. lia.
Qed.

(** C5, amended. [canPost] keeps exactly the stored timestamps that are less
    than ten minutes old at its first clock reading [now], in their order, so
    it discards exactly those with [t <= now - 10 min] and none that is still
    inside the window; with fewer than 3 survivors it answers allowed and a
    wait of 0, otherwise not allowed and the wait
    [10 min - (now' - oldest survivor)] in seconds, rounded upwards. *)
Theorem canPost_spec (s : Store) (now now' : Z) :
  let recent := getRecentPostTimes s now in
  recent `sublist_of` stored_times s
  ∧ (∀ t, t ∈ stored_times s → (t ∉ recent ↔ t <= now - 10 * 60 * 1000))
  ∧ (∀ t, t ∈ stored_times s → now - t < 10 * 60 * 1000 → t ∈ recent)
  ∧ (if bool_decide (length recent < 3)%nat
     then canPost s now now' = {| allowed := true; waitSeconds := 0 |}
     else ∃ oldest,
            oldest ∈ recent
            ∧ (∀ t, t ∈ recent → oldest <= t)
            ∧ canPost s now now'
              = {| allowed := false;
                   waitSeconds :=
                     Qceiling (inject_Z (10 * 60 * 1000 - (now' - oldest)) / 1000) |}).
Proof.
  intros recent. subst recent. split_and!.
  - apply sublist_filter.
  - intros t Hin. rewrite recent_elem. unfold POST_WINDOW_MS. split.
    + intros Hout. destruct (Z_le_gt_dec t (now - 10 * 60 * 1000)); [done|].
      exfalso. apply Hout. split; [done|lia].
    + intros Hle [_ Hlt]. lia.
  - intros t Hin Hlt. apply recent_elem. done.
  - case_bool_decide as Hlen.
    + by apply canPost_open.
    + apply canPost_closed. unfold POST_LIMIT. lia.
Qed.

(** *** Runs of [canPost] and [recordPost] *)

Lemma recent_filter_mono (l : list Z) (n n' : Z) :
  n <= n' →
  filter (λ t, n' - t < POST_WINDOW_MS) (filter (λ t, n - t < POST_WINDOW_MS) l)
  = filter (λ t, n' - t < POST_WINDOW_MS) l.
Proof. intros Hle. apply list_filter_filter_l. intros t. lia. Qed.

Lemma recent_length_mono (l : list Z) (n n' : Z) :
  n <= n' →
  (length (filter (λ t, (n' - t < POST_WINDOW_MS)%Z) l)
   ≤ length (filter (λ t, (n - t < POST_WINDOW_MS)%Z) l))%nat.
Proof. intros Hle. rewrite <- (recent_filter_mono l n n' Hle). apply length_filter. Qed.

Lemma in_window_snoc a l t :
  in_window a (l ++ [t])
  = (in_window a l + if decide (a <= t < a + POST_WINDOW_MS)%Z then 1 else 0)%nat.
Proof.
  unfold in_window. rewrite filter_app, length_app, filter_cons, filter_nil.
  by case_decide.
Qed.

(** The timestamps of [l] in a window that contains [n] are less than ten
    minutes old at [n]. *)
Lemma in_window_recent a l n :
  a <= n < a + POST_WINDOW_MS →
  (in_window a l ≤ length (filter (λ t, (n - t < POST_WINDOW_MS)%Z) l))%nat.
Proof.
  intros Hn. unfold in_window.
  rewrite <- (list_filter_filter_l (λ t, a <= t < a + POST_WINDOW_MS)
                (λ t, n - t < POST_WINDOW_MS) l) by (intros t; lia).
  apply length_filter.
Qed.

Lemma run_inv_canPost s h clk permit now now' :
  clk <= now → now <= now' →
  run_inv s h clk permit →
  run_inv s h now' (allowed (canPost s now now')).
Proof.
  intros Hclk Hnow [Hrec Hwin Hlen Hper]. split; [|done|done|].
  - intros n Hn. apply Hrec. lia.
  - intros Hal%canPost_allowed. unfold getRecentPostTimes in *.
    eapply Nat.le_lt_trans; [apply (recent_length_mono _ now now' Hnow)|].
    exact Hal.
Qed.

Lemma run_inv_recordPost s h clk now now' :
  clk <= now → now <= now' →
  run_inv s h clk true →
  run_inv (recordPost s now now') (h ++ [now']) now' false.
Proof.
  intros Hclk Hnow [Hrec Hwin Hlen Hper].
  assert (Hfew : ∀ n, clk <= n →
            (length (filter (λ t, (n - t < POST_WINDOW_MS)%Z) (stored_times s)) < 3)%nat).
  { intros n Hn. eapply Nat.le_lt_trans; [apply (recent_length_mono _ clk n Hn)|].
    by apply Hper. }
  unfold POST_LIMIT in *. split; [| | |done]; unfold POST_LIMIT.
  - intros n Hn. unfold recordPost, stored_times; simpl.
    unfold getRecentPostTimes. rewrite !filter_app.
    rewrite recent_filter_mono by lia.
    f_equal. apply Hrec. lia.
  - intros a. rewrite in_window_snoc. case_decide as Hin.
    + pose proof (in_window_recent a h now' Hin) as Hle.
      rewrite <- Hrec in Hle by lia.
      specialize (Hfew now' ltac:(lia)). lia.
    + specialize (Hwin a). lia.
  - unfold recordPost, stored_times; simpl. rewrite length_app; simpl.
    specialize (Hfew now Hclk). unfold getRecentPostTimes, stored_times in *. lia.
Qed.

Lemma run_inv_run ops : ∀ s h clk permit,
  run_inv s h clk permit →
  clock_monotone clk ops →
  checked s permit ops →
  ∃ clk' permit', run_inv (run_posts s ops) (h ++ recorded ops) clk' permit'.
Proof.
  induction ops as [|[now now'|now now'] ops IH]; intros s h clk permit Hinv Hmono Hchk.
  - exists clk, permit. simpl. by rewrite app_nil_r.
  - destruct Hmono as (Hclk & Hnow & Hmono). simpl in Hchk.
    apply (IH s h now' (allowed (canPost s now now'))); [|done|done].
    by apply (run_inv_canPost s h clk permit).
  - destruct Hmono as (Hclk & Hnow & Hmono). destruct Hchk as [-> Hchk].
    simpl. rewrite cons_middle, app_assoc.
    apply (IH (recordPost s now now') (h ++ [now']) now' false); [|done|done].
    by apply (run_inv_recordPost s h clk).
Qed.

(** C1, as stated, fails: [recordPost] does not look at the limit, so four
    unchecked calls within four milliseconds leave four timestamps of one
    window in the store. *)
Lemma unchecked_posts_counterexample :
  ¬ (∀ (ops : list post_op) (a : Z),
       clock_monotone 0 ops →
       (in_window a (stored_times (run_posts empty_store ops)) ≤ 3)%nat).
Proof.
  intros H.
  specialize (H [OpRecordPost 0 0; OpRecordPost 1 1; OpRecordPost 2 2; OpRecordPost 3 3] 0).
  assert (Hmono : clock_monotone 0
            [OpRecordPost 0 0; OpRecordPost 1 1; OpRecordPost 2 2; OpRecordPost 3 3]).
  { simpl. lia. }
  apply H in Hmono. vm_compute in Hmono. lia.
Qed.

(** C1, amended. On a device with no stored post timestamps, for every
    sequence of [canPost] and [recordPost] calls whose clock readings do not go
    backwards and in which every [recordPost] comes right after a [canPost]
    that answered allowed, no window of ten minutes holds more than 3 of the
    timestamps in the stored array, nor more than 3 of all the timestamps
    recorded during the run. *)
Theorem checked_posts_window (s : Store) (ops : list post_op) (clk a : Z) :
  stored_times s = [] →
  clock_monotone clk ops →
  checked s false ops →
  (in_window a (stored_times (run_posts s ops)) ≤ 3)%nat
  ∧ (in_window a (recorded ops) ≤ 3)%nat.
Proof.
  intros Hempty Hmono Hchk.
  assert (Hinv : run_inv s [] clk false).
  { split; [| | |done]; unfold POST_LIMIT.
    - intros n _. by rewrite Hempty.
    - intros a'. unfold in_window. simpl. lia.
    - rewrite Hempty. simpl. lia. }
  destruct (run_inv_run ops s [] clk false Hinv Hmono Hchk)
    as (clk' & permit' & [_ Hwin Hlen _]).
  unfold POST_LIMIT in *. split; [|apply Hwin].
  unfold in_window. etrans; [apply length_filter|done].
Qed.

Lemma checked_posts_window_witness :
  let ops := [OpCanPost 0 0; OpRecordPost 5 5; OpCanPost 6 6; OpRecordPost 7 8;
              OpCanPost 9 9; OpRecordPost 9 9; OpCanPost 10 10;
              OpCanPost 600005 600005; OpRecordPost 600006 600006] in
  stored_times empty_store = []
  ∧ clock_monotone 0 ops
  ∧ checked empty_store false ops
  ∧ (in_window 5 (stored_times (run_posts empty_store ops)) ≤ 3)%nat
  ∧ (in_window 5 (recorded ops) ≤ 3)%nat.
Proof.
  intros ops.
  assert (Hmono : clock_monotone 0 ops) by (simpl; lia).
  assert (Hchk : checked empty_store false ops) by (vm_compute; tauto).
  split; [reflexivity|]. split; [exact Hmono|]. split; [exact Hchk|].
  apply (checked_posts_window empty_store ops 0 5); [reflexivity|exact Hmono|exact Hchk].
Defined.

End QuotaProofs.

(** * Properties of the metrics aggregator *)

Module MetricsProofs.
Import Aggregator Claims Examples Rates.

(** ** Identities *)

Lemma truthy_id_Some e u :
  truthy_id e = Some u ↔ user_pseudo_id e = Some u ∧ u ≠ "".
Proof.
  unfold truthy_id. destruct (user_pseudo_id e) as [v|]; [|naive_solver].
  case_decide; naive_solver.
Qed.

Lemma elem_of_ids events u :
  u ∈ ids events ↔ u ≠ "" ∧ ∃ e, e ∈ events ∧ user_pseudo_id e = Some u.
Proof.
  unfold ids. rewrite list_elem_of_omap. setoid_rewrite truthy_id_Some.
  naive_solver.
Qed.

Lemma elem_of_ids_filter (P : RawEvent → Prop) `{!∀ e, Decision (P e)} events u :
  u ∈ ids (filter P events)
  ↔ u ≠ "" ∧ ∃ e, e ∈ events ∧ P e ∧ user_pseudo_id e = Some u.
Proof.
  rewrite elem_of_ids. setoid_rewrite list_elem_of_filter. naive_solver.
Qed.

Lemma elem_of_allUsers events u :
  u ∈ allUsers events ↔ u ≠ "" ∧ ∃ e, e ∈ events ∧ user_pseudo_id e = Some u.
Proof. unfold allUsers. rewrite elem_of_list_to_set. apply elem_of_ids. Qed.

Lemma elem_of_activatedUsers events u :
  u ∈ activatedUsers events
  ↔ u ≠ "" ∧ ∃ e, e ∈ events ∧ event_name e = "post_created"
                  ∧ user_pseudo_id e = Some u.
Proof.
  unfold activatedUsers. rewrite elem_of_list_to_set.
  apply (elem_of_ids_filter (named "post_created")).
Qed.

Lemma size_list_to_set_le (l : list string) :
  (size (list_to_set l : gset string) ≤ length l)%nat.
Proof.
  induction l as [|u l IH].
  { rewrite list_to_set_nil, size_empty. done. }
  rewrite list_to_set_cons, size_union_alt, size_singleton. cbn [length].
  assert ((size (list_to_set l ∖ {[u]} : gset string)
           ≤ size (list_to_set l : gset string))%nat)
    by (apply subseteq_size; set_solver).
  lia.
Qed.

Lemma length_ids events : (length (ids events) ≤ length events)%nat.
Proof.
  unfold ids. induction events as [|e events IH]; simpl; [done|].
  change (list_omap RawEvent string truthy_id events)
    with (omap truthy_id events).
  destruct (truthy_id e); simpl; lia.
Qed.

(** There are no more identities than events. *)
Lemma size_allUsers_le events : (size (allUsers events) ≤ length events)%nat.
Proof. etrans; [apply size_list_to_set_le|apply length_ids]. Qed.

Lemma size_users_le (P : RawEvent → Prop) `{!∀ e, Decision (P e)} events :
  (size (list_to_set (ids (filter P events)) : gset string) ≤ length events)%nat.
Proof.
  etrans; [apply size_list_to_set_le|]. etrans; [apply length_ids|].
  apply length_filter.
Qed.

(** ** The first loop and its [TypeError] *)

Lemma identities_ordinary_app events events' :
  identities_ordinary (events ++ events')
  ↔ identities_ordinary events ∧ identities_ordinary events'.
Proof.
  unfold identities_ordinary. setoid_rewrite elem_of_app. naive_solver.
Qed.

Lemma byUser_snoc events e :
  byUser (events ++ [e])
  = (m ← byUser events;
     match truthy_id e with
     | None => Some m
     | Some uid =>
         match m !! uid with
         | Some times => Some (<[uid := times ++ [created_at e]]> m)
         | None =>
             if JS.inherited uid then None
             else Some (<[uid := [created_at e]]> m)
         end
     end).
Proof. unfold byUser. by rewrite foldl_app. Qed.

Lemma grouped_snoc events e :
  grouped (events ++ [e])
  = match truthy_id e with
    | None => grouped events
    | Some uid =>
        <[uid := default [] (grouped events !! uid) ++ [created_at e]]> (grouped events)
    end.
Proof. unfold grouped. by rewrite foldl_app. Qed.

(** When no identity names a member of [Object.prototype], the loop stores
    the timestamps of each identity. *)
Lemma byUser_grouped events :
  identities_ordinary events → byUser events = Some (grouped events).
Proof.
  induction events as [|e events IH] using rev_ind; intros Hord; [done|].
  apply identities_ordinary_app in Hord as [Hprefix Hlast].
  rewrite byUser_snoc, grouped_snoc, (IH Hprefix). simpl.
  destruct (truthy_id e) as [uid|] eqn:Hid; [|done].
  destruct (grouped events !! uid) as [times|]; [done|].
  rewrite (Hlast e uid); [done|by left|done].
Qed.

(** The lookup of an identity that names a member of [Object.prototype] never
    finds an array. *)
Lemma byUser_inherited events stored u :
  byUser events = Some stored → JS.inherited u = true → stored !! u = None.
Proof.
  revert stored. induction events as [|e events IH] using rev_ind;
    intros stored Hstored Hu.
  { injection Hstored as <-. apply lookup_empty. }
  rewrite byUser_snoc in Hstored.
  destruct (byUser events) as [m|]; [|done]. simpl in Hstored.
  specialize (IH m eq_refl Hu).
  destruct (truthy_id e) as [uid|]; [|by injection Hstored as <-].
  destruct (m !! uid) as [times|] eqn:Hm.
  - injection Hstored as <-.
    rewrite lookup_insert_ne; [done|]. intros ->. congruence.
  - destruct (JS.inherited uid) eqn:Hinh; [done|]. injection Hstored as <-.
    rewrite lookup_insert_ne; [done|]. intros ->. congruence.
Qed.

(** With such an identity among the events the loop throws. *)
Lemma byUser_cases events :
  (identities_ordinary events ∧ byUser events = Some (grouped events))
  ∨ (¬ identities_ordinary events ∧ byUser events = None).
Proof.
  induction events as [|e events IH] using rev_ind.
  { left. split; [|done]. intros e u He. by apply elem_of_nil in He. }
  rewrite byUser_snoc. destruct IH as [[Hord Hm]|[Hnot Hm]]; cycle 1.
  { right. rewrite Hm. split; [|done].
    intros [Hprefix _]%identities_ordinary_app. by destruct Hnot. }
  rewrite Hm. simpl.
  destruct (truthy_id e) as [uid|] eqn:Hid; cycle 1.
  { left. split; [|by rewrite grouped_snoc, Hid].
    apply identities_ordinary_app. split; [done|].
    intros e' u ->%list_elem_of_singleton Hu. congruence. }
  destruct (JS.inherited uid) eqn:Hinh.
  - right. rewrite (byUser_inherited events _ uid Hm Hinh).
    split; [|done]. intros Hall.
    rewrite (Hall e uid) in Hinh; [done| |done].
    apply elem_of_app. right. by left.
  - assert (Hall : identities_ordinary (events ++ [e])).
    { apply identities_ordinary_app. split; [done|].
      intros e' u ->%list_elem_of_singleton Hu. congruence. }
    left. split; [done|]. rewrite grouped_snoc, Hid.
    by destruct (grouped events !! uid).
Qed.

Lemma byUser_throws events :
  ¬ identities_ordinary events → byUser events = None.
Proof. intros Hnot. by destruct (byUser_cases events) as [[? _]|[_ ?]]. Qed.

Lemma computeMetrics_ordinary now events feedback posts :
  identities_ordinary events →
  computeMetrics now events feedback posts
  = Some (metrics_of now events feedback posts).
Proof. intros Hord. unfold computeMetrics. by rewrite byUser_grouped. Qed.

(** [computeMetrics] throws a [TypeError] exactly when an event carries an
    identity that names a member of [Object.prototype]. *)
Lemma computeMetrics_throws now events feedback posts :
  computeMetrics now events feedback posts = None
  ↔ ¬ identities_ordinary events.
Proof.
  split.
  - intros Hnone Hord. by rewrite computeMetrics_ordinary in Hnone.
  - intros Hnot. unfold computeMetrics. by rewrite byUser_throws.
Qed.

Lemma computeMetrics_Some now events feedback posts m :
  computeMetrics now events feedback posts = Some m →
  identities_ordinary events ∧ m = metrics_of now events feedback posts.
Proof.
  intros Hm.
  destruct (byUser_cases events) as [[Hord _]|[Hnot _]].
  - rewrite computeMetrics_ordinary in Hm by done. by injection Hm as <-.
  - apply (computeMetrics_throws now events feedback posts) in Hnot.
    congruence.
Qed.

Lemma session_totals_ordinary events :
  identities_ordinary events →
  session_totals events = Some (sessionTotals (grouped events)).
Proof. intros Hord. unfold session_totals. by rewrite byUser_grouped. Qed.

(** One event of an identity named [constructor]: no snapshot. *)
Example computeMetrics_constructor :
  computeMetrics 0 [mkEvent "1" "first_visit" (Some "constructor") (Some 0)] [] []
  = None.
Proof. reflexivity. Qed.

(** ** Activation *)

Lemma activationRate_raw_percent events :
  activationRate_raw events
  = percent64 (size (activatedUsers events)) (size (allUsers events)).
Proof.
  unfold activationRate_raw, percent64.
  case_bool_decide; case_decide; (done || lia).
Qed.

Lemma activation_fields now events feedback posts :
  let m := metrics_of now events feedback posts in
  let pct := percent64 (size (activatedUsers events)) (size (allUsers events)) in
  activationRate m = round1 pct ∧ activationGoalMet m = JS.gt pct (JS.of_Z 50).
Proof. simpl. by rewrite activationRate_raw_percent. Qed.

(** More than 50 percent is more than half. *)
Lemma percent_above_half (part whole : nat) :
  (part ≤ whole)%nat →
  (50 < percent part whole)%Q ↔ (whole < 2 * part)%nat.
Proof.
  intros Hpart. unfold percent. case_decide as Hw.
  { subst. split; [|lia]. intros H. vm_compute in H. discriminate H. }
  assert (Hpos : (0 < Qnat whole)%Q) by (apply Qnat_pos; lia).
  rewrite <- (Qmult_lt_r _ _ (Qnat whole) Hpos).
  assert (Heq : (Qnat part / Qnat whole * 100 * Qnat whole == Qnat part * 100)%Q).
  { field. lra. }
  rewrite Heq. unfold Qnat.
  change 50%Q with (inject_Z 50). change 100%Q with (inject_Z 100).
  rewrite <- !inject_Z_mult, <- Zlt_Qlt. lia.
Qed.

Lemma activated_le events :
  (size (activatedUsers events) ≤ size (allUsers events))%nat.
Proof.
  apply subseteq_size. intros u.
  rewrite elem_of_activatedUsers, elem_of_allUsers. naive_solver.
Qed.

(** C4, amended.  For the events of an array in which no identity names a
    member of [Object.prototype], [computeMetrics] returns a snapshot.  Its
    activation rate is, rounded to one decimal in binary64 arithmetic, the
    percentage of the identities (non-null and not the empty string) that
    have a [post_created] event among all identities, 0 when there is none.
    The goal flag is set exactly when the percentage before rounding exceeds
    50, that is when more than half of the identities have such an event.
    With 10 identities of which 6 have one, the rate is 60.0 and the flag is
    set. *)
Theorem activation_spec (now : Z) (events : list RawEvent)
    (feedback : list RawFeedback) (posts : list RawPost) :
  identities_ordinary events → array events →
  ∃ (m : Metrics) (visitors activated : gset string),
    computeMetrics now events feedback posts = Some m
    ∧ (∀ u, u ∈ visitors ↔ u ≠ "" ∧ ∃ e, e ∈ events ∧ user_pseudo_id e = Some u)
    ∧ (∀ u, u ∈ activated
            ↔ u ≠ "" ∧ ∃ e, e ∈ events ∧ event_name e = "post_created"
                            ∧ user_pseudo_id e = Some u)
    ∧ uniqueVisits m = size visitors
    ∧ rounded1 (percent (size activated) (size visitors)) (activationRate m)
    ∧ (activationGoalMet m = true
       ↔ (50 < percent (size activated) (size visitors))%Q)
    ∧ (activationGoalMet m = true ↔ (size visitors < 2 * size activated)%nat)
    ∧ (size visitors = 10%nat → size activated = 6%nat →
       is_num (activationRate m) 60 ∧ activationGoalMet m = true).
Proof.
  intros Hord Harray.
  exists (metrics_of now events feedback posts), (allUsers events),
    (activatedUsers events).
  destruct (activation_fields now events feedback posts) as [Hrate Hflag].
  cbv zeta in Hrate, Hflag.
  pose proof (activated_le events) as Hsub.
  pose proof (size_allUsers_le events) as Hsize.
  unfold array in Harray.
  assert (Hgoal : activationGoalMet (metrics_of now events feedback posts) = true
            ↔ (size (allUsers events) < 2 * size (activatedUsers events))%nat).
  { rewrite Hflag. apply percent64_above_half; [done|lia]. }
  split_and!.
  - by apply computeMetrics_ordinary.
  - apply elem_of_allUsers.
  - apply elem_of_activatedUsers.
  - done.
  - rewrite Hrate. apply percent64_rounded1; [done|lia].
  - by rewrite Hgoal, percent_above_half.
  - done.
  - intros Hu Ha. split.
    + rewrite Hrate, Hu, Ha. eexists. split; [vm_compute; reflexivity|].
      reflexivity.
    + rewrite Hgoal. lia.
Qed.

(** *** A crowd in which just over half of the identities posted *)

Lemma uid_inj : Inj (=) (=) uid.
Proof. intros n n' H. unfold uid in H. simpl in H. injection H as H. by apply (inj pretty). Qed.

(** The identities of a crowd name no member of [Object.prototype]: none of
    these begins with the letter u. *)
Lemma uid_ordinary n : JS.inherited (uid n) = false.
Proof.
  unfold JS.inherited. apply bool_decide_eq_false_2. unfold uid. simpl.
  intros Hin. unfold JS.Object_prototype in Hin.
  repeat (apply elem_of_cons in Hin as [Hin|Hin]; [discriminate Hin|]).
  by apply elem_of_nil in Hin.
Qed.

Lemma ids_event_of name t (l : list nat) : ids (event_of name t <$> l) = uid <$> l.
Proof. unfold ids. induction l as [|n l IH]; [done|]. csimpl. by rewrite IH. Qed.

Lemma filter_named_same name t (l : list nat) :
  filter (named name) (event_of name t <$> l) = event_of name t <$> l.
Proof.
  induction l as [|n l IH]; [done|]. rewrite fmap_cons.
  rewrite filter_cons_True by done. by rewrite IH.
Qed.

Lemma filter_named_other name name' t (l : list nat) :
  name' ≠ name → filter (named name) (event_of name' t <$> l) = [].
Proof.
  intros Hne. induction l as [|n l IH]; [done|]. rewrite fmap_cons.
  rewrite filter_cons_False by (unfold named; simpl; congruence). done.
Qed.

Lemma size_uids (l : list nat) :
  NoDup l → size (list_to_set (uid <$> l) : gset string) = length l.
Proof.
  intros Hl. rewrite size_list_to_set, length_fmap; [done|].
  apply NoDup_fmap_2; [apply uid_inj|done].
Qed.

Lemma crowd_sizes (posters lurkers : nat) :
  size (allUsers (crowd posters lurkers)) = (posters + lurkers)%nat
  ∧ size (activatedUsers (crowd posters lurkers)) = posters.
Proof.
  unfold allUsers, activatedUsers, crowd. split.
  - unfold ids. rewrite omap_app. fold (ids (event_of "post_created" 0 <$> seq 0 posters)).
    fold (ids (event_of "session_start" 0 <$> seq posters lurkers)).
    rewrite !ids_event_of, <- fmap_app, <- seq_app, size_uids, length_seq; [done|].
    apply NoDup_seq.
  - rewrite filter_app, filter_named_same, filter_named_other by done.
    rewrite app_nil_r, ids_event_of, size_uids, length_seq; [done|].
    apply NoDup_seq.
Qed.

Lemma crowd_ordinary (posters lurkers : nat) :
  identities_ordinary (crowd posters lurkers).
Proof.
  intros e u He Hu. unfold crowd in He.
  apply elem_of_app in He as [He|He];
    apply list_elem_of_fmap in He as (n & -> & _);
    injection Hu as <-; apply uid_ordinary.
Qed.

Lemma crowd_array (posters lurkers : nat) :
  Z.of_nat (posters + lurkers) < 2 ^ 32 → array (crowd posters lurkers).
Proof.
  intros Hsmall. unfold array, crowd.
  by rewrite length_app, !length_fmap, !length_seq.
Qed.

(** Ten identities of which six posted: 60.0, and the goal is met. *)
Example activation_six_of_ten :
  let m := metrics_of 0 (crowd 6 4) [] [] in
  computeMetrics 0 (crowd 6 4) [] [] = Some m
  ∧ uniqueVisits m = 10%nat ∧ activationRate m = JS.of_Z 60
  ∧ activationGoalMet m = true.
Proof.
  destruct (activation_fields 0 (crowd 6 4) [] []) as [Hrate Hgoal].
  destruct (crowd_sizes 6 4) as [Hall Hact].
  rewrite Hall, Hact in Hrate, Hgoal. cbv zeta. rewrite Hrate, Hgoal.
  split; [apply computeMetrics_ordinary, crowd_ordinary|].
  split; [exact Hall|]. split; vm_compute; reflexivity.
Qed.

Lemma activation_spec_witness :
  ∃ m, computeMetrics 0 (crowd 6 4) [] [] = Some m
       ∧ is_num (activationRate m) 60 ∧ activationGoalMet m = true.
Proof.
  destruct (activation_spec 0 (crowd 6 4) [] [] (crowd_ordinary 6 4)
              (crowd_array 6 4 eq_refl))
    as (m & visitors & activated & Hm & Hvis & Hact & _ & _ & _ & _ & Hten).
  exists m. split; [exact Hm|].
  assert (Hv : visitors = allUsers (crowd 6 4)).
  { apply set_eq. intros u. by rewrite Hvis, elem_of_allUsers. }
  assert (Ha : activated = activatedUsers (crowd 6 4)).
  { apply set_eq. intros u. by rewrite Hact, elem_of_activatedUsers. }
  destruct (crowd_sizes 6 4) as [Hall Hposted].
  apply Hten; [rewrite Hv; exact Hall|rewrite Ha; exact Hposted].
Defined.

(** C4, as stated, fails where rounding takes the rate down to 50.0: of 1001
    identities 501 posted, the flag is set, and the returned rate is 50.0,
    which does not exceed 50. *)
Lemma activation_goal_counterexample :
  ¬ (∀ (now : Z) (events : list RawEvent) (feedback : list RawFeedback)
       (posts : list RawPost) (m : Metrics),
       computeMetrics now events feedback posts = Some m →
       activationGoalMet m = true
       ↔ ∃ q, activationRate m = JS.Fin q ∧ (50 < q)%Q).
Proof.
  intros H.
  destruct (H 0 (crowd 501 500) [] [] (metrics_of 0 (crowd 501 500) [] []))
    as [H' _]; [apply computeMetrics_ordinary, crowd_ordinary|]. clear H.
  destruct (activation_fields 0 (crowd 501 500) [] []) as [Hrate Hgoal].
  destruct (crowd_sizes 501 500) as [Hall Hact].
  rewrite Hall, Hact in Hrate, Hgoal. rewrite Hrate, Hgoal in H'.
  clear Hrate Hgoal Hall Hact.
  assert (Hmet : JS.gt (percent64 501 (501 + 500)) (JS.of_Z 50) = true)
    by (vm_compute; reflexivity).
  apply H' in Hmet. destruct Hmet as (q & Hq & Hlt).
  vm_compute in Hq. injection Hq as <-. vm_compute in Hlt. discriminate Hlt.
Qed.

(** ** Churn *)

Lemma age_week_ago now e :
  num_ge (age now e) (Some MS_7D) && num_lt (age now e) (Some MS_8D)
  ↔ ∃ t, created_at e = Some t ∧ now - MS_8D < t <= now - MS_7D.
Proof.
  unfold age. destruct (created_at e) as [t|]; simpl.
  - rewrite andb_True, !bool_decide_spec. split.
    + intros [? ?]. exists t. split; [done|lia].
    + intros (t' & [= <-] & ?). lia.
  - split; [done|]. by intros (t & ? & _).
Qed.

Lemma age_last_day now e :
  num_lt (age now e) (Some MS_24H)
  ↔ ∃ t, created_at e = Some t ∧ now - MS_24H < t.
Proof.
  unfold age. destruct (created_at e) as [t|]; simpl.
  - rewrite bool_decide_spec. split.
    + intros ?. exists t. split; [done|lia].
    + intros (t' & [= <-] & ?). lia.
  - split; [done|]. by intros (t & ? & _).
Qed.

Lemma elem_of_activeWeekAgo now events u :
  u ∈ activeWeekAgo now events
  ↔ u ≠ "" ∧ ∃ e t, e ∈ events ∧ user_pseudo_id e = Some u
                    ∧ created_at e = Some t ∧ now - MS_8D < t <= now - MS_7D.
Proof.
  unfold activeWeekAgo. rewrite elem_of_list_to_set.
  rewrite (elem_of_ids_filter
             (λ e, num_ge (age now e) (Some MS_7D) && num_lt (age now e) (Some MS_8D))).
  setoid_rewrite age_week_ago. naive_solver.
Qed.

Lemma elem_of_activeLast24h now events u :
  u ∈ activeLast24h now events
  ↔ u ≠ "" ∧ ∃ e t, e ∈ events ∧ user_pseudo_id e = Some u
                    ∧ created_at e = Some t ∧ now - MS_24H < t.
Proof.
  unfold activeLast24h. rewrite elem_of_list_to_set.
  rewrite (elem_of_ids_filter (λ e, num_lt (age now e) (Some MS_24H))).
  setoid_rewrite age_last_day. naive_solver.
Qed.

Lemma churnedUsers_length now events :
  length (churnedUsers now events)
  = size (activeWeekAgo now events ∖ activeLast24h now events).
Proof.
  unfold churnedUsers, size, set_size. simpl. apply Permutation_length.
  apply NoDup_Permutation.
  - apply NoDup_filter, NoDup_elements.
  - apply NoDup_elements.
  - intros u. rewrite list_elem_of_filter, !elem_of_elements. set_solver.
Qed.

Lemma churnRate_raw_percent now events :
  churnRate_raw now events
  = percent64 (size (activeWeekAgo now events ∖ activeLast24h now events))
              (size (activeWeekAgo now events)).
Proof.
  unfold churnRate_raw, percent64. rewrite churnedUsers_length.
  case_bool_decide; case_decide; (done || lia).
Qed.

(** C3, as stated, fails at both ends of the cohort window.  An identity
    whose only event is exactly seven days old is outside the window
    [[now - 8d, now - 7d)] of the claim, which would make the cohort empty and
    the rate 0; [computeMetrics] counts it and returns 100. *)
Lemma churn_window_counterexample :
  ¬ (∀ (now : Z) (events : list RawEvent) (feedback : list RawFeedback)
       (posts : list RawPost) (weekAgo lastDay : gset string) (m : Metrics),
       (∀ u, u ∈ weekAgo
             ↔ u ≠ "" ∧ ∃ e t, e ∈ events ∧ user_pseudo_id e = Some u
                               ∧ created_at e = Some t
                               ∧ now - MS_8D <= t < now - MS_7D) →
       (∀ u, u ∈ lastDay
             ↔ u ≠ "" ∧ ∃ e t, e ∈ events ∧ user_pseudo_id e = Some u
                               ∧ created_at e = Some t
                               ∧ now - MS_24H <= t < now) →
       computeMetrics now events feedback posts = Some m →
       rounded1 (percent (size (weekAgo ∖ lastDay)) (size weekAgo))
                (churnRate m)).
Proof.
  intros H.
  specialize (H MS_8D [event_of "session_start" (MS_8D - MS_7D) 0] [] [] ∅ ∅
                (metrics_of MS_8D [event_of "session_start" (MS_8D - MS_7D) 0]
                            [] [])).
  apply (rounded1_whole _ 0) in H.
  - vm_compute in H. discriminate H.
  - vm_compute. reflexivity.
  - intros u. split; [set_solver|].
    intros (_ & e & t & ->%list_elem_of_singleton & _ & [= <-] & Ht).
    vm_compute in Ht. destruct Ht as [_ Ht]. discriminate Ht.
  - intros u. split; [set_solver|].
    intros (_ & e & t & ->%list_elem_of_singleton & _ & [= <-] & Ht).
    vm_compute in Ht. destruct Ht as [Ht _]. by destruct Ht.
  - reflexivity.
Qed.

(** C3, amended.  For the events of an array in which no identity names a
    member of [Object.prototype], [computeMetrics] returns a snapshot whose
    churn rate is, rounded to one decimal in binary64 arithmetic, the
    percentage of the week-ago cohort that is not active now, 0 for an empty
    cohort.  The cohort holds the identities (non-null, non-empty) with an
    event whose age [now - t] is at least 7 days and less than 8 days, that is
    with [t] in [(now - 8d, now - 7d]]; an identity is active now when it has
    an event less than 24 hours old, that is with [t > now - 24h]. *)
Theorem churn_spec (now : Z) (events : list RawEvent)
    (feedback : list RawFeedback) (posts : list RawPost) :
  identities_ordinary events → array events →
  ∃ (m : Metrics) (weekAgo lastDay : gset string),
    computeMetrics now events feedback posts = Some m
    ∧ (∀ u, u ∈ weekAgo
            ↔ u ≠ "" ∧ ∃ e t, e ∈ events ∧ user_pseudo_id e = Some u
                              ∧ created_at e = Some t
                              ∧ now - 8 * 24 * 60 * 60 * 1000 < t
                                <= now - 7 * 24 * 60 * 60 * 1000)
    ∧ (∀ u, u ∈ lastDay
            ↔ u ≠ "" ∧ ∃ e t, e ∈ events ∧ user_pseudo_id e = Some u
                              ∧ created_at e = Some t
                              ∧ now - 24 * 60 * 60 * 1000 < t)
    ∧ rounded1 (percent (size (weekAgo ∖ lastDay)) (size weekAgo))
               (churnRate m).
Proof.
  intros Hord Harray.
  exists (metrics_of now events feedback posts), (activeWeekAgo now events),
    (activeLast24h now events).
  split_and!.
  - by apply computeMetrics_ordinary.
  - apply elem_of_activeWeekAgo.
  - apply elem_of_activeLast24h.
  - simpl. rewrite churnRate_raw_percent. apply percent64_rounded1.
    + apply subseteq_size. set_solver.
    + unfold array in Harray.
      pose proof (size_users_le
                    (λ e, num_ge (age now e) (Some MS_7D)
                          && num_lt (age now e) (Some MS_8D)) events) as Hle.
      unfold activeWeekAgo. lia.
Qed.

(** Of two identities that were active a week ago one is active now: the
    churn rate is 50.0. *)
Lemma churn_spec_witness :
  let d := 24 * 60 * 60 * 1000 in
  let events := [event_of "session_start" (d / 2) 1;
                 event_of "session_start" (d / 2) 2;
                 event_of "session_start" (8 * d) 2] in
  ∃ m, computeMetrics (8 * d) events [] [] = Some m
       ∧ churnRate m = JS.of_Z 50.
Proof.
  intros d events.
  assert (Hord : identities_ordinary events).
  { intros e u He Hu. subst events.
    repeat (apply elem_of_cons in He as [->|He];
            [injection Hu as <-; apply uid_ordinary|]).
    by apply elem_of_nil in He. }
  destruct (churn_spec (8 * d) events [] [] Hord eq_refl)
    as (m & weekAgo & lastDay & Hm & _ & _ & _).
  exists m. split; [exact Hm|].
  rewrite computeMetrics_ordinary in Hm by done. injection Hm as <-.
  vm_compute. reflexivity.
Defined.

(** ** Sessions *)

(** *** The sort, on numbers *)

Lemma sort_insert_numbers x zs :
  StronglySorted Z.le zs →
  ∃ zs', sort_insert (Some x) (Some <$> zs) = Some <$> zs'
         ∧ zs' ≡ₚ x :: zs ∧ StronglySorted Z.le zs'.
Proof.
  induction 1 as [|y zs Hzs IH Hy].
  { exists [x]. split_and!; [done..|]. repeat constructor. }
  rewrite fmap_cons. simpl. unfold SortCompare, comparefn. simpl.
  case_bool_decide as Hyx.
  - destruct IH as (zs' & -> & Hperm & Hsorted).
    exists (y :: zs'). split_and!; [done| |].
    + rewrite Hperm. apply perm_swap.
    + constructor; [done|]. rewrite Hperm. constructor; [lia|done].
  - exists (x :: y :: zs). split_and!; [done..|].
    constructor; [by constructor|]. constructor; [lia|].
    eapply Forall_impl; [exact Hy|]. intros z Hz. simpl in Hz. lia.
Qed.

Lemma js_sort_numbers_sorted zs :
  ∃ zs', js_sort (Some <$> zs) = Some <$> zs'
         ∧ zs' ≡ₚ zs ∧ StronglySorted Z.le zs'.
Proof.
  induction zs as [|x zs (zs' & Hsort & Hperm & Hsorted)].
  { exists []. split_and!; [done..|]. constructor. }
  destruct (sort_insert_numbers x zs' Hsorted) as (zs'' & Hins & Hperm' & Hsorted').
  exists zs''. split_and!; [|by rewrite Hperm', Hperm|done].
  rewrite fmap_cons. unfold js_sort in *. simpl. by rewrite Hsort, Hins.
Qed.

(** On numbers the comparison sort gives the ascending arrangement. *)
Lemma js_sort_numbers zs : js_sort (Some <$> zs) = Some <$> merge_sort Z.le zs.
Proof.
  destruct (js_sort_numbers_sorted zs) as (zs' & -> & Hperm & Hsorted).
  f_equal. apply (StronglySorted_unique Z.le); [done| |].
  - apply Sorted_StronglySorted; [apply _|]. apply Sorted_merge_sort. apply _.
  - by rewrite Hperm, merge_sort_Permutation.
Qed.

Lemma all_numbers (l : list time) :
  Forall is_Some l → ∃ zs, l = Some <$> zs.
Proof.
  induction 1 as [|x l [z ->] _ [zs ->]]; [by exists []|]. by exists (z :: zs).
Qed.

Lemma js_sort_Permutation (l l' : list time) :
  Forall is_Some l → l ≡ₚ l' → js_sort l = js_sort l'.
Proof.
  intros Hl Hperm.
  assert (Hl' : Forall is_Some l') by (by rewrite <- Hperm).
  destruct (all_numbers l Hl) as [zs ->]. destruct (all_numbers l' Hl') as [zs' ->].
  rewrite !js_sort_numbers. f_equal.
  assert (Hzs : zs ≡ₚ zs').
  { apply (fmap_Permutation (default 0)) in Hperm.
    rewrite <- !list_fmap_compose in Hperm.
    by rewrite !list_fmap_id in Hperm. }
  apply (StronglySorted_unique Z.le).
  - apply Sorted_StronglySorted; [apply _|]. apply Sorted_merge_sort. apply _.
  - apply Sorted_StronglySorted; [apply _|]. apply Sorted_merge_sort. apply _.
  - by rewrite !merge_sort_Permutation.
Qed.

(** *** The order of the identities

    [for (const uid in grouped)] visits the identities in the order of their
    first event, [map_fold] in the order of the keys; the totals are the same
    in every order. *)

Lemma num_add_assoc a b c : num_add (num_add a b) c = num_add a (num_add b c).
Proof. destruct a, b, c; simpl; (done || f_equal; lia). Qed.

Lemma num_add_comm a b : num_add a b = num_add b a.
Proof. destruct a, b; simpl; (done || f_equal; lia). Qed.

Lemma session_step_shift st t tot cnt :
  session_step
    {| sessionStart := sessionStart st; lastEvent := lastEvent st;
       totalSessionMs := num_add tot (totalSessionMs st);
       sessionCount := cnt + sessionCount st |} t
  = {| sessionStart := sessionStart (session_step st t);
       lastEvent := lastEvent (session_step st t);
       totalSessionMs := num_add tot (totalSessionMs (session_step st t));
       sessionCount := cnt + sessionCount (session_step st t) |}.
Proof.
  unfold session_step. cbn [sessionStart lastEvent totalSessionMs sessionCount].
  destruct (num_gt (num_sub t (lastEvent st)) (Some SESSION_GAP));
    cbn [sessionStart lastEvent totalSessionMs sessionCount]; [|done].
  by rewrite num_add_assoc, Nat.add_succ_r.
Qed.

Lemma session_fold_shift (l : list time) : ∀ st tot cnt,
  foldl session_step
    {| sessionStart := sessionStart st; lastEvent := lastEvent st;
       totalSessionMs := num_add tot (totalSessionMs st);
       sessionCount := cnt + sessionCount st |} l
  = {| sessionStart := sessionStart (foldl session_step st l);
       lastEvent := lastEvent (foldl session_step st l);
       totalSessionMs := num_add tot (totalSessionMs (foldl session_step st l));
       sessionCount := cnt + sessionCount (foldl session_step st l) |}.
Proof.
  induction l as [|t l IH]; intros st tot cnt; [done|].
  cbn [foldl]. rewrite session_step_shift. apply IH.
Qed.

Lemma session_loop_shift times tot cnt :
  session_loop times (tot, cnt)
  = (num_add tot (session_loop times (Some 0%Z, 0%nat)).1,
     (cnt + (session_loop times (Some 0%Z, 0%nat)).2)%nat).
Proof.
  unfold session_loop. cbn [fst snd].
  set (first := default None (head times)).
  pose proof (session_fold_shift (tail times)
                {| sessionStart := first; lastEvent := first;
                   totalSessionMs := Some 0; sessionCount := 0 |} tot cnt) as Hshift.
  cbn [sessionStart lastEvent totalSessionMs sessionCount] in Hshift.
  assert (Htot : num_add tot (Some 0) = tot).
  { destruct tot; simpl; [f_equal; lia|done]. }
  rewrite Htot, Nat.add_0_r in Hshift. rewrite Hshift.
  cbn [sessionStart lastEvent totalSessionMs sessionCount].
  by rewrite num_add_assoc, Nat.add_succ_r.
Qed.

Lemma user_sessions_comm times1 times2 acc :
  user_sessions times1 (user_sessions times2 acc)
  = user_sessions times2 (user_sessions times1 acc).
Proof.
  destruct acc as [tot cnt]. unfold user_sessions.
  pose proof (session_loop_shift (js_sort times1)) as H1.
  pose proof (session_loop_shift (js_sort times2)) as H2.
  set (d1 := (session_loop (js_sort times1) (Some 0, 0%nat)).1) in *.
  set (c1 := (session_loop (js_sort times1) (Some 0, 0%nat)).2) in *.
  set (d2 := (session_loop (js_sort times2) (Some 0, 0%nat)).1) in *.
  set (c2 := (session_loop (js_sort times2) (Some 0, 0%nat)).2) in *.
  clearbody d1 c1 d2 c2.
  rewrite H2, H1, H1, H2. f_equal; [|lia].
  rewrite !num_add_assoc. f_equal. apply num_add_comm.
Qed.

Lemma sessionTotals_order events (entries : list (string * list time)) :
  entries ≡ₚ map_to_list (grouped events) →
  foldr (λ entry acc, user_sessions entry.2 acc) (Some 0, 0%nat) entries
  = sessionTotals (grouped events).
Proof.
  intros Hperm. unfold sessionTotals. rewrite map_fold_foldr.
  transitivity (foldr (λ entry acc, user_sessions entry.2 acc) (Some 0, 0%nat)
                  (map_to_list (grouped events))).
  - apply (foldr_permutation_proper (=)
             (λ (entry : string * list time) acc, user_sessions entry.2 acc)
             (Some 0, 0%nat)); [|done].
    intros entry1 entry2 acc. apply user_sessions_comm.
  - apply foldr_ext; [|done..]. by intros [u times] acc.
Qed.

(** *** The session loop, on numbers *)

Lemma session_step_numbers (start last tot t : Z) (cnt : nat) :
  session_step {| sessionStart := Some start; lastEvent := Some last;
                  totalSessionMs := Some tot; sessionCount := cnt |} (Some t)
  = if bool_decide (t - last > SESSION_GAP)
    then {| sessionStart := Some t; lastEvent := Some t;
            totalSessionMs := Some (tot + (last - start));
            sessionCount := S cnt |}
    else {| sessionStart := Some start; lastEvent := Some t;
            totalSessionMs := Some tot; sessionCount := cnt |}.
Proof. unfold session_step. simpl. by case_bool_decide. Qed.

Lemma session_fold (times : list Z) : ∀ (start last tot : Z) (cnt : nat),
  let st := foldl session_step
              {| sessionStart := Some start; lastEvent := Some last;
                 totalSessionMs := Some tot; sessionCount := cnt |}
              (Some <$> times) in
  num_add (totalSessionMs st) (num_sub (lastEvent st) (sessionStart st))
  = Some (tot + Zsum (sessions_from SESSION_GAP start last times))
  ∧ S (sessionCount st)
    = (cnt + length (sessions_from SESSION_GAP start last times))%nat.
Proof.
  induction times as [|t times IH]; intros start last tot cnt.
  { simpl. split; [f_equal; lia|lia]. }
  rewrite fmap_cons. cbn [foldl sessions_from]. rewrite session_step_numbers.
  case_bool_decide as Hgap.
  - destruct (IH t t (tot + (last - start)) (S cnt)) as [-> ->].
    simpl. split; [f_equal; lia|lia].
  - destruct (IH start t tot cnt) as [-> ->]. done.
Qed.

(** For an identity with the timestamps [zs], the loop adds the durations of
    its sessions to [totalSessionMs] and their number to [sessionCount]. *)
Lemma user_sessions_numbers (zs : list Z) (tot : Z) (cnt : nat) :
  zs ≠ [] →
  user_sessions (Some <$> zs) (Some tot, cnt)
  = (Some (tot + Zsum (sessions SESSION_GAP zs)),
     (cnt + length (sessions SESSION_GAP zs))%nat).
Proof.
  intros Hne. unfold user_sessions, sessions. rewrite js_sort_numbers.
  destruct (merge_sort Z.le zs) as [|t ts] eqn:Hsort.
  { exfalso. apply Hne. apply Permutation_nil_r.
    by rewrite <- (merge_sort_Permutation Z.le zs), Hsort. }
  unfold session_loop. rewrite fmap_cons.
  cbn [head tail default from_option Datatypes.id fst snd].
  destruct (session_fold ts t t tot cnt) as [-> ->]. done.
Qed.

(** *** Grouping by identity *)

Lemma times_of_snoc u events e :
  times_of u (events ++ [e])
  = times_of u events ++ (if decide (truthy_id e = Some u) then [created_at e] else []).
Proof.
  unfold times_of. rewrite filter_app, fmap_app, filter_cons, filter_nil.
  by case_decide.
Qed.

Lemma grouped_lookup events u :
  grouped events !! u
  = match times_of u events with [] => None | _ :: _ => Some (times_of u events) end.
Proof.
  induction events as [|e events IH] using rev_ind; [done|].
  rewrite grouped_snoc, times_of_snoc.
  destruct (truthy_id e) as [v|] eqn:Hid.
  - destruct (decide (v = u)) as [->|Hne].
    + rewrite lookup_insert_eq, IH, decide_True by done.
      destruct (times_of u events); done.
    + rewrite lookup_insert_ne, IH, decide_False by congruence.
      by rewrite app_nil_r.
  - rewrite IH, decide_False by congruence. by rewrite app_nil_r.
Qed.

Lemma times_of_Permutation u events events' :
  events ≡ₚ events' → times_of u events ≡ₚ times_of u events'.
Proof. intros Hperm. unfold times_of. by rewrite Hperm. Qed.

Lemma times_of_parse u events :
  timestamps_parse events → Forall is_Some (times_of u events).
Proof.
  intros Hparse. unfold times_of. apply Forall_fmap, Forall_forall.
  intros e [Hid He]%list_elem_of_filter. simpl. apply Hparse; [done|].
  by rewrite Hid.
Qed.

Lemma grouped_values events u l :
  grouped events !! u = Some l → l = times_of u events ∧ l ≠ [].
Proof.
  rewrite grouped_lookup. destruct (times_of u events) eqn:Ht; [done|].
  intros [= <-]. done.
Qed.

(** *** Independence of the order of the events *)

Lemma grouped_sorted_Permutation events events' :
  events ≡ₚ events' → timestamps_parse events →
  js_sort <$> grouped events = js_sort <$> grouped events'.
Proof.
  intros Hperm Hparse. apply map_eq. intros u.
  rewrite !lookup_fmap, !grouped_lookup.
  pose proof (times_of_Permutation u _ _ Hperm) as Hu.
  pose proof (times_of_parse u _ Hparse) as Hsome.
  destruct (times_of u events) as [|t l] eqn:Ht.
  { apply Permutation_nil_l in Hu. by rewrite <- Hu. }
  destruct (times_of u events') as [|t' l'] eqn:Ht'.
  { by apply Permutation_nil_r in Hu. }
  change (Some (js_sort (t :: l)) = Some (js_sort (t' :: l'))).
  f_equal. by apply js_sort_Permutation.
Qed.

Lemma sessionTotals_sorted events :
  sessionTotals (grouped events)
  = map_fold (λ _ times acc, session_loop times acc) (Some 0, 0%nat)
             (js_sort <$> grouped events).
Proof. unfold sessionTotals. by rewrite map_fold_fmap. Qed.

Lemma sessionTotals_Permutation events events' :
  events ≡ₚ events' → timestamps_parse events →
  sessionTotals (grouped events) = sessionTotals (grouped events').
Proof.
  intros Hperm Hparse.
  by rewrite !sessionTotals_sorted, (grouped_sorted_Permutation _ _ Hperm Hparse).
Qed.

(** *** No [NaN] from dates *)

Lemma sessionTotals_number events :
  timestamps_parse events → is_Some (sessionTotals (grouped events)).1.
Proof.
  intros Hparse. unfold sessionTotals. rewrite map_fold_foldr.
  assert (Hall : ∀ u l, (u, l) ∈ map_to_list (grouped events) →
                        l ≠ [] ∧ Forall is_Some l).
  { intros u l Hin%elem_of_map_to_list.
    apply grouped_values in Hin as [-> Hne]. split; [done|].
    by apply times_of_parse. }
  induction (map_to_list (grouped events)) as [|[u l] rest IH]; [by eexists|].
  cbn [foldr uncurry]. destruct IH as [tot Htot].
  { intros u' l' Hin. apply (Hall u' l'). by right. }
  destruct (Hall u l ltac:(left)) as [Hne Hsome].
  destruct (all_numbers l Hsome) as [zs ->].
  destruct (foldr _ _ rest) as [acc cnt]. cbn [fst] in Htot. subst acc.
  rewrite user_sessions_numbers; [by eexists|].
  by destruct zs.
Qed.

Lemma avgSessionLengthMin_totals now events feedback posts :
  avgSessionLengthMin (metrics_of now events feedback posts)
  = round1 (avgSessionLengthMin_raw (sessionTotals (grouped events))).
Proof. reflexivity. Qed.

(** *** One identity *)

Lemma grouped_single events u :
  u ≠ "" → events ≠ [] →
  Forall (λ e, user_pseudo_id e = Some u) events →
  grouped events = {[ u := created_at <$> events ]}.
Proof.
  intros Hu Hne Hall. apply map_eq. intros v. rewrite grouped_lookup.
  unfold times_of. destruct (decide (v = u)) as [->|Hv].
  - rewrite lookup_singleton_eq.
    assert (Hfilter : filter (λ e, truthy_id e = Some u) events = events).
    { clear Hne. induction Hall as [|e events He _ IH]; [done|].
      rewrite filter_cons_True, IH; [done|]. by apply truthy_id_Some. }
    rewrite Hfilter. by destruct events.
  - rewrite lookup_singleton_ne by done.
    assert (Hfilter : filter (λ e, truthy_id e = Some v) events = []).
    { clear Hne. induction Hall as [|e events He _ IH]; [done|].
      rewrite filter_cons_False, IH; [done|].
      rewrite truthy_id_Some. intros [? _]. congruence. }
    by rewrite Hfilter.
Qed.

Lemma merge_sort_sorted (zs : list Z) :
  StronglySorted Z.le zs → merge_sort Z.le zs = zs.
Proof.
  intros Hzs. apply (StronglySorted_unique Z.le); [|done|].
  - apply Sorted_StronglySorted; [apply _|]. apply Sorted_merge_sort. apply _.
  - apply merge_sort_Permutation.
Qed.

(** Events of one identity at the minutes 0, 5, 40 and 45 after [b]: two
    sessions of five minutes each. *)
Lemma sessions_example (b : Z) :
  sessions SESSION_GAP [b; b + 5 * 60000; b + 40 * 60000; b + 45 * 60000]
  = [5 * 60000; 5 * 60000].
Proof.
  unfold sessions. rewrite merge_sort_sorted.
  - unfold SESSION_GAP. simpl.
    rewrite bool_decide_eq_false_2 by lia.
    rewrite bool_decide_eq_true_2 by lia.
    rewrite bool_decide_eq_false_2 by lia.
    f_equal; [lia|]. f_equal. lia.
  - repeat constructor; lia.
Qed.

(** The totals for the events of one identity: the durations of its sessions
    and their number. *)
Lemma sessionTotals_single events u zs :
  u ≠ "" → zs ≠ [] →
  Forall (λ e, user_pseudo_id e = Some u) events →
  created_at <$> events = Some <$> zs →
  sessionTotals (grouped events)
  = (Some (Zsum (sessions SESSION_GAP zs)), length (sessions SESSION_GAP zs)).
Proof.
  intros Hu Hzs Hall Htimes. unfold sessionTotals.
  rewrite (grouped_single events u Hu); [|by destruct events, zs|done].
  by rewrite map_fold_singleton, Htimes, user_sessions_numbers.
Qed.

(** C8, as stated, fails on dirty input: with a timestamp that is not a date
    among the events of an identity, the comparison function answers [NaN] and
    the sort leaves the array as it came, so the place of that event in the
    input decides between 0.0 and [NaN]. *)
Lemma session_order_counterexample :
  ¬ (∀ (now : Z) (events events' : list RawEvent) (feedback : list RawFeedback)
       (posts : list RawPost) (m m' : Metrics),
       events ≡ₚ events' →
       computeMetrics now events feedback posts = Some m →
       computeMetrics now events' feedback posts = Some m' →
       avgSessionLengthMin m' = avgSessionLengthMin m).
Proof.
  intros H.
  pose (e0 := event_of "session_start" 0 0).
  pose (e1 := {| id := ""; event_name := "session_start";
                 user_pseudo_id := Some (uid 0); created_at := None |}).
  pose (e2 := event_of "session_start" 100 0).
  specialize (H 0 [e0; e1; e2] [e1; e0; e2] [] [] _ _ (perm_swap e1 e0 [e2])
                eq_refl eq_refl).
  vm_compute in H. discriminate H.
Qed.

(** C8, amended.  When no identity names a member of [Object.prototype] and
    the timestamps of the events that carry an identity are all dates,
    [computeMetrics] returns a snapshot for the events in any order, and the
    session totals and the reported average session length are the same for
    every permutation of the event list.  For the events of one identity the
    totals are the sum and the number of the durations of its sessions; with
    events at the minutes 0, 5, 40 and 45 (after any instant [b]), in any
    order, there are exactly two sessions, of 5 and 5 minutes, and the
    reported average is 5.0. *)
Theorem session_reconstruction (now : Z) (events events' : list RawEvent)
    (feedback : list RawFeedback) (posts : list RawPost) :
  events ≡ₚ events' →
  timestamps_parse events → identities_ordinary events →
  ∃ m m' : Metrics,
    computeMetrics now events feedback posts = Some m
    ∧ computeMetrics now events' feedback posts = Some m'
    ∧ is_Some (session_totals events)
    ∧ session_totals events' = session_totals events
    ∧ avgSessionLengthMin m' = avgSessionLengthMin m
    ∧ (∀ (u : string) (zs : list Z),
         u ≠ "" → zs ≠ [] →
         Forall (λ e, user_pseudo_id e = Some u) events →
         created_at <$> events = Some <$> zs →
         session_totals events'
         = Some (Some (Zsum (sessions (30 * 60 * 1000) zs)),
                 length (sessions (30 * 60 * 1000) zs)))
    ∧ (∀ (u : string) (b : Z),
         u ≠ "" →
         Forall (λ e, user_pseudo_id e = Some u) events →
         created_at <$> events
         = Some <$> [b; b + 5 * 60000; b + 40 * 60000; b + 45 * 60000] →
         sessions (30 * 60 * 1000) [b; b + 5 * 60000; b + 40 * 60000; b + 45 * 60000]
         = [5 * 60000; 5 * 60000]
         ∧ is_num (avgSessionLengthMin m') 5).
Proof.
  intros Hperm Hparse Hord.
  assert (Hord' : identities_ordinary events').
  { intros e u He. apply Hord. by rewrite Hperm. }
  assert (Htot : sessionTotals (grouped events') = sessionTotals (grouped events)).
  { symmetry. by apply sessionTotals_Permutation. }
  exists (metrics_of now events feedback posts),
    (metrics_of now events' feedback posts).
  rewrite !session_totals_ordinary by done.
  split_and!.
  - by apply computeMetrics_ordinary.
  - by apply computeMetrics_ordinary.
  - by eexists.
  - by rewrite Htot.
  - by rewrite !avgSessionLengthMin_totals, Htot.
  - intros u zs Hu Hzs Hall Htimes.
    by rewrite Htot, (sessionTotals_single events u zs).
  - intros u b Hu Hall Htimes. split; [apply sessions_example|].
    rewrite avgSessionLengthMin_totals, Htot.
    rewrite (sessionTotals_single events u
               [b; b + 5 * 60000; b + 40 * 60000; b + 45 * 60000]) by done.
    rewrite sessions_example.
    eexists. split; [vm_compute; reflexivity|]. reflexivity.
Qed.

Lemma session_reconstruction_witness :
  let minute (n : Z) := event_of "session_start" (n * 60000) 7 in
  let events := [minute 0; minute 5; minute 40; minute 45] in
  let events' := [minute 45; minute 0; minute 40; minute 5] in
  events ≡ₚ events'
  ∧ timestamps_parse events
  ∧ ∃ m', computeMetrics 0 events' [] [] = Some m'
          ∧ session_totals events' = session_totals events
          ∧ is_num (avgSessionLengthMin m') 5.
Proof.
  intros minute events events'.
  assert (Hperm : events ≡ₚ events').
  { subst events events'.
    etrans; [apply perm_skip, perm_skip, perm_swap|].
    etrans; [apply perm_skip, perm_swap|].
    etrans; [apply perm_swap|].
    apply perm_skip, perm_skip, perm_swap. }
  assert (Hparse : timestamps_parse events).
  { intros e He _. subst events.
    repeat (apply elem_of_cons in He as [->|He]; [by eexists|]).
    by apply elem_of_nil in He. }
  assert (Hord : identities_ordinary events).
  { intros e u He Hu. subst events.
    repeat (apply elem_of_cons in He as [->|He];
            [injection Hu as <-; apply uid_ordinary|]).
    by apply elem_of_nil in He. }
  split; [exact Hperm|]. split; [exact Hparse|].
  destruct (session_reconstruction 0 events events' [] [] Hperm Hparse Hord)
    as (m & m' & _ & Hm' & _ & Htot & _ & _ & Hex).
  exists m'. split; [exact Hm'|]. split; [exact Htot|].
  destruct (Hex (uid 7) 0) as (_ & Havg).
  - discriminate.
  - subst events. repeat constructor.
  - reflexivity.
  - exact Havg.
Defined.

(** ** Dirty rows *)

Lemma num_lt_dated a b : num_lt a b → is_Some a.
Proof. destruct a; [by eexists|done]. Qed.

Lemma num_ge_dated a b : num_ge a b → is_Some a.
Proof. destruct a; [by eexists|done]. Qed.

Lemma age_dated now e : is_Some (age now e) → is_Some (created_at e).
Proof. unfold age. destruct (created_at e); [by eexists|by intros [? ?]]. Qed.

(** A filter on the age of the events does not see the rows without a date. *)
Lemma recent24h_dated now events :
  recent24h now (dated events) = recent24h now events.
Proof.
  unfold recent24h, dated. do 2 f_equal. apply list_filter_filter_l.
  intros e He. apply (age_dated now). by apply num_lt_dated in He.
Qed.

Lemma activeLast24h_dated now events :
  activeLast24h now (dated events) = activeLast24h now events.
Proof. apply recent24h_dated. Qed.

Lemma activeWeekAgo_dated now events :
  activeWeekAgo now (dated events) = activeWeekAgo now events.
Proof.
  unfold activeWeekAgo, dated. do 2 f_equal. apply list_filter_filter_l.
  intros e [He _]%andb_True. apply (age_dated now). by apply num_ge_dated in He.
Qed.

Lemma churnRate_raw_dated now events :
  churnRate_raw now (dated events) = churnRate_raw now events.
Proof.
  unfold churnRate_raw, churnedUsers.
  by rewrite activeWeekAgo_dated, activeLast24h_dated.
Qed.

(** ** Day-1 retention *)

Lemma firstVisitByUser_snoc events e :
  (∀ u, truthy_id e = Some u → JS.inherited u = false) →
  firstVisitByUser (events ++ [e])
  = let m := firstVisitByUser events in
    if bool_decide (named "first_visit" e) then
      match truthy_id e with
      | Some uid =>
          if falsy (m !! uid) || num_lt (created_at e) (default None (m !! uid))
          then <[uid := created_at e]> m else m
      | None => m
      end
    else m.
Proof.
  intros Hord. unfold firstVisitByUser. rewrite foldl_app. cbn [foldl].
  destruct (truthy_id e) as [uid|]; [|done].
  by rewrite (Hord uid eq_refl), andb_false_r.
Qed.

Lemma first_visits_dated_app events events' :
  first_visits_dated (events ++ events') →
  first_visits_dated events ∧ first_visits_dated events'.
Proof.
  intros H. split; intros e He; apply H; rewrite elem_of_app; auto.
Qed.

Lemma first_seen_snoc_other events e u t0 :
  ¬ (event_name e = "first_visit" ∧ truthy_id e = Some u) →
  first_seen (events ++ [e]) u t0 ↔ first_seen events u t0.
Proof.
  intros Hother. unfold first_seen.
  setoid_rewrite elem_of_app. setoid_rewrite list_elem_of_singleton.
  split.
  - intros (Hu & (e' & [He'| ->] & Hn & Hid & Ht) & Hmin).
    + split_and!; [done|by eauto 10|].
      intros e'' t'' He''. apply (Hmin e'' t''). by left.
    + destruct Hother. by rewrite truthy_id_Some.
  - intros (Hu & (e' & He' & Hn & Hid & Ht) & Hmin).
    split_and!; [done|by eauto 10|].
    intros e'' t [He''| ->] Hn' Hid' Ht'; [by apply (Hmin e'' t)|].
    destruct Hother. by rewrite truthy_id_Some.
Qed.

(** The first [first_visit] of an identity, or an earlier one. *)
Lemma first_seen_snoc_first events e u t :
  event_name e = "first_visit" → truthy_id e = Some u → created_at e = Some t →
  (∀ e', e' ∈ events → ¬ (event_name e' = "first_visit" ∧ truthy_id e' = Some u)) →
  first_seen (events ++ [e]) u t.
Proof.
  intros Hn [Hid Hu]%truthy_id_Some Ht Hnone. split_and!; [done| |].
  - exists e. split_and!; [|done..]. apply elem_of_app. right. by left.
  - intros e' t' [He'| ->%list_elem_of_singleton]%elem_of_app Hn' Hid' Ht'.
    + destruct (Hnone e' He'). by rewrite truthy_id_Some.
    + assert (t' = t) by congruence. lia.
Qed.

Lemma first_seen_snoc_earlier events e u t t0 :
  event_name e = "first_visit" → truthy_id e = Some u → created_at e = Some t →
  first_seen events u t0 → t < t0 →
  first_seen (events ++ [e]) u t.
Proof.
  intros Hn [Hid Hu]%truthy_id_Some Ht (_ & _ & Hmin) Hlt. split_and!; [done| |].
  - exists e. split_and!; [|done..]. apply elem_of_app. right. by left.
  - intros e' t' [He'| ->%list_elem_of_singleton]%elem_of_app Hn' Hid' Ht'.
    + specialize (Hmin e' t' He' Hn' Hid' Ht'). lia.
    + assert (t' = t) by congruence. lia.
Qed.

Lemma first_seen_snoc_later events e u t t0 :
  created_at e = Some t →
  first_seen events u t0 → t0 <= t →
  first_seen (events ++ [e]) u t0.
Proof.
  intros Ht (Hu & (e0 & He0 & Hn0 & Hid0 & Ht0) & Hmin) Hle. split_and!; [done| |].
  - exists e0. split_and!; [|done..]. apply elem_of_app. by left.
  - intros e' t' [He'| ->%list_elem_of_singleton]%elem_of_app Hn' Hid' Ht'.
    + by apply (Hmin e' t').
    + assert (t' = t) by congruence. lia.
Qed.

(** Under [first_visits_dated], the map holds for each identity its earliest
    [first_visit] time, and nothing for an identity without such an event. *)
Lemma firstVisitByUser_lookup events u :
  first_visits_dated events → identities_ordinary events →
  match firstVisitByUser events !! u with
  | None => ∀ e, e ∈ events →
                 ¬ (event_name e = "first_visit" ∧ truthy_id e = Some u)
  | Some ft => ∃ t0, ft = Some t0 ∧ first_seen events u t0
  end.
Proof.
  induction events as [|e events IH] using rev_ind; intros Hdated Hord.
  { change (firstVisitByUser []) with (∅ : gmap string time).
    rewrite lookup_empty. intros e He. by apply elem_of_nil in He. }
  apply first_visits_dated_app in Hdated as Hboth. destruct Hboth as [Hprefix _].
  apply identities_ordinary_app in Hord as [Hord Hlast].
  specialize (IH Hprefix Hord). rewrite firstVisitByUser_snoc; cycle 1.
  { intros v Hv. apply (Hlast e v); [by left|done]. }
  cbv zeta.
  assert (Hkeep : ¬ (event_name e = "first_visit" ∧ truthy_id e = Some u) →
            match firstVisitByUser events !! u with
            | None => ∀ e', e' ∈ events ++ [e] →
                        ¬ (event_name e' = "first_visit" ∧ truthy_id e' = Some u)
            | Some ft => ∃ t0, ft = Some t0 ∧ first_seen (events ++ [e]) u t0
            end).
  { intros Hother. destruct (firstVisitByUser events !! u) as [ft|].
    - destruct IH as (t0 & -> & Hseen). exists t0. split; [done|].
      by apply first_seen_snoc_other.
    - intros e' [He'| ->%list_elem_of_singleton]%elem_of_app; [by apply IH|done]. }
  case_bool_decide as Hname; [|apply Hkeep; by intros [? _]].
  destruct (truthy_id e) as [v|] eqn:Hid; [|apply Hkeep; by intros [_ ?]].
  destruct (decide (v = u)) as [->|Hvu]; cycle 1.
  { destruct (_ || _).
    - rewrite lookup_insert_ne by done. apply Hkeep. intros [_ ?]. congruence.
    - apply Hkeep. intros [_ ?]. congruence. }
  destruct (Hdated e) as (t & Ht & Ht0).
  { apply elem_of_app. right. by left. }
  { done. }
  { by rewrite Hid. }
  rewrite Ht. destruct (firstVisitByUser events !! u) as [ft|] eqn:Hl.
  - destruct IH as (t0 & -> & Hseen).
    assert (Ht0' : t0 ≠ 0).
    { destruct Hseen as (Hu & (e' & He' & Hn' & Hid' & Ht') & _).
      destruct (Hprefix e' He' Hn') as (t' & Ht'' & Hne').
      - assert (truthy_id e' = Some u) as -> by (by apply truthy_id_Some). done.
      - congruence. }
    cbn [falsy default from_option Datatypes.id num_lt].
    rewrite bool_decide_eq_false_2 by done. cbn [orb].
    case_bool_decide as Hlt.
    + rewrite lookup_insert_eq. exists t. split; [done|].
      by apply (first_seen_snoc_earlier events e u t t0).
    + rewrite Hl. exists t0. split; [done|].
      apply (first_seen_snoc_later events e u t t0); [done..|lia].
  - cbn [falsy orb]. rewrite lookup_insert_eq. exists t. split; [done|].
    by apply first_seen_snoc_first.
Qed.

Lemma first_seen_unique events u t0 t1 :
  first_seen events u t0 → first_seen events u t1 → t0 = t1.
Proof.
  intros (_ & (e0 & He0 & Hn0 & Hid0 & Ht0) & Hmin0)
         (_ & (e1 & He1 & Hn1 & Hid1 & Ht1) & Hmin1).
  specialize (Hmin0 e1 t1 He1 Hn1 Hid1 Ht1).
  specialize (Hmin1 e0 t0 He0 Hn0 Hid0 Ht0). lia.
Qed.

Lemma firstVisitByUser_first_seen events u t0 :
  first_visits_dated events → identities_ordinary events →
  firstVisitByUser events !! u = Some (Some t0) ↔ first_seen events u t0.
Proof.
  intros Hdated Hord.
  pose proof (firstVisitByUser_lookup events u Hdated Hord) as Hl.
  destruct (firstVisitByUser events !! u) as [ft|].
  - destruct Hl as (t1 & -> & Hseen). split.
    + by intros [= <-].
    + intros Hseen'. by rewrite (first_seen_unique _ _ _ _ Hseen' Hseen).
  - split; [done|]. intros (Hu & (e & He & Hn & Hid & _) & _).
    destruct (Hl e He). by rewrite truthy_id_Some.
Qed.

Lemma firstVisitByUser_dated events u ft :
  first_visits_dated events → identities_ordinary events →
  firstVisitByUser events !! u = Some ft → ∃ t0, ft = Some t0.
Proof.
  intros Hdated Hord Hft.
  pose proof (firstVisitByUser_lookup events u Hdated Hord) as Hl.
  rewrite Hft in Hl. destruct Hl as (t0 & -> & _). by exists t0.
Qed.

(** The identities of the map are identities of the events. *)
Lemma firstVisitByUser_size events :
  first_visits_dated events → identities_ordinary events →
  (size (firstVisitByUser events) ≤ length events)%nat.
Proof.
  intros Hdated Hord. etrans; [|apply size_allUsers_le].
  rewrite <- (size_dom (D := gset string)). apply subseteq_size.
  intros u Hin%elem_of_dom.
  pose proof (firstVisitByUser_lookup events u Hdated Hord) as Hl.
  destruct (firstVisitByUser events !! u) as [ft|]; [|by destruct Hin].
  destruct Hl as (t0 & _ & Hu & (e & He & _ & Hid & _) & _).
  apply elem_of_allUsers. eauto.
Qed.

Lemma hasReturn_came_back events u t0 :
  hasReturn events u (Some t0) = true ↔ came_back events u t0.
Proof.
  unfold hasReturn, came_back. rewrite existsb_exists. split.
  - intros (e & He%list_elem_of_In & Hc).
    rewrite !andb_true_iff, negb_true_iff in Hc.
    destruct Hc as [[[Hid%bool_decide_eq_true Hn%bool_decide_eq_false] Hge] Hlt].
    destruct (created_at e) as [t|] eqn:Ht; [|done].
    simpl in Hge, Hlt. apply bool_decide_eq_true in Hge, Hlt.
    exists e, t. unfold MS_24H, MS_48H in *. split_and!; [done..|lia|lia].
  - intros (e & t & He & Hid & Hn & Ht & Hlo & Hhi).
    exists e. split; [by apply list_elem_of_In|].
    rewrite !andb_true_iff, negb_true_iff, Ht. simpl.
    rewrite !bool_decide_eq_true, bool_decide_eq_false.
    unfold MS_24H, MS_48H. split_and!; [done..|lia|lia].
Qed.

(** The two counters of the loop are the numbers of entries that pass its
    tests. *)
Lemma day1Counts_filter now events :
  let entries := map_to_list (firstVisitByUser events) in
  let eligible (p : string * time) :=
    num_lt (num_sub (Some now) p.2) (Some MS_24H) = false in
  let returned (p : string * time) :=
    eligible p ∧ hasReturn events p.1 p.2 = true in
  day1Counts now events
  = (length (filter eligible entries), length (filter returned entries)).
Proof.
  intros entries eligible returned. unfold day1Counts. rewrite map_fold_foldr.
  fold entries. induction entries as [|[u ft] entries IH]; [done|].
  cbn [foldr uncurry]. rewrite IH. rewrite !filter_cons.
  unfold returned, eligible. cbn [fst snd].
  destruct (num_lt _ _) eqn:Hlt.
  - rewrite !decide_False; [done| |]; [by intros [? _]|done].
  - rewrite decide_True by done.
    destruct (hasReturn events u ft) eqn:Hret.
    + by rewrite decide_True.
    + rewrite decide_False; [done|]. by intros [_ ?].
Qed.

Lemma size_keys (P : string * time → Prop) `{!∀ p, Decision (P p)}
    (m : gmap string time) :
  size (list_to_set (filter P (map_to_list m)).*1 : gset string)
  = length (filter P (map_to_list m)).
Proof.
  rewrite size_list_to_set, length_fmap; [done|].
  eapply sublist_NoDup; [apply (NoDup_fst_map_to_list m)|].
  apply fmap_sublist, sublist_filter.
Qed.

Lemma elem_of_keys (P : string * time → Prop) `{!∀ p, Decision (P p)}
    (m : gmap string time) u :
  u ∈ (list_to_set (filter P (map_to_list m)).*1 : gset string)
  ↔ ∃ ft, m !! u = Some ft ∧ P (u, ft).
Proof.
  rewrite elem_of_list_to_set, list_elem_of_fmap. split.
  - intros ([u' ft] & -> & [HP Hin%elem_of_map_to_list]%list_elem_of_filter).
    by exists ft.
  - intros (ft & Hl & HP). exists (u, ft). split; [done|].
    apply list_elem_of_filter. split; [done|]. by apply elem_of_map_to_list.
Qed.

Lemma day1Retention_raw_percent now events :
  day1Retention_raw now events
  = percent64 (day1Counts now events).2 (day1Counts now events).1.
Proof.
  unfold day1Retention_raw, percent64. destruct (day1Counts now events) as [el re].
  cbn [fst snd]. case_bool_decide; case_decide; (done || lia).
Qed.

Lemma day1Counts_le now events :
  ((day1Counts now events).2 ≤ (day1Counts now events).1)%nat.
Proof.
  pose proof (day1Counts_filter now events) as Hcounts. cbv zeta in Hcounts.
  rewrite Hcounts. cbn [fst snd].
  rewrite <- (list_filter_filter_l
                (λ p : string * time,
                   num_lt (num_sub (Some now) p.2) (Some MS_24H) = false
                   ∧ hasReturn events p.1 p.2 = true)
                (λ p : string * time,
                   num_lt (num_sub (Some now) p.2) (Some MS_24H) = false))
    by (intros p [? _]; done).
  apply length_filter.
Qed.

Lemma day1Counts_size now events :
  ((day1Counts now events).1 ≤ size (firstVisitByUser events))%nat.
Proof.
  pose proof (day1Counts_filter now events) as Hcounts. cbv zeta in Hcounts.
  rewrite Hcounts. cbn [fst]. rewrite <- length_map_to_list.
  apply length_filter.
Qed.

Ltac one_of_events He :=
  repeat (apply elem_of_cons in He as [->|He]);
  [..|by apply elem_of_nil in He].

(** C7, as stated, fails on dirty input: an identity whose only [first_visit]
    has a timestamp that is not a date has no earliest [first_visit] time, yet
    the loop counts it as eligible.  With one such identity and one identity
    that was first seen 90 hours ago and came back 25 hours later, the claim
    gives 100 and [computeMetrics] returns 50. *)
Lemma day1_dirty_counterexample :
  ¬ (∀ (now : Z) (events : list RawEvent) (feedback : list RawFeedback)
       (posts : list RawPost) (eligible returned : gset string) (m : Metrics),
       (∀ u, u ∈ eligible
             ↔ ∃ t0, first_seen events u t0 ∧ now - t0 >= 24 * 60 * 60 * 1000) →
       (∀ u, u ∈ returned
             ↔ ∃ t0, first_seen events u t0 ∧ now - t0 >= 24 * 60 * 60 * 1000
                     ∧ came_back events u t0) →
       computeMetrics now events feedback posts = Some m →
       rounded1 (percent (size returned) (size eligible))
                (day1Retention m)).
Proof.
  intros H.
  pose (h := 3600000).
  pose (e0 := {| id := ""; event_name := "first_visit";
                 user_pseudo_id := Some (uid 0); created_at := None |}).
  pose (e1 := event_of "first_visit" (10 * h) 1).
  pose (e2 := event_of "session_start" (35 * h) 1).
  assert (Hseen : ∀ u t0, first_seen [e0; e1; e2] u t0 ↔ u = uid 1 ∧ t0 = 10 * h).
  { intros u t0. split.
    - intros (_ & (e & He & Hn & Hid & Ht) & _). one_of_events He.
      + discriminate Ht.
      + simpl in Hid, Ht. split; congruence.
      + discriminate Hn.
    - intros [-> ->]. split_and!; [done| |].
      + exists e1. split_and!; [|done..]. right. left.
      + intros e t He Hn Hid Ht. one_of_events He.
        * discriminate Hid.
        * simpl in Ht. injection Ht as <-. lia.
        * discriminate Hn. }
  specialize (H (100 * h) [e0; e1; e2] [] [] {[ uid 1 ]} {[ uid 1 ]}
                (metrics_of (100 * h) [e0; e1; e2] [] [])).
  apply (rounded1_whole _ 100) in H.
  - vm_compute in H. discriminate H.
  - rewrite size_singleton. vm_compute. reflexivity.
  - intros u. rewrite elem_of_singleton. setoid_rewrite Hseen. split.
    + intros ->. exists (10 * h). split; [done|]. unfold h. lia.
    + by intros (t0 & [-> _] & _).
  - intros u. rewrite elem_of_singleton. setoid_rewrite Hseen. split.
    + intros ->. exists (10 * h). split_and!; [done|done|unfold h; lia|].
      exists e2, (35 * h). split_and!; [by (do 2 right; left)|done..|unfold h; lia|unfold h; lia].
    + by intros (t0 & [-> _] & _).
  - reflexivity.
Qed.

(** The slip on the instant 0: [!firstVisitByUser[uid]] takes a stored 0 for
    a missing entry, so a later [first_visit] of the same identity overwrites
    the earliest one; the identity came back 25 hours after it was first seen
    and is not counted as returned. *)
Lemma first_visit_epoch_slip :
  let h := 3600000 in
  let events := [event_of "first_visit" 0 1; event_of "first_visit" (100 * h) 1;
                 event_of "session_start" (25 * h) 1] in
  first_seen events (uid 1) 0
  ∧ came_back events (uid 1) 0
  ∧ firstVisitByUser events !! uid 1 = Some (Some (100 * h))
  ∧ day1Retention <$> computeMetrics (1000 * h) events [] []
    = Some (JS.of_Z 0).
Proof.
  intros h events. split_and!.
  - split_and!; [done| |].
    + eexists. split_and!; [left|done..].
    + intros e t He Hn Hid Ht. subst events. one_of_events He.
      * simpl in Ht. injection Ht as <-. lia.
      * simpl in Ht. injection Ht as <-. unfold h. lia.
      * discriminate Hn.
  - eexists _, (25 * h). split_and!; [by (do 2 right; left)|done..|unfold h; lia|unfold h; lia].
  - by vm_compute.
  - by vm_compute.
Qed.

(** C7, amended.  For the events of an array in which no identity names a
    member of [Object.prototype] and the [first_visit] events that carry an
    identity have timestamps that are dates (and not the instant 0), and for
    every reference time [now], [computeMetrics] returns a snapshot: the
    identities held eligible are those whose earliest [first_visit] time [t0]
    is at least 24 hours before [now]; the eligible identities held returned
    are those with an event other than a [first_visit] in
    [[t0 + 24h, t0 + 48h)]; the returned retention is
    returned / eligible * 100 rounded to one decimal in binary64 arithmetic,
    0 with no eligible identity.  So an identity first seen 30 hours ago with
    an event 25 hours later is eligible and returned, and one first seen 10
    hours ago is not eligible. *)
Theorem day1_retention_spec (now : Z) (events : list RawEvent)
    (feedback : list RawFeedback) (posts : list RawPost) :
  first_visits_dated events → identities_ordinary events → array events →
  ∃ (m : Metrics) (eligible returned : gset string),
    computeMetrics now events feedback posts = Some m
    ∧ (∀ u, u ∈ eligible
            ↔ ∃ t0, first_seen events u t0 ∧ now - t0 >= 24 * 60 * 60 * 1000)
    ∧ (∀ u, u ∈ returned
            ↔ ∃ t0, first_seen events u t0 ∧ now - t0 >= 24 * 60 * 60 * 1000
                    ∧ came_back events u t0)
    ∧ rounded1 (percent (size returned) (size eligible)) (day1Retention m)
    ∧ (∀ u e, first_seen events u (now - 30 * 3600000) →
              e ∈ events → user_pseudo_id e = Some u →
              event_name e ≠ "first_visit" →
              created_at e = Some (now - 30 * 3600000 + 25 * 3600000) →
              u ∈ eligible ∧ u ∈ returned)
    ∧ (∀ u, first_seen events u (now - 10 * 3600000) → u ∉ eligible).
Proof.
  intros Hdated Hord Harray.
  pose (elig := λ p : string * time,
          num_lt (num_sub (Some now) p.2) (Some MS_24H) = false).
  pose (ret := λ p : string * time, elig p ∧ hasReturn events p.1 p.2 = true).
  set (fv := firstVisitByUser events).
  exists (metrics_of now events feedback posts),
         (list_to_set (filter elig (map_to_list fv)).*1),
         (list_to_set (filter ret (map_to_list fv)).*1).
  assert (Helig : ∀ u, u ∈ (list_to_set (filter elig (map_to_list fv)).*1 : gset string)
            ↔ ∃ t0, first_seen events u t0 ∧ now - t0 >= 24 * 60 * 60 * 1000).
  { intros u. rewrite elem_of_keys. unfold elig. cbn [snd]. split.
    - intros (ft & Hl & Hlt).
      destruct (firstVisitByUser_dated events u ft Hdated Hord Hl) as [t0 ->].
      exists t0. split; [by apply firstVisitByUser_first_seen|].
      simpl in Hlt. apply bool_decide_eq_false in Hlt. unfold MS_24H in Hlt. lia.
    - intros (t0 & Hseen%firstVisitByUser_first_seen & Hge); [|done..].
      exists (Some t0). split; [done|]. simpl. apply bool_decide_eq_false.
      unfold MS_24H. lia. }
  assert (Hret : ∀ u, u ∈ (list_to_set (filter ret (map_to_list fv)).*1 : gset string)
            ↔ ∃ t0, first_seen events u t0 ∧ now - t0 >= 24 * 60 * 60 * 1000
                    ∧ came_back events u t0).
  { intros u. rewrite elem_of_keys. unfold ret, elig. cbn [fst snd]. split.
    - intros (ft & Hl & Hlt & Hback).
      destruct (firstVisitByUser_dated events u ft Hdated Hord Hl) as [t0 ->].
      exists t0. split_and!; [by apply firstVisitByUser_first_seen| |].
      + simpl in Hlt. apply bool_decide_eq_false in Hlt. unfold MS_24H in Hlt. lia.
      + by apply hasReturn_came_back.
    - intros (t0 & Hseen%firstVisitByUser_first_seen & Hge & Hback); [|done..].
      exists (Some t0). split_and!; [done| |by apply hasReturn_came_back].
      simpl. apply bool_decide_eq_false. unfold MS_24H. lia. }
  split_and!; [by apply computeMetrics_ordinary|done|done| | |].
  - rewrite !size_keys.
    pose proof (day1Counts_filter now events) as Hcounts. cbv zeta in Hcounts.
    fold fv elig ret in Hcounts.
    pose proof (day1Counts_le now events) as Hle.
    pose proof (day1Counts_size now events) as Hsize.
    pose proof (firstVisitByUser_size events Hdated Hord) as Hfv.
    change (day1Retention (metrics_of now events feedback posts))
      with (round1 (day1Retention_raw now events)).
    rewrite day1Retention_raw_percent.
    rewrite Hcounts in Hle, Hsize |- *. cbn [fst snd] in *.
    apply percent64_rounded1; [done|]. unfold array in Harray. lia.
  - intros u e Hseen He Hid Hn Ht.
    rewrite Helig, Hret. split.
    + eexists. split; [exact Hseen|lia].
    + eexists. split_and!; [exact Hseen|lia|].
      exists e. eexists. split_and!; [done..|lia|lia].
  - intros u Hseen. rewrite Helig. intros (t0 & Hseen' & Hge).
    rewrite (first_seen_unique _ _ _ _ Hseen' Hseen) in Hge. lia.
Qed.

Lemma day1_retention_spec_witness :
  let h := 3600000 in
  let now := 100 * h in
  let events := [event_of "first_visit" (now - 30 * h) 1;
                 event_of "session_start" (now - 30 * h + 25 * h) 1;
                 event_of "first_visit" (now - 10 * h) 2] in
  first_visits_dated events
  ∧ ∃ (m : Metrics) (eligible returned : gset string),
      computeMetrics now events [] [] = Some m
      ∧ uid 1 ∈ eligible ∧ uid 1 ∈ returned ∧ (uid 2 ∉ eligible)
      ∧ rounded1 (percent (size returned) (size eligible)) (day1Retention m).
Proof.
  intros h now events.
  assert (Hdated : first_visits_dated events).
  { intros e He Hn _. subst events. one_of_events He.
    - by eexists.
    - discriminate Hn.
    - by eexists. }
  assert (Hord : identities_ordinary events).
  { intros e u He Hu. subst events.
    one_of_events He; injection Hu as <-; apply uid_ordinary. }
  split; [exact Hdated|].
  destruct (day1_retention_spec now events [] [] Hdated Hord eq_refl)
    as (m & eligible & returned & Hm & _ & _ & Hrate & Hback & Hyoung).
  exists m, eligible, returned.
  assert (Hseen1 : first_seen events (uid 1) (now - 30 * 3600000)).
  { split_and!; [done| |].
    - eexists. split_and!; [left|done..].
    - intros e t He Hn Hid Ht. subst events. one_of_events He.
      + simpl in Ht. injection Ht as <-. unfold now, h. lia.
      + discriminate Hn.
      + discriminate Hid. }
  assert (Hseen2 : first_seen events (uid 2) (now - 10 * 3600000)).
  { split_and!; [done| |].
    - eexists. split_and!; [by (do 2 right; left)|done..].
    - intros e t He Hn Hid Ht. subst events. one_of_events He.
      + discriminate Hid.
      + discriminate Hn.
      + simpl in Ht. injection Ht as <-. unfold now, h. lia. }
  destruct (Hback (uid 1) (event_of "session_start" (now - 30 * h + 25 * h) 1) Hseen1)
    as [Hin1 Hin2]; [by (right; left)|done..|].
  split_and!; [done|done|done|by apply Hyoung|done].
Defined.

(** ** Every field is a number *)

Lemma countRating_sum (feedback : list RawFeedback) :
  (countRating "happy" feedback + countRating "normal" feedback
   + countRating "sad" feedback ≤ length feedback)%nat
  ∧ (Forall (λ f, rating f ∈ ["happy"; "normal"; "sad"]) feedback →
     (countRating "happy" feedback + countRating "normal" feedback
      + countRating "sad" feedback = length feedback)%nat).
Proof.
  unfold countRating.
  induction feedback as [|f feedback [IHle IHeq]]; [done|].
  rewrite !filter_cons.
  split.
  - repeat case_decide; simpl; try lia; congruence.
  - intros [Hf Hrest]%Forall_cons. specialize (IHeq Hrest).
    repeat case_decide; simpl; try lia; try congruence.
    set_solver.
Qed.

Lemma sumLikes_finite posts : finite (sumLikes posts).
Proof.
  unfold sumLikes. generalize (finite_of_Z 0). generalize (JS.of_Z 0).
  induction posts as [|p posts IH]; intros acc Hacc; [done|].
  cbn [foldl]. apply IH. by apply finite_add; [|apply finite_of_Z].
Qed.

(** A sum of like counts that are not negative and stay within [2^53] is
    exact: every partial sum is a whole number that binary64 holds. *)
Lemma sumLikes_from (posts : list RawPost) : ∀ acc : Z,
  0 <= acc → Forall (λ p, 0 <= default 0 (likes p)) posts →
  acc + likes_total posts <= 2 ^ 53 →
  foldl (λ s p, JS.add s (JS.of_Z (default 0 (likes p))))
        (JS.Fin (JS.fl (inject_Z acc))) posts
  = JS.Fin (JS.fl (inject_Z (acc + likes_total posts))).
Proof.
  induction posts as [|p posts IH]; intros acc Hacc Hpos Hsum.
  { simpl. by rewrite Z.add_0_r. }
  apply Forall_cons in Hpos as [Hp Hpos]. cbn [foldl likes_total foldr] in *.
  fold (likes_total posts) in *.
  assert (Htotal : 0 <= likes_total posts).
  { clear -Hpos. induction Hpos as [|q l Hq _ IH]; [done|].
    cbn [likes_total foldr]. fold (likes_total l). lia. }
  cbn [JS.add JS.of_Z].
  rewrite (Binary64.fl_proper
             (JS.fl (inject_Z acc) + inject_Z (default 0 (likes p)))
             (inject_Z (acc + default 0 (likes p)))).
  - rewrite IH; [f_equal; f_equal; f_equal; lia|lia|done|lia].
  - rewrite inject_Z_plus, (Binary64.fl_Z acc) by lia. reflexivity.
Qed.

Lemma sumLikes_exact (posts : list RawPost) :
  likes_exact posts →
  sumLikes posts = JS.Fin (JS.fl (inject_Z (likes_total posts))).
Proof.
  intros [Hpos Hsum].
  apply (sumLikes_from posts 0); [done|done|lia].
Qed.

Lemma sumLikes_total (posts : list RawPost) :
  likes_exact posts → is_num (sumLikes posts) (inject_Z (likes_total posts)).
Proof.
  intros Hexact. rewrite (sumLikes_exact posts Hexact).
  eexists. split; [done|].
  destruct Hexact as [Hpos Hsum].
  assert (Htotal : 0 <= likes_total posts).
  { clear -Hpos. induction Hpos as [|q l Hq _ IH]; [done|].
    cbn [likes_total foldr]. fold (likes_total l). lia. }
  apply Binary64.fl_Z. lia.
Qed.

(** The satisfaction score is a whole number. *)
Lemma npsScore_raw_whole (feedback : list RawFeedback) :
  let h := countRating "happy" feedback in
  let s := countRating "sad" feedback in
  let t := length feedback in
  ∃ n : Z,
    npsScore_raw feedback = JS.of_Z n
    ∧ -100 <= n <= 100
    ∧ (t = 0%nat → n = 0)
    ∧ ((0 < t)%nat →
       (Qabs (inject_Z n - 100 * (Qnat h / Qnat t - Qnat s / Qnat t))
        <= (1 # 2) + 400 * (1 # 2 ^ 53))%Q)
    ∧ ((0 < t)%nat → Z.of_nat t < 2 ^ 32 →
       - Z.of_nat t
       <= 2 * n * Z.of_nat t - 2 * (100 * (Z.of_nat h - Z.of_nat s))
       <= Z.of_nat t).
Proof.
  cbv zeta. unfold npsScore_raw.
  destruct (countRating_sum feedback) as [Hsum _].
  case_bool_decide as Hpos.
  - destruct (round_balance (countRating "happy" feedback)
                (countRating "sad" feedback) (length feedback))
      as (n & Hn & Hrange & Hnear & Htie); [lia|done|].
    exists n. do 2 (split; [done|]). split; [lia|]. split; [done|].
    by intros _.
  - exists 0. split; [vm_compute; reflexivity|]. split; [lia|].
    split; [done|]. split; intros; lia.
Qed.

Lemma metrics_finite now events feedback posts :
  let m := metrics_of now events feedback posts in
  finite (activationRate m) ∧ finite (engagementRate m)
  ∧ finite (churnRate m) ∧ finite (day1Retention m)
  ∧ finite (viralCoefficient m) ∧ finite (npsScore m)
  ∧ finite (totalLikes m).
Proof.
  cbv zeta. unfold metrics_of.
  cbn [snapshot activationRate engagementRate churnRate day1Retention
       viralCoefficient npsScore totalLikes].
  split_and!.
  - rewrite activationRate_raw_percent.
    destruct (percent64_range _ _ (activated_le events)) as (y & -> & _).
    by eexists.
  - apply finite_round1. unfold engagementRate_raw.
    case_bool_decide; [|apply finite_of_Z].
    apply finite_mul; [|apply finite_of_Z].
    apply finite_div_count; [|done].
    apply finite_add; [apply sumLikes_finite|apply finite_of_nat].
  - rewrite churnRate_raw_percent.
    destruct (percent64_range
                (size (activeWeekAgo now events ∖ activeLast24h now events))
                (size (activeWeekAgo now events))) as (y & -> & _).
    { apply subseteq_size. set_solver. }
    by eexists.
  - rewrite day1Retention_raw_percent.
    destruct (percent64_range _ _ (day1Counts_le now events)) as (y & -> & _).
    by eexists.
  - apply finite_round2. unfold viralCoefficient_raw.
    case_bool_decide; [|apply finite_of_Z].
    by apply finite_div_count; [apply finite_of_nat|].
  - destruct (npsScore_raw_whole feedback) as (n & -> & _). apply finite_of_Z.
  - apply sumLikes_finite.
Qed.

Lemma dated_ordinary events :
  identities_ordinary events → identities_ordinary (dated events).
Proof.
  intros Hord e u [_ He]%list_elem_of_filter. by apply Hord.
Qed.

(** C2, as stated, fails: a row whose timestamp is not a date is not skipped
    by the session loop, and one such row of one identity makes the average
    session length [NaN]. *)
Lemma malformed_row_counterexample :
  ¬ (∀ (now : Z) (events : list RawEvent) (feedback : list RawFeedback)
       (posts : list RawPost),
       ∃ m, computeMetrics now events feedback posts = Some m
            ∧ finite (avgSessionLengthMin m)).
Proof.
  intros H.
  destruct (H 0 [{| id := ""; event_name := "session_start";
                    user_pseudo_id := Some (uid 0); created_at := None |}] [] [])
    as (m & Hm & q & Hq).
  vm_compute in Hm. injection Hm as <-. discriminate Hq.
Qed.

(** C2, amended.  When no identity names a member of [Object.prototype],
    [computeMetrics] returns a snapshot.  Whatever the rows hold, its
    activation rate, churn rate, day-1 retention, viral coefficient and
    satisfaction score are numbers, neither [NaN] nor an infinity; and when
    the like counts are counts (not negative, [2^53] at most together) the
    total of likes is their sum and the engagement rate is a number.  The
    rows whose timestamp is not a date are left out of the sets that are cut
    by age, so the daily active users and the churn rate are those of the
    well-formed rows.  The average session length is a number when every
    event that carries an identity has a timestamp that is a date. *)
Theorem metrics_well_defined (now : Z) (events : list RawEvent)
    (feedback : list RawFeedback) (posts : list RawPost) :
  identities_ordinary events →
  ∃ m m_dated : Metrics,
    computeMetrics now events feedback posts = Some m
    ∧ computeMetrics now (dated events) feedback posts = Some m_dated
    ∧ (finite (activationRate m) ∧ finite (churnRate m)
       ∧ finite (day1Retention m) ∧ finite (viralCoefficient m)
       ∧ finite (npsScore m))
    ∧ (likes_exact posts →
       is_num (totalLikes m) (inject_Z (likes_total posts))
       ∧ finite (engagementRate m))
    ∧ (dau m = dau m_dated ∧ churnRate m = churnRate m_dated)
    ∧ (timestamps_parse events → finite (avgSessionLengthMin m)).
Proof.
  intros Hord.
  exists (metrics_of now events feedback posts),
    (metrics_of now (dated events) feedback posts).
  split; [by apply computeMetrics_ordinary|].
  split; [by apply computeMetrics_ordinary, dated_ordinary|].
  destruct (metrics_finite now events feedback posts)
    as (Hact & Heng & Hchurn & Hday1 & Hviral & Hnps & _).
  split; [done|].
  split; [intros Hexact; split; [by apply sumLikes_total|done]|].
  split; [split|].
  - unfold metrics_of. cbn [snapshot dau]. by rewrite recent24h_dated.
  - unfold metrics_of. cbn [snapshot churnRate].
    by rewrite churnRate_raw_dated.
  - intros Hparse. rewrite avgSessionLengthMin_totals.
    destruct (sessionTotals_number events Hparse) as [ms Hms].
    apply finite_round1. unfold avgSessionLengthMin_raw.
    destruct (sessionTotals (grouped events)) as [tot cnt].
    cbn [fst] in Hms. subst tot.
    case_bool_decide; [|apply finite_of_Z].
    apply finite_div_const; [|done].
    by apply finite_div_count; [apply finite_of_Z|].
Qed.

Lemma metrics_well_defined_witness :
  let events := [event_of "first_visit" 0 1; event_of "session_start" 60000 1;
                 {| id := ""; event_name := "qr_scan"; user_pseudo_id := None;
                    created_at := None |}] in
  let posts := [{| likes := Some 2 |}; {| likes := None |};
                {| likes := Some 3 |}] in
  timestamps_parse events ∧ likes_exact posts
  ∧ ∃ m, computeMetrics 0 events [] posts = Some m
         ∧ finite (avgSessionLengthMin m)
         ∧ is_num (totalLikes m) 5 ∧ finite (engagementRate m).
Proof.
  intros events posts.
  assert (Hparse : timestamps_parse events).
  { intros e He Hid. subst events.
    repeat (apply elem_of_cons in He as [->|He]; [by eexists|]).
    apply elem_of_cons in He as [->|He]; [by destruct Hid|].
    by apply elem_of_nil in He. }
  assert (Hord : identities_ordinary events).
  { intros e u He Hu. subst events.
    repeat (apply elem_of_cons in He as [->|He];
            [injection Hu as <-; apply uid_ordinary|]).
    apply elem_of_cons in He as [->|He]; [discriminate Hu|].
    by apply elem_of_nil in He. }
  assert (Hexact : likes_exact posts).
  { split; [repeat constructor; simpl; lia|vm_compute; discriminate]. }
  split; [exact Hparse|]. split; [exact Hexact|].
  destruct (metrics_well_defined 0 events [] posts Hord)
    as (m & _ & Hm & _ & _ & Hlikes & _ & Havg).
  exists m. split; [exact Hm|]. split; [by apply Havg|].
  by apply Hlikes.
Defined.

End MetricsProofs.

(** * Further properties of the quota enforcer *)

Module QuotaExtras.
Import RateLimit QuotaProofs.

(** ** Likes *)

(** X1. For a post whose identifier names no member of [Object.prototype]
    and whatever the store holds, a sequence of like attempts never lowers
    the counter of the post; a counter that was below the ceiling grows by
    the number of attempts on the post until it stands at 5 and there it
    stays, and a counter that was already at or beyond 5 does not move. *)
Theorem likes_counter_run (s : Store) (attempts : list string) (p : string) :
  ordinary p →
  let n := Z.of_nat (length (filter (λ q, q = p) attempts)) in
  ∃ before after : Z,
    getLikesGiven s p = Some before
    ∧ getLikesGiven (run_likes s attempts) p = Some after
    ∧ before <= after
    ∧ after = (if decide (before < 5) then Z.min 5 (before + n) else before).
Proof.
  intros Hp. cbv zeta.
  exists (stored_likes s p), (stored_likes (run_likes s attempts) p).
  split; [by apply getLikesGiven_ordinary|].
  split; [by apply getLikesGiven_ordinary|].
  induction attempts as [|q attempts IH] using rev_ind.
  { simpl. split; [done|]. case_decide; lia. }
  destruct IH as [Hmono Hafter].
  rewrite run_likes_snoc, filter_app, length_app, filter_cons, filter_nil.
  rewrite stored_likes_recordLike.
  assert (Hcan : canLikePost (run_likes s attempts) p
                 = bool_decide (stored_likes (run_likes s attempts) p < 5)).
  { unfold canLikePost. by rewrite (getLikesGiven_ordinary _ _ Hp). }
  set (g := stored_likes (run_likes s attempts) p) in *.
  set (g0 := stored_likes s p) in *.
  destruct (decide (q = p)) as [->|Hne]; simpl.
  - rewrite Hcan. case_bool_decide as Hroom.
    + rewrite (decide_True (P := p = p ∧ _)) by done.
      split; [lia|]. destruct (decide (g0 < 5)); lia.
    + rewrite (decide_False (P := p = p ∧ _)) by (intros [_ ?]; done).
      split; [lia|]. destruct (decide (g0 < 5)); lia.
  - rewrite (decide_False (P := q = p ∧ _)) by tauto. split; [done|].
    rewrite Hafter. destruct (decide (g0 < 5)); [f_equal; lia|done].
Qed.

Lemma likes_counter_run_witness :
  let s := run_likes empty_store ["a"; "a"; "a"] in
  getLikesGiven s "a" = Some 3
  ∧ getLikesGiven (run_likes s ["a"; "b"; "a"; "a"; "a"]) "a" = Some 5.
Proof.
  intros s.
  destruct (likes_counter_run s ["a"; "b"; "a"; "a"; "a"] "a" eq_refl)
    as (before & after & Hbefore & Hafter & _ & Hcount).
  assert (Hthree : before = 3).
  { assert (Hs : getLikesGiven s "a" = Some 3) by (vm_compute; reflexivity).
    congruence. }
  subst before. split; [exact Hbefore|].
  rewrite Hafter, Hcount. reflexivity.
Defined.

(** ** Posts *)

Lemma filter_keeps_all {A} (P : A → Prop) `{!∀ x, Decision (P x)} (l : list A) :
  Forall P l → filter P l = l.
Proof.
  induction 1 as [|x l Hx _ IH]; [done|].
  by rewrite filter_cons_True, IH.
Qed.

Lemma recent_at_later s now t :
  now <= t →
  getRecentPostTimes s t
  = filter (λ x, t - x < POST_WINDOW_MS) (getRecentPostTimes s now).
Proof. intros Hle. unfold getRecentPostTimes. by rewrite recent_filter_mono. Qed.

Lemma recent_length_later s now t :
  now <= t →
  (length (getRecentPostTimes s t) ≤ length (getRecentPostTimes s now))%nat.
Proof. intros Hle. rewrite (recent_at_later s now t Hle). apply length_filter. Qed.

(** X2. [canPost] and [postsRemaining] agree: at one clock reading the post
    is allowed exactly when [postsRemaining] is positive, and [postsRemaining]
    is 3 less the number of stored timestamps younger than ten minutes, never
    below 0 nor above 3. *)
Theorem postsRemaining_agrees (s : Store) (now now' : Z) :
  (allowed (canPost s now now') = true ↔ 0 < postsRemaining s now)
  ∧ 0 <= postsRemaining s now <= 3
  ∧ postsRemaining s now
    = Z.max 0 (3 - Z.of_nat (length (filter (λ t, now - t < 10 * 60 * 1000)
                                            (stored_times s)))).
Proof.
  rewrite canPost_allowed. unfold postsRemaining, POST_LIMIT.
  split_and!; [lia|lia|lia|done].
Qed.

(** X3. Without a new post the answer of [canPost] only improves with time:
    once a post is allowed it stays allowed at every later clock reading, the
    number of posts left never shrinks, and when every stored timestamp is at
    least ten minutes old all 3 posts are available again. *)
Theorem canPost_recovers (s : Store) (now t : Z) :
  now <= t →
  postsRemaining s now <= postsRemaining s t
  ∧ (allowed (canPost s now now) = true → allowed (canPost s t t) = true)
  ∧ (Forall (λ x, x + 10 * 60 * 1000 <= t) (stored_times s) →
     postsRemaining s t = 3 ∧ allowed (canPost s t t) = true).
Proof.
  intros Hle. pose proof (recent_length_later s now t Hle) as Hlen.
  split_and!.
  - unfold postsRemaining. lia.
  - rewrite !canPost_allowed. lia.
  - intros Hold.
    assert (Hnone : getRecentPostTimes s t = []).
    { unfold getRecentPostTimes. fold (stored_times s).
      induction Hold as [|x l Hx _ IH]; [done|].
      rewrite filter_cons_False; [done|]. unfold POST_WINDOW_MS. lia. }
    rewrite canPost_allowed. unfold postsRemaining. rewrite Hnone.
    unfold POST_LIMIT. simpl. split; lia.
Qed.

Lemma canPost_recovers_witness :
  let s := {| sg_likes := None; sg_post_times := Some [0; 1000; 2000];
              sg_last_fetch := None |} in
  5000 <= 602000
  ∧ postsRemaining s 5000 = 0 ∧ postsRemaining s 602000 = 3.
Proof.
  intros s.
  destruct (canPost_recovers s 5000 602000 ltac:(lia)) as (_ & _ & Hall).
  split; [lia|]. split; [reflexivity|].
  apply Hall. repeat constructor; lia.
Defined.

(** X4. The wait that [canPost] reports is the right one.  When a post is
    refused (clock readings [now <= now']) and [w] is the reported number of
    seconds: [w] seconds after [now'] the oldest counted timestamp has left
    the window, so fewer timestamps count, and with exactly 3 counted the
    post is allowed then; up to [w - 1] seconds after [now'] the post is
    still refused; [w] is at least 1 when both readings agree, and at most
    600 when no stored timestamp lies in the future. *)
Theorem waitSeconds_sound (s : Store) (now now' : Z) :
  now <= now' →
  allowed (canPost s now now') = false →
  let w := waitSeconds (canPost s now now') in
  let due := now' + 1000 * w in
  (length (getRecentPostTimes s due) < length (getRecentPostTimes s now))%nat
  ∧ (length (getRecentPostTimes s now) = 3%nat →
     allowed (canPost s due due) = true)
  ∧ (∀ t, now <= t <= now' + 1000 * (w - 1) →
          allowed (canPost s t t) = false)
  ∧ (now' = now → 1 <= w)
  ∧ (Forall (λ x, x <= now') (stored_times s) → w <= 600).
Proof.
  intros Hclk Hrefused.
  assert (Hfull : (POST_LIMIT ≤ length (getRecentPostTimes s now))%nat).
  { destruct (decide (length (getRecentPostTimes s now) < POST_LIMIT)%nat)
      as [Hlt|]; [|lia].
    apply canPost_allowed with (now' := now') in Hlt. congruence. }
  destruct (canPost_closed s now now' Hfull) as (oldest & Hin & Hmin & ->).
  cbn [waitSeconds]. fold (ceil_seconds (POST_WINDOW_MS - (now' - oldest))).
  pose proof (ceil_seconds_spec (POST_WINDOW_MS - (now' - oldest))) as Hceil.
  set (w := ceil_seconds _) in *. cbv zeta.
  pose proof Hin as Hyoung. apply recent_elem in Hyoung as [Hstored Hyoung].
  assert (Hdue : now <= now' + 1000 * w) by lia.
  assert (Hless : (length (getRecentPostTimes s (now' + 1000 * w))
                   < length (getRecentPostTimes s now))%nat).
  { rewrite (recent_at_later s now _ Hdue).
    apply (length_filter_lt _ _ oldest); [done|lia]. }
  split_and!.
  - done.
  - intros Hthree. apply canPost_allowed. unfold POST_LIMIT. lia.
  - intros t [Ht1 Ht2].
    destruct (allowed (canPost s t t)) eqn:Hall; [|done].
    apply canPost_allowed in Hall.
    rewrite (recent_at_later s now t Ht1) in Hall.
    rewrite filter_keeps_all in Hall; [lia|].
    apply Forall_forall. intros x Hx. specialize (Hmin x Hx). lia.
  - intros ->. lia.
  - intros Hpast. rewrite Forall_forall in Hpast.
    specialize (Hpast oldest Hstored). unfold POST_WINDOW_MS in *. lia.
Qed.

Lemma waitSeconds_sound_witness :
  let s := {| sg_likes := None; sg_post_times := Some [0; 1000; 2000];
              sg_last_fetch := None |} in
  canPost s 5000 5000 = {| allowed := false; waitSeconds := 595 |}
  ∧ allowed (canPost s 600000 600000) = true
  ∧ allowed (canPost s 599000 599000) = false.
Proof.
  intros s.
  destruct (waitSeconds_sound s 5000 5000 ltac:(lia) ltac:(reflexivity))
    as (_ & Hthen & Hbefore & _).
  split; [reflexivity|]. split.
  - apply Hthen. reflexivity.
  - apply Hbefore. vm_compute. split; discriminate.
Defined.

(** X5. [recordPost] rewrites the stored array to the timestamps that were
    younger than ten minutes at its first clock reading, followed by the new
    one; and while the new timestamp is itself younger than ten minutes, one
    post fewer is left than there would be without it (never fewer than
    none). *)
Theorem recordPost_uses_one (s : Store) (now now' n : Z) :
  now <= now' → now' <= n → n - now' < 10 * 60 * 1000 →
  stored_times (recordPost s now now') = getRecentPostTimes s now ++ [now']
  ∧ getRecentPostTimes (recordPost s now now') n
    = getRecentPostTimes s n ++ [now']
  ∧ postsRemaining (recordPost s now now') n
    = Z.max 0 (postsRemaining s n - 1).
Proof.
  intros H1 H2 H3.
  assert (Hrecent : getRecentPostTimes (recordPost s now now') n
                    = getRecentPostTimes s n ++ [now']).
  { unfold getRecentPostTimes at 1. cbn [recordPost sg_post_times getJSON].
    rewrite filter_app, <- (recent_at_later s now n) by lia.
    rewrite filter_cons_True by (unfold POST_WINDOW_MS; lia). done. }
  split_and!; [done|done|].
  unfold postsRemaining. rewrite Hrecent, length_app. simpl. lia.
Qed.

Lemma recordPost_uses_one_witness :
  let s := {| sg_likes := None; sg_post_times := Some [0; 590000];
              sg_last_fetch := None |} in
  stored_times (recordPost s 600000 600001) = [590000; 600001]
  ∧ postsRemaining s 600002 = 2
  ∧ postsRemaining (recordPost s 600000 600001) 600002 = 1.
Proof.
  intros s.
  destruct (recordPost_uses_one s 600000 600001 600002
              ltac:(lia) ltac:(lia) ltac:(lia)) as (Hstored & _ & Hleft).
  split; [exact Hstored|]. split; [reflexivity|exact Hleft].
Defined.

(** ** The three policies side by side *)

(** X6. Each of the three writers touches its own key only: recording a post
    or a fetch changes no like counter, recording a like or a fetch changes
    no answer of [canPost], recording a like or a post changes no answer of
    [canFetch]; and two writers of different policies give the same store in
    either order. *)
Theorem policies_independent (s : Store) (p : string) (now now' t : Z) :
  let s1 := (recordLike s p).1 in
  let s2 := recordPost s now now' in
  let s3 := recordFetch s t in
  (∀ q, getLikesGiven s2 q = getLikesGiven s q
        ∧ getLikesGiven s3 q = getLikesGiven s q)
  ∧ (∀ n n', canPost s1 n n' = canPost s n n'
             ∧ canPost s3 n n' = canPost s n n')
  ∧ (∀ n, canFetch s1 n = canFetch s n ∧ canFetch s2 n = canFetch s n)
  ∧ recordPost s1 now now' = (recordLike s2 p).1
  ∧ recordFetch s1 t = (recordLike s3 p).1
  ∧ recordFetch s2 t = recordPost s3 now now'.
Proof.
  cbv zeta.
  assert (Hp : sg_post_times (recordLike s p).1 = sg_post_times s)
    by apply recordLike_post_times.
  assert (Hf : sg_last_fetch (recordLike s p).1 = sg_last_fetch s)
    by apply recordLike_last_fetch.
  split_and!.
  - done.
  - intros n n'. split; [|done].
    unfold canPost, getRecentPostTimes. by rewrite Hp.
  - intros n. split; [|done]. unfold canFetch. by rewrite Hf.
  - unfold recordLike, canLikePost, getLikesGiven.
    cbn [recordPost sg_likes].
    destruct (getJSON (sg_likes s) ∅ !! p); [by case_bool_decide|].
    destruct (JS.inherited p); [done|by case_bool_decide].
  - unfold recordLike, canLikePost, getLikesGiven.
    cbn [recordFetch sg_likes].
    destruct (getJSON (sg_likes s) ∅ !! p); [by case_bool_decide|].
    destruct (JS.inherited p); [done|by case_bool_decide].
  - done.
Qed.

End QuotaExtras.

(** * Properties of the page that creates a post *)

Module CreateProofs.
Import RateLimit QuotaProofs CreatePage.

Lemma handleSubmit_posted s sub :
  (handleSubmit s sub).2 = Posted →
  allowed (canPost s (checkNow sub) (checkNow' sub)) = true
  ∧ (handleSubmit s sub).1 = recordPost s (recordNow sub) (recordNow' sub).
Proof.
  unfold handleSubmit. case_decide; [done|].
  destruct (allowed (canPost s _ _)); [|done]. simpl.
  destruct (uploaded sub) as [[]|], (inserted sub); simpl; done.
Qed.

Lemma handleSubmit_not_posted s sub :
  (handleSubmit s sub).2 ≠ Posted → (handleSubmit s sub).1 = s.
Proof.
  unfold handleSubmit. case_decide; [done|].
  destruct (allowed (canPost s _ _)); [|done]. simpl.
  destruct (uploaded sub) as [[]|], (inserted sub); simpl; done.
Qed.

Lemma run_inv_later s h clk clk' permit :
  clk <= clk' → run_inv s h clk permit → run_inv s h clk' false.
Proof.
  intros Hle [Hrec Hwin Hlen _]. split; [|done|done|done].
  intros n Hn. apply Hrec. lia.
Qed.

Lemma run_inv_page evs : ∀ s h clk,
  run_inv s h clk false →
  page_clock clk evs →
  ∃ clk', run_inv (run_page s evs) (h ++ posted s evs) clk' false.
Proof.
  induction evs as [|[now now' now''|sub] evs IH]; intros s h clk Hinv Hclk.
  - exists clk. simpl. by rewrite app_nil_r.
  - destruct Hclk as (H1 & H2 & H3 & Hclk). simpl.
    apply (IH s h now''); [|done].
    apply (run_inv_later s h clk now'' false); [lia|done].
  - destruct Hclk as (H1 & H2 & H3 & H4 & Hclk).
    cbn [run_page foldl posted]. fold (run_page (page_step s (Submit sub)) evs).
    destruct ((handleSubmit s sub).2) eqn:Hout;
      try (cbn [page_step]; rewrite handleSubmit_not_posted by congruence;
           simpl; apply (IH s h (recordNow' sub)); [|done];
           apply (run_inv_later s h clk _ false); [lia|done]).
    apply handleSubmit_posted in Hout as [Hallowed Hstore].
    cbn [page_step]. rewrite Hstore, app_assoc.
    apply (IH _ (h ++ [recordNow' sub]) (recordNow' sub)); [|done].
    apply (run_inv_recordPost s h (checkNow' sub)); [done|done|].
    rewrite <- Hallowed. by apply (run_inv_canPost s h clk false).
Qed.



(** X8. [handleSubmit] leaves the store as it found it unless it reaches its
    end; it reaches its end only with a text that is not blank, a [canPost]
    that allowed the post, no failed upload and a successful insert; and
    when the interval [check] has just shown the page as not rate-limited,
    a later submission with the store unchanged is never refused for the
    quota. *)
Theorem handleSubmit_outcomes (s : Store) (sub : Submission) (now now' now'' : Z) :
  ((handleSubmit s sub).2 ≠ Posted → (handleSubmit s sub).1 = s)
  ∧ ((handleSubmit s sub).2 = Posted ↔
       trimmed sub ≠ ""
       ∧ allowed (canPost s (checkNow sub) (checkNow' sub)) = true
       ∧ uploaded sub ≠ Some false ∧ inserted sub = true)
  ∧ (rateLimited (check s now now' now'') = false →
     now <= checkNow sub →
     ∀ w, (handleSubmit s sub).2 ≠ Refused w).
Proof.
  split_and!.
  - apply handleSubmit_not_posted.
  - unfold handleSubmit. case_decide as Hblank; [naive_solver|].
    destruct (allowed (canPost s _ _)); simpl; [|naive_solver].
    destruct (uploaded sub) as [[]|], (inserted sub); simpl; naive_solver.
  - unfold check. cbn [rateLimited]. intros Hshown Hle w.
    apply negb_false_iff in Hshown. apply canPost_allowed in Hshown.
    assert (Hallowed : allowed (canPost s (checkNow sub) (checkNow' sub)) = true).
    { apply canPost_allowed. unfold getRecentPostTimes in *.
      eapply Nat.le_lt_trans; [apply (recent_length_mono _ now _ Hle)|done]. }
    unfold handleSubmit. case_decide; [done|]. rewrite Hallowed. simpl.
    destruct (uploaded sub) as [[]|], (inserted sub); simpl; done.
Qed.

(** ** [formatWait] *)

Lemma pretty_N_char_digit x : digit (pretty_N_char x) = true.
Proof. unfold pretty_N_char. repeat case_match; by vm_compute. Qed.

Lemma pretty_N_go_digits x : ∀ s,
  digits s = true → digits (pretty_N_go x s) = true.
Proof.
  induction (N.lt_wf_0 x) as [x _ IH]. intros s Hs.
  destruct (decide (x = 0)%N) as [->|Hx]; [by rewrite pretty_N_go_0|].
  rewrite pretty_N_go_step by lia. apply IH.
  - apply N.div_lt; lia.
  - simpl. by rewrite pretty_N_char_digit.
Qed.

Lemma pretty_Z_digits (z : Z) : 0 <= z → digits (pretty z) = true.
Proof.
  intros Hz. destruct z as [|p|p]; [done| |lia].
  unfold pretty, pretty_Z, pretty, pretty_positive, pretty, pretty_N.
  case_decide; [done|]. by apply pretty_N_go_digits.
Qed.

Lemma digits_split (a a' : string) (c c' : Ascii.ascii) (r r' : string) :
  digits a = true → digits a' = true → digit c = false → digit c' = false →
  a +:+ String c r = a' +:+ String c' r' → a = a' ∧ c = c' ∧ r = r'.
Proof.
  revert a'. induction a as [|x a IH]; intros [|x' a'] Ha Ha' Hc Hc' Heq;
    simpl in *.
  - by injection Heq as -> ->.
  - injection Heq as -> _. apply andb_true_iff in Ha' as [Hx' _]. congruence.
  - injection Heq as -> _. apply andb_true_iff in Ha as [Hx _]. congruence.
  - injection Heq as -> Heq.
    apply andb_true_iff in Ha as [_ Ha]. apply andb_true_iff in Ha' as [_ Ha'].
    destruct (IH a' Ha Ha' Hc Hc' Heq) as (-> & -> & ->). done.
Qed.

(** Below zero two waits can print as the same text. *)
Lemma formatWait_negative_clash : formatWait (-5) = formatWait (-65).
Proof. reflexivity. Qed.

(** X26. [formatWait] shows every wait in its own way: two numbers of
    seconds that are not negative and differ are never printed as the same
    text. *)
Theorem formatWait_inj (a b : Z) :
  0 <= a → 0 <= b → formatWait a = formatWait b → a = b.
Proof.
  intros Ha Hb. unfold formatWait.
  rewrite !Z.rem_mod_nonneg by lia.
  pose proof (Z.div_mod a 60 ltac:(lia)) as Hda.
  pose proof (Z.div_mod b 60 ltac:(lia)) as Hdb.
  pose proof (Z.mod_pos_bound a 60 ltac:(lia)) as Hma.
  pose proof (Z.mod_pos_bound b 60 ltac:(lia)) as Hmb.
  assert (Hqa : 0 <= a / 60) by (apply Z.div_pos; lia).
  assert (Hqb : 0 <= b / 60) by (apply Z.div_pos; lia).
  set (ma := a / 60) in *. set (sa := a `mod` 60) in *.
  set (mb := b / 60) in *. set (sb := b `mod` 60) in *.
  clearbody ma sa mb sb.
  repeat case_bool_decide; intros Heq.
  - apply digits_split in Heq as (Hpm & _ & Heq);
      [|apply pretty_Z_digits; lia..|by vm_compute|by vm_compute].
    injection Heq as Heq.
    apply digits_split in Heq as (Hps & _ & _);
      [|apply pretty_Z_digits; lia..|by vm_compute|by vm_compute].
    apply (inj pretty) in Hpm, Hps. lia.
  - apply digits_split in Heq as (_ & Hc & _);
      [|apply pretty_Z_digits; lia..|by vm_compute|by vm_compute]. discriminate Hc.
  - apply digits_split in Heq as (_ & Hc & _);
      [|apply pretty_Z_digits; lia..|by vm_compute|by vm_compute]. discriminate Hc.
  - apply digits_split in Heq as (Hps & _ & _);
      [|apply pretty_Z_digits; lia..|by vm_compute|by vm_compute].
    apply (inj pretty) in Hps. lia.
Qed.

Lemma formatWait_inj_witness :
  0 <= 125 ∧ formatWait 125 = "2m 5s" ∧ formatWait 59 = "59s"
  ∧ (∀ b, 0 <= b → formatWait b = "2m 5s" → b = 125).
Proof.
  split; [lia|]. split; [reflexivity|]. split; [reflexivity|].
  intros b Hb Heq. symmetry.
  apply (formatWait_inj 125 b); [lia|exact Hb|]. by rewrite Heq.
Defined.

End CreateProofs.

(** * Properties of the feed *)

Module HomeProofs.
Import RateLimit QuotaProofs Home.

(** ** Pages of posts *)

(** X9. Appending a page never shows a post twice: when neither the posts on
    screen nor the fetched rows repeat an identifier, the merged list does not
    either.  The posts on screen stay where they are, in front; the merged
    list holds the identifiers of both lists and no other; and a post that
    was on screen is kept as it was, its fetched copy being dropped. *)
Theorem mergePage_no_duplicates (prev fetched : list Post) :
  NoDup (id <$> prev) → NoDup (id <$> fetched) →
  NoDup (id <$> mergePage prev fetched)
  ∧ prev `prefix_of` mergePage prev fetched
  ∧ (∀ i, i ∈ id <$> mergePage prev fetched
          ↔ i ∈ id <$> prev ∨ i ∈ id <$> fetched)
  ∧ (∀ p, p ∈ mergePage prev fetched → id p ∈ id <$> prev → p ∈ prev).
Proof.
  intros Hprev Hfetched. unfold mergePage.
  set (fresh := filter _ fetched).
  assert (Hfresh : ∀ p, p ∈ fresh ↔ (id p ∉ id <$> prev) ∧ p ∈ fetched).
  { intros p. unfold fresh. rewrite list_elem_of_filter, elem_of_list_to_set. done. }
  split_and!.
  - rewrite fmap_app. apply NoDup_app. split_and!; [done| |].
    + intros i Hi (p & -> & Hp)%list_elem_of_fmap.
      apply Hfresh in Hp as [Hnew _]. done.
    + unfold fresh. clear Hfresh fresh.
      induction fetched as [|p fetched IH]; [constructor|].
      apply NoDup_cons in Hfetched as [Hp Hfetched].
      rewrite filter_cons. case_decide; [|by apply IH].
      rewrite fmap_cons. apply NoDup_cons. split; [|by apply IH].
      intros (q & Hq & Hin)%list_elem_of_fmap.
      apply list_elem_of_filter in Hin as [_ Hin].
      apply Hp. rewrite Hq. by apply list_elem_of_fmap_2.
  - by apply prefix_app_r.
  - intros i. rewrite fmap_app, elem_of_app. split.
    + intros [Hi|(p & -> & Hp)%list_elem_of_fmap]; [by left|].
      right. apply Hfresh in Hp as [_ Hp]. by apply list_elem_of_fmap_2.
    + intros [Hi|(p & -> & Hp)%list_elem_of_fmap]; [by left|].
      destruct (decide (id p ∈ id <$> prev)) as [Hold|Hnew]; [by left|].
      right. apply list_elem_of_fmap_2. by apply Hfresh.
  - intros p [Hp|Hp]%elem_of_app Hold; [done|].
    apply Hfresh in Hp as [Hnew _]. done.
Qed.

Lemma mergePage_no_duplicates_witness :
  let post i n := {| id := i; content := ""; media_url := None;
                     media_type := None; likes := n; created_at := Some 0 |} in
  let prev := [post "a" 1; post "b" 2] in
  let fetched := [post "b" 7; post "c" 3] in
  mergePage prev fetched = [post "a" 1; post "b" 2; post "c" 3]
  ∧ NoDup (id <$> mergePage prev fetched).
Proof.
  intros post prev fetched. split; [reflexivity|].
  apply (mergePage_no_duplicates prev fetched).
  - vm_compute. repeat constructor; set_solver.
  - vm_compute. repeat constructor; set_solver.
Defined.

(** ** Likes *)

Lemma ordinary_not_proto i : ordinary i → i ≠ "__proto__".
Proof. by intros Hi ->. Qed.

Lemma lookup_assign key value map i :
  i ≠ "__proto__" →
  assign key value map !! i = if decide (key = i) then Some value else map !! i.
Proof.
  intros Hi. unfold assign.
  destruct (decide (key = "__proto__")) as [->|Hkey].
  - by rewrite decide_False.
  - destruct (decide (key = i)) as [->|Hne].
    + by rewrite lookup_insert_eq.
    + by rewrite lookup_insert_ne.
Qed.

Lemma syncLikesLeft_lookup s (l : list Post) i :
  i ≠ "__proto__" →
  syncLikesLeft s l !! i
  = if decide (i ∈ id <$> l) then Some (remainingLikes s i) else None.
Proof.
  intros Hi. unfold syncLikesLeft.
  induction l as [|p l IH] using rev_ind.
  { cbn [foldl]. rewrite lookup_empty. case_decide; [set_solver|done]. }
  rewrite foldl_app, fmap_app. cbn [foldl fmap list_fmap].
  rewrite lookup_assign by done.
  destruct (decide (id p = i)) as [<-|Hne].
  - rewrite decide_True; [done|]. set_solver.
  - rewrite IH.
    destruct (decide (i ∈ id <$> l)).
    + rewrite decide_True; [done|]. set_solver.
    + rewrite decide_False; [done|]. set_solver.
Qed.

Lemma likes_in_sync_sync s (l : list Post) sf more page :
  sg_likes sf = sg_likes s →
  likes_in_sync {| store := sf; posts := l; likesLeft := syncLikesLeft s l;
                   hasMore := more; pageRef := page |}.
Proof.
  intros Hsame p Hp Hord. cbn [posts likesLeft store] in *.
  rewrite syncLikesLeft_lookup by (by apply ordinary_not_proto).
  rewrite decide_True by (by apply list_elem_of_fmap_2).
  unfold remainingLikes, getLikesGiven. by rewrite Hsame.
Qed.

Lemma likes_in_sync_fetchInitialPosts st response :
  likes_in_sync st → likes_in_sync (fetchInitialPosts st response).
Proof.
  intros Hinv. destruct response as [fetched|]; simpl.
  - by apply likes_in_sync_sync.
  - exact Hinv.
Qed.

Lemma likes_in_sync_fetchNextPage st response :
  likes_in_sync st → likes_in_sync (fetchNextPage st response).
Proof.
  intros Hinv. unfold fetchNextPage.
  destruct (hasMore st); simpl; [|done].
  destruct response as [fetched|]; [|done].
  case_bool_decide; [|exact Hinv].
  by apply likes_in_sync_sync.
Qed.

Lemma likes_in_sync_handleRefresh st now now' response :
  likes_in_sync st → likes_in_sync (handleRefresh st now now' response).1.
Proof.
  intros Hinv. unfold handleRefresh.
  destruct (canFetch (store st) now); simpl; [|done].
  apply likes_in_sync_fetchInitialPosts. exact Hinv.
Qed.

Lemma setLikes_ids i n (l : list Post) : id <$> setLikes i n l = id <$> l.
Proof.
  unfold setLikes. induction l as [|p l IH]; [done|].
  rewrite !fmap_cons, IH. f_equal. by case_decide.
Qed.

Lemma elem_of_setLikes_id i n (l : list Post) p :
  p ∈ setLikes i n l → id p ∈ id <$> l.
Proof.
  intros Hp. rewrite <- (setLikes_ids i n). by apply list_elem_of_fmap_2.
Qed.

Lemma setLikes_undo i n (l : list Post) m :
  (∀ p, p ∈ l → id p = i → likes p = n) →
  setLikes i n (setLikes i m l) = l.
Proof.
  intros Hshown. unfold setLikes. induction l as [|p l IH]; [done|].
  rewrite !fmap_cons, IH by (intros q Hq; apply Hshown; by right).
  f_equal. destruct (decide (id p = i)) as [Hi|Hi]; simpl.
  - rewrite decide_True by done. destruct p as [pi pc pu pt pl pa]; simpl in *.
    f_equal. symmetry. apply (Hshown (mkFeedPost pi pc pu pt pl pa)); [left|done].
  - by rewrite decide_False.
Qed.

Lemma remainingLikes_other s i q :
  i ≠ q → remainingLikes (recordLike s i).1 q = remainingLikes s q.
Proof. intros Hne. unfold remainingLikes. by rewrite recordLike_other. Qed.

(** An accepted like leaves one like fewer. *)
Lemma remainingLikes_spent s i :
  canLikePost s i = true →
  ∃ r, remainingLikes s i = Some r
       ∧ remainingLikes (recordLike s i).1 i = Some (r - 1).
Proof.
  intros (given & Hgiven & Hlt)%canLikePost_spec.
  destruct (getLikesGiven_accepted s i given Hgiven Hlt) as [_ Hnext].
  exists (Z.max 0 (LIKE_LIMIT_PER_POST - given)).
  unfold remainingLikes. rewrite Hgiven, Hnext. split; [done|].
  f_equal. lia.
Qed.

Lemma handleLike_rejected st i cur updated :
  canLikePost (store st) i = false → handleLike st i cur updated = (st, None).
Proof. intros Hcan. unfold handleLike. by rewrite Hcan. Qed.

Lemma handleLike_accepted st i cur updated :
  canLikePost (store st) i = true →
  handleLike st i cur updated
  = ({| store := (recordLike (store st) i).1;
        posts := if updated then setLikes i (cur + 1) (posts st)
                 else setLikes i cur (setLikes i (cur + 1) (posts st));
        likesLeft := <[i := remainingLikes (recordLike (store st) i).1 i]>
                       (likesLeft st);
        hasMore := hasMore st; pageRef := pageRef st |},
     Some (i, cur + 1)).
Proof.
  intros Hcan. unfold handleLike. rewrite Hcan. simpl.
  pose proof Hcan as (given & Hgiven & Hlt)%canLikePost_spec.
  by rewrite (recordLike_accepted _ _ _ Hgiven Hlt).
Qed.

Lemma handleLike_store st i cur updated :
  store (handleLike st i cur updated).1 = (recordLike (store st) i).1.
Proof.
  destruct (canLikePost (store st) i) eqn:Hcan.
  - by rewrite handleLike_accepted.
  - rewrite handleLike_rejected by done. by rewrite recordLike_rejected.
Qed.

Lemma handleLike_request st i cur updated :
  (handleLike st i cur updated).2
  = if canLikePost (store st) i then Some (i, cur + 1) else None.
Proof.
  destruct (canLikePost (store st) i) eqn:Hcan.
  - by rewrite handleLike_accepted.
  - by rewrite handleLike_rejected.
Qed.

Lemma likes_in_sync_handleLike st i cur updated :
  likes_in_sync st → likes_in_sync (handleLike st i cur updated).1.
Proof.
  intros Hinv.
  destruct (canLikePost (store st) i) eqn:Hcan;
    [|by rewrite handleLike_rejected].
  rewrite handleLike_accepted by done. intros p. cbn [fst posts likesLeft store].
  intros Hp Hord.
  assert (Hid : id p ∈ id <$> posts st).
  { destruct updated; apply elem_of_setLikes_id in Hp; [done|].
    by rewrite setLikes_ids in Hp. }
  apply list_elem_of_fmap in Hid as (q & Hq & Hin).
  destruct (decide (id p = i)) as [->|Hne].
  - by rewrite lookup_insert_eq.
  - rewrite lookup_insert_ne by done. rewrite Hq in Hord |- *.
    rewrite (Hinv q Hin Hord). f_equal. symmetry.
    apply remainingLikes_other. congruence.
Qed.

Lemma likes_in_sync_run evs : ∀ st,
  likes_in_sync st → likes_in_sync (run_home st evs).
Proof.
  induction evs as [|ev evs IH]; intros st Hinv; [done|].
  apply IH. destruct ev as [now now' response|response|i cur updated]; simpl.
  - by apply likes_in_sync_handleRefresh.
  - by apply likes_in_sync_fetchNextPage.
  - by apply likes_in_sync_handleLike.
Qed.

(** X10. The like buttons of the feed tell the truth.  After the page is
    mounted, and after any sequence of refreshes, further pages and likes,
    whatever the database answers: for every post on screen whose identifier
    names no member of [Object.prototype], as the identifiers of the posts
    table do, the number shown on its like button is [remainingLikes] of the
    post, a number, and the button is disabled exactly when [canLikePost]
    refuses the post. *)
Theorem like_buttons_in_sync (s : Store) (now : Z)
    (response : option (list Post)) (evs : list HomeEvent) (p : Post) :
  let st := run_home (mount s now response) evs in
  p ∈ posts st → ordinary (id p) →
  ∃ n : Z,
    left st (id p) = Some n
    ∧ remainingLikes (store st) (id p) = Some n
    ∧ maxedOut st (id p) = negb (canLikePost (store st) (id p)).
Proof.
  intros st Hp Hord.
  assert (Hinv : likes_in_sync st).
  { apply likes_in_sync_run, likes_in_sync_fetchInitialPosts.
    intros q Hq. simpl in Hq. by apply elem_of_nil in Hq. }
  pose proof (getLikesGiven_ordinary (store st) (id p) Hord) as Hgiven.
  unfold maxedOut, left. rewrite (Hinv p Hp Hord).
  unfold remainingLikes, canLikePost. rewrite Hgiven.
  eexists. split; [done|]. split; [done|].
  unfold LIKE_LIMIT_PER_POST.
  repeat case_bool_decide; simpl; try done; lia.
Qed.

Lemma like_buttons_in_sync_witness :
  let post i := {| id := i; content := EmptyString; media_url := None;
                   media_type := None; likes := 0; created_at := Some 0 |} in
  let likes5 := [Like "a" 0 true; Like "a" 1 true; Like "a" 2 false;
                 Like "a" 2 true; Like "a" 3 true; Like "a" 4 true] in
  let st := run_home (mount empty_store 0 (Some [post "a"; post "b"])) likes5 in
  post "b" ∈ posts st
  ∧ left st "b" = Some 5 ∧ maxedOut st "b" = false
  ∧ left st "a" = Some 0 ∧ maxedOut st "a" = true.
Proof.
  intros post likes5 st.
  assert (Hb : post "b" ∈ posts st)
    by (vm_compute; apply list_elem_of_further, list_elem_of_here).
  split; [exact Hb|].
  assert (Hord : ordinary (id (post "b"))) by (vm_compute; reflexivity).
  destruct (like_buttons_in_sync empty_store 0 (Some [post "a"; post "b"])
              likes5 (post "b") Hb Hord) as (n & Hleft & Hrem & Hmax).
  assert (Hfive : remainingLikes (store st) "b" = Some 5)
    by (vm_compute; reflexivity).
  change (id (post "b")) with "b" in Hleft, Hrem, Hmax.
  fold st in Hleft, Hrem, Hmax.
  assert (n = 5) as -> by congruence.
  split; [exact Hleft|].
  split; [transitivity (negb (canLikePost (store st) "b"));
            [exact Hmax|vm_compute; reflexivity]|].
  split; vm_compute; reflexivity.
Defined.

(** A row named after a member of [Object.prototype] shows what the
    hypothesis on the identifier is for: the button stays enabled while every
    like is refused. *)
Lemma like_button_of_inherited_name :
  let post := {| id := "constructor"; content := EmptyString; media_url := None;
                 media_type := None; likes := 0; created_at := Some 0 |} in
  let st := mount empty_store 0 (Some [post]) in
  left st "constructor" = None
  ∧ maxedOut st "constructor" = false
  ∧ canLikePost (store st) "constructor" = false
  ∧ handleLike st "constructor" 0 true = (st, None).
Proof. intros post st. split_and!; vm_compute; reflexivity. Qed.

Lemma store_home_step_likes st ev i :
  stored_likes (store (home_step st ev)) i
  = match ev with
    | Like j _ _ =>
        if decide (j = i ∧ canLikePost (store st) j = true)
        then stored_likes (store st) i + 1 else stored_likes (store st) i
    | _ => stored_likes (store st) i
    end.
Proof.
  destruct ev as [now now' response|response|j cur updated]; simpl.
  - unfold handleRefresh. destruct (canFetch (store st) now); simpl; [|done].
    by destruct response.
  - unfold fetchNextPage. destruct (hasMore st); simpl; [|done].
    destruct response as [fetched|]; [|done]. by case_bool_decide.
  - rewrite handleLike_store. apply stored_likes_recordLike.
Qed.

(** X11. Every update of a number of likes that the feed sends is paid for
    in the store: over any sequence of refreshes, pages and likes, the number
    of updates sent for a post is the growth of the count that [sg_likes]
    holds for the post.  So a device whose count for the post was [g], at
    most 5, sends at most [5 - g] updates for it, and the count never passes
    5. *)
Theorem like_updates_are_counted (st : State) (evs : list HomeEvent) (i : string) :
  let sent := Z.of_nat (length (filter (λ u, u.1 = i) (updates st evs))) in
  let before := stored_likes (store st) i in
  let after := stored_likes (store (run_home st evs)) i in
  sent = after - before
  ∧ (before <= 5 → after <= 5 ∧ sent <= 5 - before).
Proof.
  cbv zeta. revert st.
  induction evs as [|ev evs IH]; intros st; [simpl; lia|].
  cbn [updates run_home foldl]. fold (run_home (home_step st ev) evs).
  specialize (IH (home_step st ev)). destruct IH as [IHsent IHcap].
  rewrite filter_app, length_app, Nat2Z.inj_add, IHsent.
  rewrite store_home_step_likes in IHcap |- *.
  destruct ev as [now now' response|response|j cur updated];
    cbn [filter list_filter length];
    [split; [lia|intros Hb; destruct (IHcap Hb); lia]..|].
  rewrite handleLike_request.
  assert (Hroom : canLikePost (store st) j = true →
                  stored_likes (store st) j < 5).
  { intros (given & Hgiven & Hlt)%canLikePost_spec.
    apply getLikesGiven_Some in Hgiven as <-. exact Hlt. }
  set (g := stored_likes (store st)) in *.
  set (after := stored_likes (store (run_home _ evs)) i) in *.
  set (rest := Z.of_nat (length (filter _ (updates _ evs)))) in *.
  destruct (canLikePost (store st) j) eqn:Hcan; simpl (option_list _).
  - specialize (Hroom eq_refl).
    destruct (decide (j = i)) as [->|Hne].
    + rewrite (decide_True (P := i = i ∧ _)) in * by done.
      rewrite filter_cons_True by done. simpl length.
      split; [lia|]. intros Hb. destruct IHcap; lia.
    + rewrite (decide_False (P := j = i ∧ _)) in * by tauto.
      rewrite filter_cons_False by done. simpl length.
      split; [lia|]. intros Hb. destruct (IHcap Hb). lia.
  - rewrite (decide_False (P := j = i ∧ _)) in * by (intros [_ ?]; done).
    simpl length. split; [lia|]. intros Hb. destruct (IHcap Hb). lia.
Qed.

(** X12. A like whose update fails is lost to the visitor.  When [handleLike]
    is called with the number of likes that is on screen and the update of
    the row fails, the update was sent with that number plus one, the posts
    on screen are again what they were, and yet one like fewer is left for
    the post, in the store and on its button. *)
Theorem failed_like_is_spent (st : State) (i : string) (cur : Z) :
  canLikePost (store st) i = true →
  (∀ p, p ∈ posts st → id p = i → likes p = cur) →
  let st' := (handleLike st i cur false).1 in
  (handleLike st i cur false).2 = Some (i, cur + 1)
  ∧ posts st' = posts st
  ∧ ∃ r : Z,
      remainingLikes (store st) i = Some r
      ∧ remainingLikes (store st') i = Some (r - 1)
      ∧ left st' i = Some (r - 1).
Proof.
  intros Hcan Hshown. cbv zeta. rewrite handleLike_accepted by done.
  cbn [fst snd store posts likesLeft].
  destruct (remainingLikes_spent _ _ Hcan) as (r & Hr & Hr').
  split_and!.
  - done.
  - by apply setLikes_undo.
  - exists r. split_and!; [done..|].
    unfold left. cbn [likesLeft]. by rewrite lookup_insert_eq.
Qed.

Lemma failed_like_is_spent_witness :
  let post := {| id := "a"; content := EmptyString; media_url := None;
                 media_type := None; likes := 7; created_at := Some 0 |} in
  let st := mount empty_store 0 (Some [post]) in
  let st' := (handleLike st "a" 7 false).1 in
  posts st' = [post] ∧ left st "a" = Some 5 ∧ left st' "a" = Some 4.
Proof.
  intros post st st'.
  assert (Hcan : canLikePost (store st) "a" = true)
    by (vm_compute; reflexivity).
  assert (Hshown : ∀ p, p ∈ posts st → id p = "a" → likes p = 7).
  { intros p Hp _. apply list_elem_of_singleton in Hp. by subst p. }
  destruct (failed_like_is_spent st "a" 7 Hcan Hshown) as (_ & Hposts & _).
  split; [exact Hposts|split; vm_compute; reflexivity].
Defined.

(** ** Refreshes *)

Lemma lastFetch_home_step st ev :
  lastFetch (home_step st ev)
  = match ev with
    | Refresh now now' response =>
        if (handleRefresh st now now' response).2 then now' else lastFetch st
    | _ => lastFetch st
    end.
Proof.
  unfold lastFetch.
  destruct ev as [now now' response|response|j cur updated]; simpl.
  - unfold handleRefresh. destruct (canFetch (store st) now); simpl; [|done].
    by destruct response.
  - unfold fetchNextPage. destruct (hasMore st); simpl; [|done].
    destruct response as [fetched|]; [|done]. by case_bool_decide.
  - by rewrite handleLike_store, recordLike_last_fetch.
Qed.

Lemma handleRefresh_fetches st now now' response :
  (handleRefresh st now now' response).2 = true ↔ lastFetch st + 3000 <= now.
Proof.
  unfold handleRefresh, canFetch, lastFetch, FETCH_COOLDOWN_MS.
  case_bool_decide; simpl; split; intros; try done; lia.
Qed.

Lemma refreshes_spaced evs : ∀ st,
  (∀ a b, head (refreshes st evs) = Some (a, b) → lastFetch st + 3000 <= a)
  ∧ (∀ k a b a' b', refreshes st evs !! k = Some (a, b) →
                    refreshes st evs !! S k = Some (a', b') →
                    b + 3000 <= a').
Proof.
  induction evs as [|ev evs IH]; intros st; [done|].
  destruct (IH (home_step st ev)) as [IHhead IHnext].
  rewrite lastFetch_home_step in IHhead.
  cbn [refreshes].
  destruct ev as [now now' response|response|j cur updated];
    try (rewrite app_nil_l; by split).
  destruct ((handleRefresh st now now' response).2) eqn:Hfetched;
    [|rewrite app_nil_l; by split].
  apply handleRefresh_fetches in Hfetched. split.
  - intros a b [= <- <-]. done.
  - intros [|k] a b a' b'; simpl.
    + intros [= <- <-] Hnext. apply (IHhead a' b').
      by rewrite head_lookup.
    + apply IHnext.
Qed.

(** X13. Refreshes keep their distance.  On a page mounted at the clock
    reading [t0], whatever the visitor does: the first refresh that fetches
    the posts reads a clock at least 3000 ms after [t0], and every later one
    reads a clock at least 3000 ms after the reading that the refresh before
    it recorded. *)
Theorem refreshes_keep_distance (s : Store) (t0 : Z)
    (response : option (list Post)) (evs : list HomeEvent) :
  let rs := refreshes (mount s t0 response) evs in
  (∀ a b, head rs = Some (a, b) → t0 + 3000 <= a)
  ∧ (∀ k a b a' b', rs !! k = Some (a, b) → rs !! S k = Some (a', b') →
                    b + 3000 <= a').
Proof.
  intros rs.
  destruct (refreshes_spaced evs (mount s t0 response)) as [Hhead Hnext].
  split; [|exact Hnext].
  intros a b Hab. specialize (Hhead a b Hab).
  by destruct response.
Qed.

(** ** [timeAgo] *)

(** X14. What [timeAgo] prints.  For a date, with [age] the milliseconds
    since then: below one minute the whole seconds, below one hour the whole
    minutes, below one day the whole hours, and from then on the whole days,
    each rounded down; an age below zero prints as a negative number of
    seconds.  For a string that is not a date it prints [NaNd]. *)
Theorem timeAgo_spec (now : Z) (t : Aggregator.time) :
  timeAgo now t
  = match t with
    | None => "NaNd"
    | Some t =>
        let age := now - t in
        if decide (age < 60 * 1000) then pretty (age / 1000) +:+ "s"
        else if decide (age < 60 * 60 * 1000)
             then pretty (age / (60 * 1000)) +:+ "m"
        else if decide (age < 24 * 60 * 60 * 1000)
             then pretty (age / (60 * 60 * 1000)) +:+ "h"
        else pretty (age / (24 * 60 * 60 * 1000)) +:+ "d"
    end.
Proof.
  destruct t as [t|]; [|done].
  unfold timeAgo, floor_div, Aggregator.num_sub, Aggregator.num_lt, show.
  cbn [fmap option_fmap option_map]. cbv zeta.
  set (age := now - t).
  assert (Hm : age / 1000 / 60 = age / (60 * 1000))
    by (Z.div_mod_to_equations; lia).
  assert (Hh : age / 1000 / 60 / 60 = age / (60 * 60 * 1000))
    by (Z.div_mod_to_equations; lia).
  assert (Hd : age / 1000 / 60 / 60 / 24 = age / (24 * 60 * 60 * 1000))
    by (Z.div_mod_to_equations; lia).
  rewrite Hd, Hh, Hm.
  repeat case_bool_decide; repeat case_decide; try done;
    exfalso; Z.div_mod_to_equations; lia.
Qed.

(** ** The masonry engine *)

Lemma shortestColumn_spec (H : list Z) :
  H ≠ [] →
  ∃ m, H !! shortestColumn H = Some m ∧ ∀ j v, H !! j = Some v → m <= v.
Proof.
  intros Hne. destruct H as [|h hs]; [done|].
  unfold shortestColumn, minHeight. cbn [mbind option_bind].
  set (m := Math_min h hs).
  destruct (list_find (λ v, v = m) (h :: hs)) as [[c v]|] eqn:Hfind.
  - apply list_find_Some in Hfind as (Hc & -> & _). exists m. split; [done|].
    intros j v Hj. apply Math_min_le. by eapply list_elem_of_lookup_2.
  - apply list_find_None in Hfind. rewrite Forall_forall in Hfind.
    destruct (Hfind m); [apply Math_min_elem|done].
Qed.

Lemma placeCards_cons w H h rest :
  placeCards w H (h :: rest)
  = let c0 := shortestColumn H in
    let m := default 0 (H !! c0) in
    let r := placeCards w (<[c0 := m + (h + MASONRY_GAP)]> H) rest in
    ({| column := c0;
        x := offsetX w c0;
        y := m |} :: r.1, r.2).
Proof. cbn [placeCards]. cbv zeta. by destruct (placeCards _ _ rest). Qed.

Lemma placeCards_spec w (heights : list Z) : ∀ (H : list Z),
  H ≠ [] → Forall (λ h, 0 <= h) heights →
  let cards := (placeCards w H heights).1 in
  let F := (placeCards w H heights).2 in
  length cards = length heights
  ∧ length F = length H
  ∧ (∀ j v, H !! j = Some v → ∃ v', F !! j = Some v' ∧ v <= v')
  ∧ (∀ k c h, cards !! k = Some c → heights !! k = Some h →
       x c = offsetX w (column c)
       ∧ ∃ v v', H !! column c = Some v ∧ F !! column c = Some v'
                 ∧ v <= y c ∧ y c + h + MASONRY_GAP <= v')
  ∧ (∀ k c lb, cards !! k = Some c →
       (∀ j v, H !! j = Some v → lb <= v) → lb <= y c)
  ∧ (∀ k k' c c' h, (k < k')%nat →
       cards !! k = Some c → cards !! k' = Some c' → heights !! k = Some h →
       y c <= y c'
       ∧ (column c = column c' → y c + h + MASONRY_GAP <= y c')).
Proof.
  induction heights as [|h rest IH]; intros H Hne Hpos; cbv zeta.
  { cbn [placeCards fst snd]. split_and!; try done. intros j v Hj. by exists v. }
  apply Forall_cons in Hpos as [Hh Hpos].
  rewrite placeCards_cons. cbv zeta. cbn [fst snd].
  destruct (shortestColumn_spec H Hne) as (m & Hc0 & Hmin).
  set (c0 := shortestColumn H) in *. rewrite Hc0.
  change (default 0 (Some m)) with m.
  set (H' := <[c0 := m + (h + MASONRY_GAP)]> H).
  assert (Hlt : (c0 < length H)%nat) by (by eapply lookup_lt_Some).
  assert (Hne' : H' ≠ []).
  { intros Hnil. apply (f_equal length) in Hnil. unfold H' in Hnil.
    rewrite length_insert in Hnil. simpl in Hnil. lia. }
  assert (Hat : H' !! c0 = Some (m + (h + MASONRY_GAP)))
    by (by apply list_lookup_insert_eq).
  assert (Hoff : ∀ j, j ≠ c0 → H' !! j = H !! j)
    by (intros j Hj; by apply list_lookup_insert_ne).
  assert (Hgap : 0 <= h + MASONRY_GAP) by (unfold MASONRY_GAP; lia).
  assert (Hup : ∀ j v, H !! j = Some v → ∃ v', H' !! j = Some v' ∧ v <= v').
  { intros j v Hj. destruct (decide (j = c0)) as [->|Hjc].
    - exists (m + (h + MASONRY_GAP)). split; [done|].
      rewrite Hc0 in Hj. injection Hj as <-. lia.
    - exists v. rewrite Hoff by done. split; [done|lia]. }
  assert (Hdown : ∀ j v', H' !! j = Some v' →
            ∃ v, H !! j = Some v ∧ v <= v').
  { intros j v' Hj. destruct (decide (j = c0)) as [->|Hjc].
    - exists m. split; [done|]. rewrite Hat in Hj. injection Hj as <-. lia.
    - exists v'. rewrite Hoff in Hj by done. split; [done|lia]. }
  assert (Hlow : ∀ lb, (∀ j v, H !! j = Some v → lb <= v) →
            ∀ j v', H' !! j = Some v' → lb <= v').
  { intros lb Hlb j v' Hj. destruct (Hdown j v' Hj) as (v & Hv & Hle).
    specialize (Hlb j v Hv). lia. }
  destruct (IH H' Hne' Hpos) as (Hlen & HlenF & Hmono & Hcard & Hlb & Hpair).
  set (cards := (placeCards w H' rest).1) in *.
  set (F := (placeCards w H' rest).2) in *.
  clearbody cards F.
  split_and!.
  - simpl. by rewrite Hlen.
  - rewrite HlenF. unfold H'. by rewrite length_insert.
  - intros j v Hj. destruct (Hup j v Hj) as (v1 & Hv1 & Hle1).
    destruct (Hmono j v1 Hv1) as (v2 & Hv2 & Hle2). exists v2. split; [done|lia].
  - intros [|k] c hk Hc Hk; simpl in Hc, Hk.
    + injection Hc as <-. injection Hk as <-. cbn [x y column].
      split; [done|].
      destruct (Hmono c0 _ Hat) as (v' & Hv' & Hle).
      exists m, v'. split_and!; [done|done|lia|lia].
    + destruct (Hcard k c hk Hc Hk) as (Hx & v1 & v' & Hv1 & Hv' & Hy1 & Hy2).
      split; [done|].
      destruct (Hdown _ _ Hv1) as (v & Hv & Hle).
      exists v, v'. split_and!; [done|done|lia|lia].
  - intros [|k] c lb Hc Hbound; simpl in Hc.
    + injection Hc as <-. cbn [y]. by apply (Hbound c0).
    + apply (Hlb k c lb Hc). by apply Hlow.
  - intros [|k] [|k'] c c' hk Hkk Hc Hc' Hk; simpl in Hc, Hc', Hk; try lia.
    + injection Hc as <-. injection Hk as <-. cbn [y column]. split.
      * apply (Hlb k' c' m Hc'). by apply Hlow.
      * intros Hcol.
        assert (Hsome : is_Some (rest !! k')).
        { apply lookup_lt_is_Some. rewrite <- Hlen.
          by eapply lookup_lt_Some. }
        destruct Hsome as [h' Hh'].
        destruct (Hcard k' c' h' Hc' Hh') as (_ & v1 & v' & Hv1 & _ & Hy1 & _).
        rewrite <- Hcol, Hat in Hv1. injection Hv1 as <-. lia.
    + apply (Hpair k k' c c' hk); [lia|done..].
Qed.

Lemma placeCards_balanced w B (heights : list Z) : ∀ (H : list Z),
  H ≠ [] → Forall (λ h, 0 <= h <= B) heights →
  (∀ j j' v v', H !! j = Some v → H !! j' = Some v' →
                v - v' <= B + MASONRY_GAP) →
  ∀ j j' v v', (placeCards w H heights).2 !! j = Some v →
               (placeCards w H heights).2 !! j' = Some v' →
               v - v' <= B + MASONRY_GAP.
Proof.
  induction heights as [|h rest IH]; intros H Hne Hpos Hspread; [done|].
  apply Forall_cons in Hpos as [Hh Hpos].
  rewrite placeCards_cons. cbv zeta. cbn [snd].
  destruct (shortestColumn_spec H Hne) as (m & Hc0 & Hmin).
  set (c0 := shortestColumn H) in *. rewrite Hc0.
  change (default 0 (Some m)) with m.
  set (H' := <[c0 := m + (h + MASONRY_GAP)]> H).
  assert (Hlt : (c0 < length H)%nat) by (by eapply lookup_lt_Some).
  apply IH; [|done|].
  { intros Hnil. apply (f_equal length) in Hnil. unfold H' in Hnil.
    rewrite length_insert in Hnil. simpl in Hnil. lia. }
  intros j j' v v' Hj Hj'. unfold H' in Hj, Hj'.
  apply list_lookup_insert_Some in Hj as [(<- & <- & _)|[Hne1 Hj]];
    apply list_lookup_insert_Some in Hj' as [(Heq & <- & _)|[Hne2 Hj']].
  - unfold MASONRY_GAP. lia.
  - specialize (Hmin j' v' Hj'). unfold MASONRY_GAP in *. lia.
  - specialize (Hspread j c0 v m Hj Hc0). unfold MASONRY_GAP in *. lia.
  - by apply (Hspread j j' v v').
Qed.

Lemma maxHeight_ge (F : list Z) v : v ∈ F → v <= maxHeight F.
Proof.
  destruct F as [|u F]; [by intros ?%elem_of_nil|]. unfold maxHeight.
  induction F as [|u' F IH]; simpl.
  - intros ->%list_elem_of_singleton. lia.
  - rewrite !elem_of_cons. intros [->|[->|Hin]].
    + etrans; [apply IH; left|]. lia.
    + lia.
    + etrans; [apply IH; by right|]. lia.
Qed.

Lemma columns_cases innerWidth :
  columns innerWidth = 1%nat ∨ columns innerWidth = 2%nat
  ∨ columns innerWidth = 3%nat.
Proof. unfold columns. repeat case_bool_decide; auto. Qed.

Ltac Qnumerals :=
  change (inject_Z (Z.of_nat 0)) with 0%Q in *;
  change (inject_Z (Z.of_nat 1)) with 1%Q in *;
  change (inject_Z (Z.of_nat 2)) with 2%Q in *;
  change (inject_Z (Z.of_nat 3)) with 3%Q in *;
  change (inject_Z 16) with 16%Q in *.

(** The product of a column index and a binary64 number is exact: the
    index is 0, 1 or 2. *)
Lemma offsetX_exact (w : Q) (c : nat) :
  (c < 3)%nat →
  (offsetX w c == inject_Z (Z.of_nat c) * JS.fl (w + inject_Z MASONRY_GAP))%Q.
Proof.
  intros Hc. unfold offsetX.
  set (g := JS.fl (w + inject_Z MASONRY_GAP)).
  assert (Hg : JS.representable g) by apply Binary64.fl_representable.
  destruct c as [|[|[|c]]]; [| | |lia]; Qnumerals.
  - rewrite (Binary64.fl_proper (0 * g) 0) by ring. reflexivity.
  - rewrite (Binary64.fl_proper (1 * g) g) by ring.
    rewrite (Binary64.fl_exact g Hg). ring.
  - apply Binary64.fl_exact. by apply Binary64.representable_double.
Qed.

(** The error of one rounding, as two inequalities. *)
Lemma fl_within (v bound : Q) :
  (Qabs v <= bound)%Q →
  (v - bound * (1 # 2 ^ 53) <= JS.fl v <= v + bound * (1 # 2 ^ 53))%Q.
Proof.
  intros Hv. pose proof (Binary64.fl_err v) as Herr.
  apply Qabs_Qle_condition in Herr.
  assert (Hb : (Qabs v * (1 # 2 ^ 53) <= bound * (1 # 2 ^ 53))%Q).
  { apply Qmult_le_compat_r; [exact Hv|discriminate]. }
  lra.
Qed.

Lemma grid_geometry (cols : nat) (containerWidth : Z) (a b : nat) :
  cols = 2%nat ∨ cols = 3%nat → 0 <= containerWidth <= 2 ^ 20 →
  (a < cols)%nat → (b < cols)%nat →
  let w := columnWidth containerWidth cols in
  let xa := offsetX w a in
  let xb := offsetX w b in
  (0 <= xa)%Q ∧ (xa + w <= inject_Z containerWidth + (1 # 2 ^ 30))%Q
  ∧ ((a < b)%nat → (xa + w + inject_Z MASONRY_GAP <= xb + (1 # 2 ^ 30))%Q).
Proof.
  intros Hcols [Hwidth0 Hwidth1] Ha Hb w.
  assert (Hw0 : (0 <= inject_Z containerWidth)%Q).
  { change 0%Q with (inject_Z 0). by rewrite <- Zle_Qle. }
  assert (Hw1 : (inject_Z containerWidth <= 1048576)%Q).
  { change 1048576%Q with (inject_Z (2 ^ 20)). by rewrite <- Zle_Qle. }
  set (e := (inject_Z (containerWidth - MASONRY_GAP * (Z.of_nat cols - 1))
             / inject_Z (Z.of_nat cols))%Q).
  assert (Hfill : (e * inject_Z (Z.of_nat cols)
                   + 16 * (inject_Z (Z.of_nat cols) - 1)
                   == inject_Z containerWidth)%Q).
  { unfold e, MASONRY_GAP. destruct Hcols as [->| ->].
    - replace (containerWidth - 16 * (Z.of_nat 2 - 1))
        with (containerWidth + -16) by lia.
      rewrite inject_Z_plus. Qnumerals. change (inject_Z (-16)) with (-16)%Q.
      field.
    - replace (containerWidth - 16 * (Z.of_nat 3 - 1))
        with (containerWidth + -32) by lia.
      rewrite inject_Z_plus. Qnumerals. change (inject_Z (-32)) with (-32)%Q.
      field. }
  assert (He : (Qabs e <= 1048576)%Q).
  { apply Qabs_Qle_condition. destruct Hcols as [->| ->]; Qnumerals; lra. }
  assert (Hw : (e - 1048576 * (1 # 2 ^ 53) <= w <= e + 1048576 * (1 # 2 ^ 53))%Q)
    by (apply fl_within, He).
  assert (Hg' : (Qabs (w + inject_Z MASONRY_GAP) <= 1048593)%Q).
  { apply Qabs_Qle_condition. apply Qabs_Qle_condition in He.
    unfold MASONRY_GAP. Qnumerals. change (2 ^ 53)%positive with 9007199254740992%positive in Hw.
    lra. }
  pose proof (fl_within _ _ Hg') as Hg.
  assert (Hxa : (a < 3)%nat) by (destruct Hcols; lia).
  assert (Hxb : (b < 3)%nat) by (destruct Hcols; lia).
  pose proof (offsetX_exact w a Hxa) as Ea.
  pose proof (offsetX_exact w b Hxb) as Eb.
  cbv zeta. fold w. rewrite Ea, Eb.
  set (g := JS.fl (w + inject_Z MASONRY_GAP)) in *.
  clearbody g w e. unfold MASONRY_GAP in *.
  change (2 ^ 53)%positive with 9007199254740992%positive in *.
  change (2 ^ 30)%positive with 1073741824%positive in *.
  destruct Hcols as [->| ->];
    destruct a as [|[|[|a]]]; try lia;
    destruct b as [|[|[|b]]]; try lia;
    Qnumerals; (split_and!; [lra|lra|intros; try lia; lra]).
Qed.



(** At 1000 pixels and three columns the third column passes the edge of the
    container, by less than the rounding allows: the written width is
    322.6666666666667 and the third offset 677.3333333333334. *)
Lemma masonry_rounding_example :
  let w := columnWidth 1000 3 in
  (inject_Z 1000 < offsetX w 2 + w)%Q
  ∧ (offsetX w 2 + w <= inject_Z 1000 + (1 # 2 ^ 40))%Q.
Proof. split; vm_compute; [reflexivity|discriminate]. Qed.

(** X16. The grid is filled evenly and in reading order.  With at least one
    column and card heights between 0 and [B]: when the loop of
    [layoutMasonry] ends, no column is more than [B + 16] taller than
    another, and a card never starts above a card that comes before it in
    the document. *)
Theorem masonry_is_balanced (colWidth : Q) (cols : nat) (heights : list Z) (B : Z) :
  (0 < cols)%nat → 0 <= B → Forall (λ h, 0 <= h <= B) heights →
  let cards := (placeCards colWidth (replicate cols 0) heights).1 in
  let colHeights := (placeCards colWidth (replicate cols 0) heights).2 in
  (∀ v v', v ∈ colHeights → v' ∈ colHeights → v - v' <= B + MASONRY_GAP)
  ∧ (∀ k k' c c', (k <= k')%nat →
       cards !! k = Some c → cards !! k' = Some c' → y c <= y c').
Proof.
  intros Hcols HB Hbound. cbv zeta.
  assert (Hne : replicate cols 0 ≠ []).
  { intros Hnil. apply (f_equal length) in Hnil.
    rewrite length_replicate in Hnil. simpl in Hnil. lia. }
  split.
  - intros v v' [j Hj]%list_elem_of_lookup [j' Hj']%list_elem_of_lookup.
    apply (placeCards_balanced colWidth B heights (replicate cols 0) Hne Hbound)
      with j j'; [|done|done].
    intros i i' u u' [-> _]%lookup_replicate [-> _]%lookup_replicate.
    unfold MASONRY_GAP. lia.
  - assert (Hpos : Forall (λ h, 0 <= h) heights).
    { eapply Forall_impl; [exact Hbound|]. simpl. lia. }
    destruct (placeCards_spec colWidth heights (replicate cols 0) Hne Hpos)
      as (Hlen & _ & _ & _ & _ & Hpair).
    intros k k' c c' Hkk Hc Hc'.
    destruct (decide (k = k')) as [->|Hne'].
    { rewrite Hc in Hc'. injection Hc' as <-. lia. }
    assert (Hsome : is_Some (heights !! k)).
    { apply lookup_lt_is_Some. rewrite <- Hlen. by eapply lookup_lt_Some. }
    destruct Hsome as [h Hh].
    apply (Hpair k k' c c' h); [lia|done..].
Qed.

Lemma masonry_is_balanced_witness :
  let final := (placeCards 0 (replicate 3 0) [120; 80; 200; 40; 90]).2 in
  final = [242; 152; 216]
  ∧ ∀ v v', v ∈ final → v' ∈ final → v - v' <= 200 + MASONRY_GAP.
Proof.
  intros final. split; [vm_compute; reflexivity|].
  refine (proj1 (masonry_is_balanced 0 3 [120; 80; 200; 40; 90] 200 _ _ _)).
  - lia.
  - lia.
  - repeat constructor; lia.
Defined.

End HomeProofs.

(** * Further properties of the metrics aggregator *)

Module MetricsExtras.
Import Aggregator Claims Examples Rates MetricsProofs.

(** ** Ranges *)

(** X17. The three rates of [computeMetrics] that are percentages of
    identities -- the activation rate, the churn rate and the day-1
    retention -- are numbers between 0 and 100, whatever the rows hold, when
    no identity names a member of [Object.prototype]. *)
Theorem rates_are_percentages (now : Z) (events : list RawEvent)
    (feedback : list RawFeedback) (posts : list RawPost) :
  identities_ordinary events →
  ∃ (m : Metrics) (a c d : Q),
    computeMetrics now events feedback posts = Some m
    ∧ activationRate m = JS.Fin a ∧ churnRate m = JS.Fin c
    ∧ day1Retention m = JS.Fin d
    ∧ (0 <= a <= 100)%Q ∧ (0 <= c <= 100)%Q ∧ (0 <= d <= 100)%Q.
Proof.
  intros Hord.
  destruct (percent64_range _ _ (activated_le events)) as (a & Ha & Harange).
  destruct (percent64_range
              (size (activeWeekAgo now events ∖ activeLast24h now events))
              (size (activeWeekAgo now events))) as (c & Hc & Hcrange).
  { apply subseteq_size. set_solver. }
  destruct (percent64_range _ _ (day1Counts_le now events))
    as (d & Hd & Hdrange).
  exists (metrics_of now events feedback posts), a, c, d.
  split; [by apply computeMetrics_ordinary|].
  unfold metrics_of. cbn [snapshot activationRate churnRate day1Retention].
  rewrite activationRate_raw_percent, churnRate_raw_percent,
    day1Retention_raw_percent.
  by do 3 (split; [done|]).
Qed.

Lemma rates_are_percentages_witness :
  ∃ (m : Metrics) (a : Q),
    computeMetrics 0 (crowd 2 1) [] [] = Some m
    ∧ activationRate m = JS.Fin a ∧ (0 <= a <= 100)%Q.
Proof.
  destruct (rates_are_percentages 0 (crowd 2 1) [] [] (crowd_ordinary 2 1))
    as (m & a & c & d & Hm & Ha & _ & _ & Hrange & _).
  by exists m, a.
Defined.

(** ** Counts *)

(** X18. The counts of one snapshot fit together, when no identity names a
    member of [Object.prototype]: the daily active users are among the unique
    visitors, of whom there are no more than there are events; the QR scans
    and the shares are different events; and the happy, normal and sad
    answers are no more than the feedback rows, and are all of them when no
    row holds another rating. *)
Theorem counts_are_consistent (now : Z) (events : list RawEvent)
    (feedback : list RawFeedback) (posts : list RawPost) :
  identities_ordinary events →
  ∃ m : Metrics,
    computeMetrics now events feedback posts = Some m
    ∧ (dau m ≤ uniqueVisits m)%nat
    ∧ (uniqueVisits m ≤ length events)%nat
    ∧ (totalQrScans m + totalShares m ≤ length events)%nat
    ∧ (happyCount m + normalCount m + sadCount m ≤ totalFeedback m)%nat
    ∧ (Forall (λ f, rating f ∈ ["happy"; "normal"; "sad"]) feedback →
       (happyCount m + normalCount m + sadCount m = totalFeedback m)%nat).
Proof.
  intros Hord. exists (metrics_of now events feedback posts).
  split; [by apply computeMetrics_ordinary|].
  unfold metrics_of.
  cbn [snapshot dau uniqueVisits totalQrScans totalShares happyCount
       normalCount sadCount totalFeedback].
  split_and!.
  - apply subseteq_size. intros u. unfold recent24h.
    rewrite elem_of_list_to_set, elem_of_allUsers.
    rewrite (elem_of_ids_filter (λ e, num_lt (age now e) (Some MS_24H))).
    naive_solver.
  - apply size_allUsers_le.
  - unfold countNamed, named. clear.
    induction events as [|e events IH]; [done|].
    rewrite !filter_cons. repeat case_decide; simpl; try lia; congruence.
  - apply countRating_sum.
  - apply countRating_sum.
Qed.

Lemma counts_are_consistent_witness :
  ∃ m : Metrics,
    computeMetrics 0 (crowd 2 1) [mkFeedback "happy"; mkFeedback "meh"] []
    = Some m
    ∧ uniqueVisits m = 3%nat
    ∧ (happyCount m + normalCount m + sadCount m ≤ totalFeedback m)%nat.
Proof.
  destruct (counts_are_consistent 0 (crowd 2 1)
              [mkFeedback "happy"; mkFeedback "meh"] [] (crowd_ordinary 2 1))
    as (m & Hm & _ & _ & _ & Hsum & _).
  exists m. split; [exact Hm|]. split; [|exact Hsum].
  rewrite computeMetrics_ordinary in Hm by apply crowd_ordinary.
  injection Hm as <-. apply (crowd_sizes 2 1).
Defined.

(** ** The satisfaction score *)

(** X19. The satisfaction score is the balance of happy and sad answers in
    percent, rounded to a nearest whole number in binary64 arithmetic: with
    [t] feedback rows, fewer than [2^32], of which [h] are happy and [s] are
    sad, the score [n] is 0 when there is no row and otherwise satisfies
    [-t <= 200 * (h - s) - 2 * n * t <= t].  It lies between -100 and 100,
    and the threshold flag is set exactly when it is above 40. *)
Theorem nps_is_rounded_balance (now : Z) (events : list RawEvent)
    (feedback : list RawFeedback) (posts : list RawPost) :
  identities_ordinary events → array feedback →
  ∃ (m : Metrics) (n : Z),
    computeMetrics now events feedback posts = Some m
    ∧ npsScore m = JS.of_Z n
    ∧ (let h := Z.of_nat (happyCount m) in
       let s := Z.of_nat (sadCount m) in
       let t := Z.of_nat (totalFeedback m) in
       (t = 0 → n = 0)
       ∧ (0 < t → - t <= 200 * (h - s) - 2 * n * t <= t))
    ∧ -100 <= n <= 100
    ∧ (npsThresholdMet m = true ↔ 40 < n).
Proof.
  intros Hord Harray.
  destruct (npsScore_raw_whole feedback)
    as (n & Hn & Hrange & Hzero & _ & Htie). cbv zeta in Hzero, Htie.
  exists (metrics_of now events feedback posts), n.
  split; [by apply computeMetrics_ordinary|].
  unfold metrics_of.
  cbn [snapshot npsScore npsThresholdMet happyCount sadCount totalFeedback].
  split; [done|]. split; [|split; [done|]].
  - cbv zeta. split; [intros Ht; apply Hzero; lia|].
    intros Ht. unfold array in Harray.
    specialize (Htie ltac:(lia) Harray). lia.
  - rewrite Hn. unfold JS.gt, JS.of_Z.
    rewrite negb_true_iff, <- not_true_iff_false, Qle_bool_iff, <- Zle_Qle.
    lia.
Qed.

(** Eight happy and five sad answers of 24: the balance is 12.5 percent, the
    binary64 product is just below it, and the score is 12. *)
Lemma nps_is_rounded_balance_witness :
  let feedback := replicate 8 (mkFeedback "happy")
                  ++ replicate 11 (mkFeedback "normal")
                  ++ replicate 5 (mkFeedback "sad") in
  ∃ m : Metrics,
    computeMetrics 0 [] feedback [] = Some m
    ∧ npsScore m = JS.of_Z 12 ∧ npsThresholdMet m = false.
Proof.
  intros feedback.
  assert (Hord : identities_ordinary []).
  { intros e u He. by apply elem_of_nil in He. }
  destruct (nps_is_rounded_balance 0 [] feedback [] Hord eq_refl)
    as (m & n & Hm & _).
  exists m. split; [exact Hm|].
  rewrite computeMetrics_ordinary in Hm by done. injection Hm as <-.
  split; vm_compute; reflexivity.
Defined.

(** ** Events without an identity *)

Lemma ids_anonymous events :
  Forall (λ e, truthy_id e = None) events → ids events = [].
Proof.
  unfold ids. induction 1 as [|e events He _ IH]; [done|].
  simpl. by rewrite He.
Qed.

Lemma grouped_anonymous events :
  Forall (λ e, truthy_id e = None) events → grouped events = ∅.
Proof.
  unfold grouped. generalize (∅ : gmap string (list time)).
  intros m Hanon. revert m.
  induction Hanon as [|e events He _ IH]; intros m; [done|].
  simpl. rewrite He. apply IH.
Qed.

Lemma firstVisitByUser_anonymous events :
  Forall (λ e, truthy_id e = None) events → firstVisitByUser events = ∅.
Proof.
  unfold firstVisitByUser. generalize (∅ : gmap string time).
  intros m Hanon. revert m.
  induction Hanon as [|e events He _ IH]; intros m; [done|].
  simpl. rewrite He. case_bool_decide; apply IH.
Qed.

(** X20. Events without an identity count nobody.  When every event has a
    [user_pseudo_id] that is [null] or the empty string, [computeMetrics]
    returns a snapshot in which there is no unique visitor and no daily
    active user, and the activation rate, the average session length, the
    churn rate, the day-1 retention and the viral coefficient are all 0 --
    while the events are still counted as scans and shares. *)
Theorem anonymous_events_count_nobody (now : Z) (events : list RawEvent)
    (feedback : list RawFeedback) (posts : list RawPost) :
  Forall (λ e, user_pseudo_id e = None ∨ user_pseudo_id e = Some "") events →
  ∃ m : Metrics,
    computeMetrics now events feedback posts = Some m
    ∧ uniqueVisits m = 0%nat ∧ dau m = 0%nat
    ∧ is_num (activationRate m) 0 ∧ activationGoalMet m = false
    ∧ is_num (avgSessionLengthMin m) 0
    ∧ is_num (churnRate m) 0
    ∧ is_num (day1Retention m) 0
    ∧ is_num (viralCoefficient m) 0
    ∧ totalQrScans m = countNamed "qr_scan" events
    ∧ totalShares m = countNamed "share_post" events.
Proof.
  intros Hnull.
  assert (Hanon : Forall (λ e, truthy_id e = None) events).
  { eapply Forall_impl; [exact Hnull|].
    intros e [He|He]; unfold truthy_id; rewrite He; done. }
  assert (Hord : identities_ordinary events).
  { intros e u He Hu. rewrite Forall_forall in Hanon.
    rewrite (Hanon e He) in Hu. discriminate Hu. }
  assert (Hfilter : ∀ (P : RawEvent → Prop) `{!∀ e, Decision (P e)},
            ids (filter P events) = []).
  { intros P HP. apply ids_anonymous.
    apply Forall_forall. intros e [_ He]%list_elem_of_filter.
    rewrite Forall_forall in Hanon. by apply Hanon. }
  exists (metrics_of now events feedback posts).
  split; [by apply computeMetrics_ordinary|].
  unfold metrics_of.
  cbn [snapshot uniqueVisits dau activationRate activationGoalMet
       avgSessionLengthMin churnRate day1Retention viralCoefficient
       totalQrScans totalShares].
  unfold activationRate_raw, viralCoefficient_raw, churnRate_raw,
    day1Retention_raw, day1Counts, avgSessionLengthMin_raw, sessionTotals,
    allUsers, recent24h, activeWeekAgo.
  rewrite (ids_anonymous events Hanon), !Hfilter,
    (grouped_anonymous events Hanon), (firstVisitByUser_anonymous events Hanon).
  rewrite !map_fold_empty. cbn [list_to_set foldr].
  rewrite !size_empty. simpl bool_decide. cbv iota.
  split_and!; try done; eexists; (split; [vm_compute; reflexivity|]);
    reflexivity.
Qed.

Lemma anonymous_events_count_nobody_witness :
  let events := [mkEvent "1" "qr_scan" None (Some 5);
                 mkEvent "2" "share_post" (Some "") (Some 7)] in
  ∃ m : Metrics,
    computeMetrics 10 events [] [] = Some m
    ∧ uniqueVisits m = 0%nat ∧ totalQrScans m = 1%nat ∧ totalShares m = 1%nat.
Proof.
  intros events.
  assert (Hnull : Forall (λ e, user_pseudo_id e = None ∨ user_pseudo_id e = Some "")
                         events).
  { apply Forall_cons. split; [by left|].
    apply Forall_cons. split; [by right|]. by constructor. }
  destruct (anonymous_events_count_nobody 10 events [] [] Hnull)
    as (m & Hm & Hu & _ & _ & _ & _ & _ & _ & _ & Hq & Hs).
  exists m. split; [exact Hm|]. split; [exact Hu|].
  split; [rewrite Hq|rewrite Hs]; vm_compute; reflexivity.
Defined.

(** ** The order of the rows *)

Lemma users_Permutation (P : RawEvent → Prop) `{!∀ e, Decision (P e)}
    events events' :
  events ≡ₚ events' →
  (list_to_set (ids (filter P events')) : gset string)
  = list_to_set (ids (filter P events)).
Proof. intros Hperm. unfold ids. by rewrite Hperm. Qed.

Lemma allUsers_Permutation events events' :
  events ≡ₚ events' → allUsers events' = allUsers events.
Proof. intros Hperm. unfold allUsers, ids. by rewrite Hperm. Qed.

Lemma count_Permutation (P : RawEvent → Prop) `{!∀ e, Decision (P e)}
    events events' :
  events ≡ₚ events' → length (filter P events') = length (filter P events).
Proof. intros Hperm. by rewrite Hperm. Qed.

Lemma likes_total_Permutation (posts posts' : list RawPost) :
  posts ≡ₚ posts' → likes_total posts' = likes_total posts.
Proof.
  unfold likes_total.
  induction 1 as [|p l l' _ IH|p q l|l l' l'' _ IH _ IH']; simpl.
  - done.
  - by rewrite IH.
  - lia.
  - by rewrite IH', IH.
Qed.

Lemma likes_exact_Permutation (posts posts' : list RawPost) :
  posts ≡ₚ posts' → likes_exact posts → likes_exact posts'.
Proof.
  intros Hperm [Hpos Hsum]. split.
  - by rewrite <- Hperm.
  - by rewrite (likes_total_Permutation _ _ Hperm).
Qed.

Lemma existsb_Permutation {A} (f : A → bool) (l l' : list A) :
  l ≡ₚ l' → existsb f l' = existsb f l.
Proof.
  induction 1 as [|p l l' _ IH|p q l|l l' l'' _ IH _ IH']; simpl.
  - done.
  - by rewrite IH.
  - by destruct (f p), (f q).
  - by rewrite IH', IH.
Qed.

Lemma first_visits_dated_Permutation events events' :
  events ≡ₚ events' → first_visits_dated events → first_visits_dated events'.
Proof. intros Hperm Hdated e He. apply Hdated. by rewrite Hperm. Qed.

Lemma identities_ordinary_Permutation events events' :
  events ≡ₚ events' → identities_ordinary events → identities_ordinary events'.
Proof. intros Hperm Hord e u He. apply Hord. by rewrite Hperm. Qed.

Lemma first_seen_Permutation events events' u t0 :
  events ≡ₚ events' → first_seen events u t0 → first_seen events' u t0.
Proof.
  intros Hperm (Hu & (e & He & Hrest) & Hmin). split_and!; [done| |].
  - exists e. split; [by rewrite <- Hperm|done].
  - intros e' t He'. apply Hmin. by rewrite Hperm.
Qed.

Lemma firstVisitByUser_Permutation events events' :
  events ≡ₚ events' → first_visits_dated events → identities_ordinary events →
  firstVisitByUser events' = firstVisitByUser events.
Proof.
  intros Hperm Hdated Hord.
  pose proof (first_visits_dated_Permutation _ _ Hperm Hdated) as Hdated'.
  pose proof (identities_ordinary_Permutation _ _ Hperm Hord) as Hord'.
  apply map_eq. intros u.
  pose proof (firstVisitByUser_lookup events u Hdated Hord) as H1.
  pose proof (firstVisitByUser_lookup events' u Hdated' Hord') as H2.
  destruct (firstVisitByUser events !! u) as [ft|],
           (firstVisitByUser events' !! u) as [ft'|]; [| | |done].
  - destruct H1 as (t0 & -> & Hseen), H2 as (t1 & -> & Hseen').
    symmetry in Hperm.
    pose proof (first_seen_Permutation _ _ _ _ Hperm Hseen') as Hseen''.
    by rewrite (first_seen_unique events u t0 t1 Hseen Hseen'').
  - destruct H1 as (t0 & _ & Hu & (e & He & Hname & Hid & _) & _).
    destruct (H2 e); [by rewrite <- Hperm|].
    split; [done|]. by apply truthy_id_Some.
  - destruct H2 as (t0 & _ & Hu & (e & He & Hname & Hid & _) & _).
    destruct (H1 e); [by rewrite Hperm|].
    split; [done|]. by apply truthy_id_Some.
Qed.

Lemma day1Counts_Permutation now events events' :
  events ≡ₚ events' → first_visits_dated events → identities_ordinary events →
  day1Counts now events' = day1Counts now events.
Proof.
  intros Hperm Hdated Hord.
  pose proof (day1Counts_filter now events) as H1.
  pose proof (day1Counts_filter now events') as H2.
  cbv zeta in H1, H2. rewrite H1, H2.
  rewrite (firstVisitByUser_Permutation _ _ Hperm Hdated Hord).
  f_equal. f_equal. apply list_filter_iff. intros [u ft]. cbn [fst snd].
  by rewrite (existsb_Permutation _ _ _ Hperm : hasReturn events' u ft = _).
Qed.

(** X21. A snapshot does not depend on the order of the rows.  When no
    identity names a member of [Object.prototype], every event that carries an
    identity has a timestamp that is a date, every [first_visit] among them
    one that is not the instant 0, and the like counts are not negative and
    add up to [2^53] at most, then [computeMetrics] returns the same record
    for the events, the feedback rows and the posts in any other order. *)
Theorem snapshot_is_order_free (now : Z) (events events' : list RawEvent)
    (feedback feedback' : list RawFeedback) (posts posts' : list RawPost) :
  events ≡ₚ events' → feedback ≡ₚ feedback' → posts ≡ₚ posts' →
  identities_ordinary events →
  timestamps_parse events → first_visits_dated events → likes_exact posts →
  ∃ m : Metrics,
    computeMetrics now events feedback posts = Some m
    ∧ computeMetrics now events' feedback' posts' = Some m.
Proof.
  intros He Hf Hp Hord Hparse Hdated Hexact.
  pose proof (identities_ordinary_Permutation _ _ He Hord) as Hord'.
  exists (metrics_of now events feedback posts).
  split; [by apply computeMetrics_ordinary|].
  rewrite computeMetrics_ordinary by done. f_equal.
  assert (Hall : allUsers events' = allUsers events)
    by (by apply allUsers_Permutation).
  assert (Hact : activatedUsers events' = activatedUsers events)
    by (by apply (users_Permutation (named "post_created"))).
  assert (Hrecent : recent24h now events' = recent24h now events)
    by (by apply (users_Permutation (λ e, num_lt (age now e) (Some MS_24H)))).
  assert (Hlast : activeLast24h now events' = activeLast24h now events)
    by (by apply (users_Permutation (λ e, num_lt (age now e) (Some MS_24H)))).
  assert (Hweek : activeWeekAgo now events' = activeWeekAgo now events)
    by (by apply (users_Permutation
                    (λ e, num_ge (age now e) (Some MS_7D)
                          && num_lt (age now e) (Some MS_8D)))).
  assert (Hnamed : ∀ name, countNamed name events' = countNamed name events)
    by (intros name; by apply (count_Permutation (named name))).
  assert (Hviews : totalViews events' = totalViews events)
    by (by apply (count_Permutation
                    (λ e, event_name e ∈ ["session_start"; "first_visit"]))).
  assert (Hlikes : sumLikes posts' = sumLikes posts).
  { rewrite !sumLikes_exact by (done || by eapply likes_exact_Permutation).
    by rewrite (likes_total_Permutation _ _ Hp). }
  assert (Hrating : ∀ r, countRating r feedback' = countRating r feedback).
  { intros r. unfold countRating. by rewrite Hf. }
  assert (Hlen : length feedback' = length feedback) by (by rewrite Hf).
  assert (Hposts : length posts' = length posts) by (by rewrite Hp).
  assert (Hsessions : sessionTotals (grouped events')
                      = sessionTotals (grouped events)).
  { symmetry. by apply sessionTotals_Permutation. }
  assert (Hday1 : day1Counts now events' = day1Counts now events)
    by (by apply day1Counts_Permutation).
  unfold metrics_of, snapshot, activationRate_raw, engagementRate_raw,
    churnRate_raw, churnedUsers, day1Retention_raw,
    viralCoefficient_raw, npsScore_raw.
  by rewrite Hall, Hact, Hrecent, Hlast, Hweek, !Hnamed, Hviews, Hlikes,
    !Hrating, Hlen, Hposts, Hsessions, Hday1.
Qed.

Lemma snapshot_is_order_free_witness :
  let e1 := mkEvent "1" "first_visit" (Some "u") (Some 1000) in
  let e2 := mkEvent "2" "share_post" (Some "u") (Some 90000000) in
  let e3 := mkEvent "3" "qr_scan" None None in
  let f1 := mkFeedback "happy" in
  let f2 := mkFeedback "sad" in
  computeMetrics 200000000 [e3; e2; e1] [f2; f1] [mkPost (Some 2); mkPost None]
  = computeMetrics 200000000 [e1; e2; e3] [f1; f2] [mkPost None; mkPost (Some 2)]
  ∧ is_Some (computeMetrics 200000000 [e1; e2; e3] [f1; f2]
               [mkPost None; mkPost (Some 2)]).
Proof.
  intros e1 e2 e3 f1 f2.
  destruct (snapshot_is_order_free 200000000 [e1; e2; e3] [e3; e2; e1]
              [f1; f2] [f2; f1] [mkPost None; mkPost (Some 2)]
              [mkPost (Some 2); mkPost None]) as (m & Hm & Hm').
  - etrans; [apply Permutation_swap|]. etrans; [apply perm_skip, Permutation_swap|].
    apply Permutation_swap.
  - apply Permutation_swap.
  - apply Permutation_swap.
  - intros e u He Hu. apply list_elem_of_In in He. simpl in He.
    destruct He as [<-|[<-|[<-|[]]]]; try discriminate Hu;
      injection Hu as <-; reflexivity.
  - intros e He Hid. apply list_elem_of_In in He. simpl in He.
    destruct He as [<-|[<-|[<-|[]]]]; simpl; eauto.
    destruct Hid as [? Hid]. discriminate Hid.
  - intros e He Hname Hid. apply list_elem_of_In in He. simpl in He.
    destruct He as [<-|[<-|[<-|[]]]]; try discriminate Hname.
    exists 1000. split; [reflexivity|lia].
  - split; [repeat constructor; simpl; lia|vm_compute; discriminate].
  - rewrite Hm, Hm'. split; [done|by eexists].
Defined.

(** ** Sessions *)

Lemma sessions_from_nonneg gap (times : list Z) : ∀ start last,
  start <= last → Sorted Z.le (last :: times) →
  0 <= Zsum (sessions_from gap start last times)
  ∧ (1 ≤ length (sessions_from gap start last times))%nat.
Proof.
  induction times as [|t times IH]; intros start last Hle Hsorted.
  { simpl. split; lia. }
  apply Sorted_inv in Hsorted as [Hsorted Hhd].
  apply HdRel_inv in Hhd.
  cbn [sessions_from]. case_bool_decide.
  - destruct (IH t t ltac:(lia) Hsorted) as [Hsum Hlen].
    cbn [Zsum foldr length] in *. unfold Zsum in Hsum. lia.
  - apply IH; [lia|done].
Qed.

Lemma sessions_nonneg gap (zs : list Z) :
  zs ≠ [] →
  0 <= Zsum (sessions gap zs) ∧ (1 ≤ length (sessions gap zs))%nat.
Proof.
  intros Hne. unfold sessions.
  pose proof (Sorted_merge_sort Z.le zs) as Hsorted.
  destruct (merge_sort Z.le zs) as [|t ts] eqn:Hsort.
  { exfalso. apply Hne. apply Permutation_nil_r.
    by rewrite <- (merge_sort_Permutation Z.le zs), Hsort. }
  apply sessions_from_nonneg; [lia|done].
Qed.

Lemma grouped_size events : size (grouped events) = size (allUsers events).
Proof.
  rewrite <- (size_dom (D := gset string)). f_equal.
  apply set_eq. intros u.
  rewrite elem_of_dom, grouped_lookup, elem_of_allUsers.
  unfold times_of. split.
  - destruct (filter _ events) as [|e l] eqn:Hfilter; [by intros [? ?]|].
    intros _.
    assert (He : e ∈ filter (λ e, truthy_id e = Some u) events)
      by (rewrite Hfilter; left).
    apply list_elem_of_filter in He as [Hid He].
    apply truthy_id_Some in Hid as [Hid Hu]. eauto.
  - intros (Hu & e & He & Hid).
    assert (Hin : e ∈ filter (λ e, truthy_id e = Some u) events).
    { apply list_elem_of_filter. split; [|done]. by apply truthy_id_Some. }
    destruct (filter _ events) as [|e' l]; [by apply elem_of_nil in Hin|].
    by eexists.
Qed.

Lemma sessionTotals_nonneg events :
  timestamps_parse events →
  ∃ ms, sessionTotals (grouped events)
        = (Some ms, (sessionTotals (grouped events)).2)
        ∧ 0 <= ms
        ∧ (size (allUsers events) ≤ (sessionTotals (grouped events)).2)%nat.
Proof.
  intros Hparse. rewrite <- grouped_size, <- length_map_to_list.
  unfold sessionTotals. rewrite map_fold_foldr.
  assert (Hall : ∀ u l, (u, l) ∈ map_to_list (grouped events) →
                        l ≠ [] ∧ Forall is_Some l).
  { intros u l Hin%elem_of_map_to_list.
    apply grouped_values in Hin as [-> Hne]. split; [done|].
    by apply times_of_parse. }
  induction (map_to_list (grouped events)) as [|[u l] rest IH].
  { exists 0. simpl. split_and!; [done|lia|lia]. }
  cbn [foldr uncurry length]. destruct IH as (tot & Htot & Hpos & Hlen).
  { intros u' l' Hin. apply (Hall u' l'). by right. }
  destruct (Hall u l ltac:(left)) as [Hne Hsome].
  destruct (all_numbers l Hsome) as [zs ->].
  assert (Hzs : zs ≠ []) by (by destruct zs).
  rewrite Htot. rewrite user_sessions_numbers by done. cbn [fst snd].
  destruct (sessions_nonneg SESSION_GAP zs Hzs) as [Hsum Hcnt].
  exists (tot + Zsum (sessions SESSION_GAP zs)).
  split_and!; [done|lia|lia].
Qed.

(** The average of a total that is not negative is not negative. *)
Lemma average_nonneg (ms : Z) (cnt : nat) :
  0 <= ms →
  ∃ q : Q, round1 (avgSessionLengthMin_raw (Some ms, cnt)) = JS.Fin q
           ∧ (0 <= q)%Q.
Proof.
  intros Hms. unfold avgSessionLengthMin_raw.
  case_bool_decide as Hcnt.
  - cbn [of_time]. unfold JS.of_nat, JS.of_Z, JS.div at 2.
    rewrite Qzero_Qnat by done. unfold JS.div.
    change (JS.Qzero (inject_Z 60000)) with false. cbv iota.
    apply round1_nonneg.
    assert (Hm : (0 <= inject_Z ms)%Q).
    { change 0%Q with (inject_Z 0). by rewrite <- Zle_Qle. }
    pose proof (Qnat_pos cnt Hcnt) as Hc. unfold Qnat in Hc.
    assert (H1 : (0 <= JS.fl (inject_Z ms / inject_Z (Z.of_nat cnt)))%Q).
    { apply Binary64.fl_ge; [apply representable_0|].
      apply Qle_shift_div_l; [done|]. lra. }
    apply Binary64.fl_ge; [apply representable_0|].
    apply Qle_shift_div_l; [reflexivity|]. lra.
  - exists 0%Q. split; [vm_compute; reflexivity|]. lra.
Qed.

(** X27. Session time is never negative.  When no identity names a member of
    [Object.prototype] and every event that carries an identity has a
    timestamp that is a date, the total session time that [computeMetrics]
    adds up is a number that is not negative, there is at least one session
    for every unique visitor, and the returned average session length is a
    number that is not negative. *)
Theorem session_time_is_not_negative (now : Z) (events : list RawEvent)
    (feedback : list RawFeedback) (posts : list RawPost) :
  timestamps_parse events → identities_ordinary events →
  ∃ (m : Metrics) (ms : Z) (cnt : nat) (q : Q),
    computeMetrics now events feedback posts = Some m
    ∧ session_totals events = Some (Some ms, cnt) ∧ 0 <= ms
    ∧ (uniqueVisits m ≤ cnt)%nat
    ∧ avgSessionLengthMin m = JS.Fin q ∧ (0 <= q)%Q.
Proof.
  intros Hparse Hord.
  destruct (sessionTotals_nonneg events Hparse) as (ms & Htot & Hpos & Hcnt).
  destruct (average_nonneg ms (sessionTotals (grouped events)).2 Hpos)
    as (q & Hq & Hq0).
  exists (metrics_of now events feedback posts), ms,
    (sessionTotals (grouped events)).2, q.
  rewrite session_totals_ordinary by done.
  split; [by apply computeMetrics_ordinary|].
  split; [by rewrite <- Htot|]. split; [done|]. split; [done|].
  rewrite avgSessionLengthMin_totals, Htot. by split.
Qed.

Lemma session_time_is_not_negative_witness :
  let events := [mkEvent "1" "session_start" (Some "u") (Some 3000000);
                 mkEvent "2" "post_created" (Some "u") (Some 60000);
                 mkEvent "3" "qr_scan" (Some "v") (Some 0);
                 mkEvent "4" "share_post" (Some "u") (Some 0)] in
  session_totals events = Some (Some 60000, 3%nat)
  ∧ ∃ m q, computeMetrics 0 events [] [] = Some m
           ∧ avgSessionLengthMin m = JS.Fin q ∧ (0 <= q)%Q.
Proof.
  intros events. split; [vm_compute; reflexivity|].
  assert (Hparse : timestamps_parse events).
  { intros e He _. apply list_elem_of_In in He. simpl in He.
    destruct He as [<-|[<-|[<-|[<-|[]]]]]; by eexists. }
  assert (Hord : identities_ordinary events).
  { intros e u He Hu. apply list_elem_of_In in He. simpl in He.
    destruct He as [<-|[<-|[<-|[<-|[]]]]]; injection Hu as <-; reflexivity. }
  destruct (session_time_is_not_negative 0 events [] [] Hparse Hord)
    as (m & ms & cnt & q & Hm & _ & _ & _ & Hq & Hpos).
  by exists m, q.
Defined.

End MetricsExtras.

(** * Properties of the identity and of the events of a visit *)

Module AnalyticsProofs.
Import Analytics.

Lemma getUserIdIn_stored d uuid i :
  sg_user_pseudo_id d = Some i → i ≠ "" → getUserIdIn d uuid = (d, i).
Proof.
  intros Hid Hi. unfold getUserIdIn, present. rewrite Hid.
  by rewrite bool_decide_eq_false_2.
Qed.

Lemma getUserIdIn_new d uuid :
  present (sg_user_pseudo_id d) = false →
  getUserIdIn d uuid
  = ({| sg_user_pseudo_id := Some uuid;
        sg_last_session_ts := sg_last_session_ts d |}, uuid).
Proof. intros Hnone. unfold getUserIdIn. by rewrite Hnone. Qed.

Lemma present_Some item :
  present item = true ↔ ∃ i, item = Some i ∧ i ≠ "".
Proof.
  unfold present. destruct item as [i|]; [|naive_solver].
  case_bool_decide; naive_solver.
Qed.

Lemma getUserIdIn_facts d uuid :
  uuid ≠ "" →
  let d' := (getUserIdIn d uuid).1 in
  let i := (getUserIdIn d uuid).2 in
  sg_user_pseudo_id d' = Some i ∧ i ≠ ""
  ∧ (isFirstVisit (Some d) = false → d' = d)
  ∧ (isFirstVisit (Some d) = true → i = uuid)
  ∧ sg_last_session_ts d' = sg_last_session_ts d.
Proof.
  intros Huuid. cbv zeta. unfold isFirstVisit.
  destruct (present (sg_user_pseudo_id d)) eqn:Hp.
  - apply present_Some in Hp as (i & Hid & Hi).
    by rewrite (getUserIdIn_stored d uuid i Hid Hi).
  - by rewrite getUserIdIn_new.
Qed.

(** X22. The identity of a device is made once and then kept.  Whatever the
    device holds, after [getUserId] has run in a browser with a fresh
    identifier that is not empty: the device holds the identity that was
    returned, which is not empty; [isFirstVisit] answers no; and every later
    [getUserId] returns the same identity and changes nothing, whatever
    [crypto.randomUUID()] would give it.  A device that held an identity
    keeps it, and one that held none, or the empty string, holds the fresh
    one.  Outside a browser [getUserId] returns the empty string and
    [isFirstVisit] answers no. *)
Theorem identity_is_stable (d : Device) (uuid uuid' : string) :
  uuid ≠ "" →
  let d' := (getUserIdIn d uuid).1 in
  let i := (getUserIdIn d uuid).2 in
  getUserId (Some d) uuid = (Some d', i)
  ∧ sg_user_pseudo_id d' = Some i ∧ i ≠ ""
  ∧ isFirstVisit (Some d') = false
  ∧ getUserId (Some d') uuid' = (Some d', i)
  ∧ (isFirstVisit (Some d) = false → d' = d)
  ∧ (isFirstVisit (Some d) = true → i = uuid)
  ∧ getUserId None uuid = (None, "")
  ∧ isFirstVisit None = false.
Proof.
  intros Huuid. cbv zeta.
  destruct (getUserIdIn_facts d uuid Huuid) as (Hid & Hi & Hkeep & Hnew & _).
  split_and!; try done.
  - unfold getUserId. by destruct (getUserIdIn d uuid).
  - unfold isFirstVisit, present. rewrite Hid.
    by rewrite bool_decide_eq_false_2.
  - unfold getUserId. by rewrite (getUserIdIn_stored _ uuid' _ Hid Hi).
Qed.

Lemma identity_is_stable_witness :
  let d := {| sg_user_pseudo_id := Some ""; sg_last_session_ts := None |} in
  "7f3c" ≠ ""
  ∧ getUserId (Some d) "7f3c"
    = (Some {| sg_user_pseudo_id := Some "7f3c"; sg_last_session_ts := None |},
       "7f3c")
  ∧ isFirstVisit (Some (getUserIdIn d "7f3c").1) = false.
Proof.
  intros d.
  destruct (identity_is_stable d "7f3c" "0000" ltac:(discriminate))
    as (Hget & _ & _ & Hfirst & _).
  split; [discriminate|]. split; [exact Hget|exact Hfirst].
Defined.

(** ** Mounts *)

Lemma mountEffect_spec d v :
  fresh v →
  let i := (getUserIdIn d (uuid0 v)).2 in
  let expired := sessionExpired (sg_last_session_ts d) (now v) in
  mountEffect d v
  = ({| sg_user_pseudo_id := Some i;
        sg_last_session_ts :=
          if expired then Some (Text (Some (now v)))
          else sg_last_session_ts d |},
     (if isFirstVisit (Some d) then [row "first_visit" i] else [])
     ++ (if expired then [row "session_start" i] else [])
     ++ (if bool_decide (source v = Some "qr") then [row "qr_scan" i] else []))
  ∧ i ≠ ""
  ∧ (isFirstVisit (Some d) = false → sg_user_pseudo_id d = Some i).
Proof.
  intros (H0 & H1 & H2 & H3). cbv zeta.
  destruct (getUserIdIn_facts d (uuid0 v) H0) as (Hid & Hi & Hkeep & _ & Hstamp).
  set (i := (getUserIdIn d (uuid0 v)).2) in *.
  set (d1 := (getUserIdIn d (uuid0 v)).1) in *.
  assert (Htrack : ∀ dd uuid name, sg_user_pseudo_id dd = Some i →
            trackEventIn dd uuid name None = (dd, row name i)).
  { intros dd uuid name Hdd. unfold trackEventIn.
    by rewrite (getUserIdIn_stored dd uuid i Hdd Hi). }
  split_and!; [|done|].
  - unfold mountEffect. fold d1. rewrite (Htrack d1) by done.
    assert (Hd2 : ∀ rows, (if isFirstVisit (Some d) return Device * list TrackedEvent
                           then (d1, rows) else (d1, [])) = (d1, if isFirstVisit (Some d) then rows else [])).
    { intros rows. by destruct (isFirstVisit (Some d)). }
    rewrite Hd2. rewrite Hstamp.
    destruct (sessionExpired (sg_last_session_ts d) (now v)).
    + rewrite Htrack by done.
      case_bool_decide; [rewrite Htrack by done|]; rewrite Hid; done.
    + case_bool_decide; [rewrite Htrack by done|];
        destruct d1 as [di ds]; simpl in *; by subst.
  - intros Hold. by rewrite <- (Hkeep Hold).
Qed.

Lemma run_mounts_cons d v rest :
  run_mounts d (v :: rest)
  = ((run_mounts (mountEffect d v).1 rest).1,
     ((λ row, (now v, row)) <$> (mountEffect d v).2)
     ++ (run_mounts (mountEffect d v).1 rest).2).
Proof. simpl. by destruct (mountEffect d v), (run_mounts _ rest). Qed.

Lemma timesOf_app name log log' :
  timesOf name (log ++ log') = timesOf name log ++ timesOf name log'.
Proof. unfold timesOf. by rewrite filter_app, fmap_app. Qed.

Lemma run_mounts_known visits : ∀ d i,
  Forall fresh visits → sg_user_pseudo_id d = Some i → i ≠ "" →
  sg_user_pseudo_id (run_mounts d visits).1 = Some i
  ∧ (∀ r, r ∈ (run_mounts d visits).2 → user_pseudo_id r.2 = i)
  ∧ timesOf "first_visit" (run_mounts d visits).2 = [].
Proof.
  induction visits as [|v rest IH]; intros d i Hfresh Hid Hi.
  { simpl. split_and!; [done| |done]. by intros r ?%elem_of_nil. }
  apply Forall_cons in Hfresh as [Hv Hrest].
  rewrite run_mounts_cons. cbn [fst snd].
  destruct (mountEffect_spec d v Hv) as (Hmount & _ & Hkeep).
  cbv zeta in Hmount, Hkeep.
  assert (Hold : isFirstVisit (Some d) = false).
  { unfold isFirstVisit, present. rewrite Hid.
    by rewrite bool_decide_eq_false_2. }
  rewrite (Hkeep Hold) in Hid. injection Hid as Hsame.
  rewrite Hsame in Hmount.
  assert (Hid' : sg_user_pseudo_id (mountEffect d v).1 = Some i)
    by (by rewrite Hmount).
  destruct (IH (mountEffect d v).1 i Hrest Hid' Hi) as (IHid & IHrows & IHfirst).
  split_and!; [exact IHid| |].
  - intros r [Hr|Hr]%elem_of_app; [|by apply IHrows].
    rewrite Hmount, Hold in Hr. cbn [fst snd] in Hr.
    apply list_elem_of_fmap in Hr as (t & -> & Ht). cbn [snd].
    destruct (sessionExpired _ _), (bool_decide _);
      set_solver.
  - rewrite timesOf_app, IHfirst, app_nil_r, Hmount, Hold. cbn [fst snd].
    by destruct (sessionExpired _ _), (bool_decide _).
Qed.



(** ** Sessions *)

Lemma getUserIdIn_stamp d uuid :
  sg_last_session_ts (getUserIdIn d uuid).1 = sg_last_session_ts d.
Proof. unfold getUserIdIn. by destruct (negb _). Qed.

Lemma trackEventIn_fst d uuid name p :
  (trackEventIn d uuid name p).1 = (getUserIdIn d uuid).1.
Proof. unfold trackEventIn. by destruct (getUserIdIn d uuid). Qed.

Lemma trackEventIn_name d uuid name p :
  event_name (trackEventIn d uuid name p).2 = name.
Proof. unfold trackEventIn. by destruct (getUserIdIn d uuid). Qed.

Lemma mountEffect_session d v :
  let expired := sessionExpired (sg_last_session_ts d) (now v) in
  sg_last_session_ts (mountEffect d v).1
  = (if expired then Some (Text (Some (now v))) else sg_last_session_ts d)
  ∧ timesOf "session_start" ((λ row, (now v, row)) <$> (mountEffect d v).2)
    = (if expired then [now v] else []).
Proof.
  cbv zeta. unfold mountEffect.
  set (d1 := (getUserIdIn d (uuid0 v)).1).
  assert (H1 : sg_last_session_ts d1 = sg_last_session_ts d)
    by apply getUserIdIn_stamp.
  destruct (isFirstVisit (Some d)).
  - pose proof (trackEventIn_fst d1 (uuid1 v) "first_visit" None) as Hf.
    pose proof (trackEventIn_name d1 (uuid1 v) "first_visit" None) as Hn.
    destruct (trackEventIn d1 (uuid1 v) "first_visit" None) as [d2 r1].
    cbn [fst snd] in Hf, Hn.
    assert (H2 : sg_last_session_ts d2 = sg_last_session_ts d)
      by (by rewrite Hf, getUserIdIn_stamp).
    rewrite H2.
    destruct (sessionExpired (sg_last_session_ts d) (now v)).
    + set (d' := {| sg_user_pseudo_id := _; sg_last_session_ts := _ |}).
      pose proof (trackEventIn_fst d' (uuid2 v) "session_start" None) as Hf'.
      pose proof (trackEventIn_name d' (uuid2 v) "session_start" None) as Hn'.
      destruct (trackEventIn d' (uuid2 v) "session_start" None) as [d3 r2].
      cbn [fst snd] in Hf', Hn'.
      assert (H3 : sg_last_session_ts d3 = Some (Text (Some (now v))))
        by (by rewrite Hf', getUserIdIn_stamp).
      case_bool_decide.
      * pose proof (trackEventIn_fst d3 (uuid3 v) "qr_scan" None) as Hf''.
        pose proof (trackEventIn_name d3 (uuid3 v) "qr_scan" None) as Hn''.
        destruct (trackEventIn d3 (uuid3 v) "qr_scan" None) as [d4 r3].
        cbn [fst snd] in *. split; [by rewrite Hf'', getUserIdIn_stamp|].
        unfold timesOf. simpl. rewrite !filter_cons, filter_nil. cbn [snd].
        rewrite Hn, Hn', Hn''. done.
      * cbn [fst snd]. split; [done|].
        unfold timesOf. simpl. rewrite !filter_cons, filter_nil. cbn [snd].
        rewrite Hn, Hn'. done.
    + case_bool_decide.
      * pose proof (trackEventIn_fst d2 (uuid3 v) "qr_scan" None) as Hf''.
        pose proof (trackEventIn_name d2 (uuid3 v) "qr_scan" None) as Hn''.
        destruct (trackEventIn d2 (uuid3 v) "qr_scan" None) as [d4 r3].
        cbn [fst snd] in *. split; [by rewrite Hf'', getUserIdIn_stamp|].
        unfold timesOf. simpl. rewrite !filter_cons, filter_nil. cbn [snd].
        rewrite Hn, Hn''. done.
      * cbn [fst snd]. split; [done|].
        unfold timesOf. simpl. rewrite !filter_cons, filter_nil. cbn [snd].
        rewrite Hn. done.
  - rewrite H1.
    destruct (sessionExpired (sg_last_session_ts d) (now v)).
    + set (d' := {| sg_user_pseudo_id := _; sg_last_session_ts := _ |}).
      pose proof (trackEventIn_fst d' (uuid2 v) "session_start" None) as Hf'.
      pose proof (trackEventIn_name d' (uuid2 v) "session_start" None) as Hn'.
      destruct (trackEventIn d' (uuid2 v) "session_start" None) as [d3 r2].
      cbn [fst snd] in Hf', Hn'.
      assert (H3 : sg_last_session_ts d3 = Some (Text (Some (now v))))
        by (by rewrite Hf', getUserIdIn_stamp).
      case_bool_decide.
      * pose proof (trackEventIn_fst d3 (uuid3 v) "qr_scan" None) as Hf''.
        pose proof (trackEventIn_name d3 (uuid3 v) "qr_scan" None) as Hn''.
        destruct (trackEventIn d3 (uuid3 v) "qr_scan" None) as [d4 r3].
        cbn [fst snd] in *. split; [by rewrite Hf'', getUserIdIn_stamp|].
        unfold timesOf. simpl. rewrite !filter_cons, filter_nil. cbn [snd].
        rewrite Hn', Hn''. done.
      * cbn [fst snd]. split; [done|].
        unfold timesOf. simpl. rewrite !filter_cons, filter_nil. cbn [snd].
        rewrite Hn'. done.
    + case_bool_decide.
      * pose proof (trackEventIn_fst d1 (uuid3 v) "qr_scan" None) as Hf''.
        pose proof (trackEventIn_name d1 (uuid3 v) "qr_scan" None) as Hn''.
        destruct (trackEventIn d1 (uuid3 v) "qr_scan" None) as [d4 r3].
        cbn [fst snd] in *. split; [by rewrite Hf'', getUserIdIn_stamp|].
        unfold timesOf. simpl. rewrite !filter_cons, filter_nil. cbn [snd].
        rewrite Hn''. done.
      * cbn [fst snd]. split; [done|]. done.
Qed.

Lemma session_starts_spaced visits : ∀ d,
  let starts := timesOf "session_start" (run_mounts d visits).2 in
  (∀ k t t', starts !! k = Some t → starts !! S k = Some t' →
             t' - t > SESSION_GAP_MS)
  ∧ (∀ t0 t, sg_last_session_ts d = Some (Text (Some t0)) →
             head starts = Some t → t - t0 > SESSION_GAP_MS)
  ∧ (sg_last_session_ts d = Some (Text None) → starts = [])
  ∧ (sg_last_session_ts d = None ∨ sg_last_session_ts d = Some EmptyString →
     head starts = head (now <$> visits)).
Proof.
  induction visits as [|v rest IH]; intros d; cbv zeta; [done|].
  rewrite run_mounts_cons. cbn [fst snd]. rewrite timesOf_app.
  destruct (mountEffect_session d v) as [Hstamp Hstart]. cbv zeta in Hstamp, Hstart.
  rewrite Hstart.
  destruct (IH (mountEffect d v).1) as (IHnext & IHhead & IHnan & IHnew).
  cbv zeta in IHnext, IHhead, IHnan, IHnew.
  set (starts := timesOf "session_start" (run_mounts (mountEffect d v).1 rest).2) in *.
  clearbody starts.
  destruct (sessionExpired (sg_last_session_ts d) (now v)) eqn:Hexp.
  - split_and!.
    + intros [|k] t t'; simpl.
      * intros [= <-] Hnext. apply (IHhead (now v) t'); [done|].
        by rewrite head_lookup.
      * apply IHnext.
    + intros t0 t Hd [= <-]. unfold sessionExpired in Hexp. rewrite Hd in Hexp.
      simpl in Hexp. apply bool_decide_eq_true in Hexp. lia.
    + intros Hd. unfold sessionExpired in Hexp. by rewrite Hd in Hexp.
    + done.
  - rewrite app_nil_l. rewrite Hstamp in IHhead, IHnan, IHnew.
    split_and!; [done|done|done|].
    intros [Hd|Hd]; unfold sessionExpired in Hexp; by rewrite Hd in Hexp.
Qed.


End AnalyticsProofs.

(** * Properties of the public dashboard *)

Module DashboardProofs.
Import JS Aggregator Rates MetricsProofs.

Lemma percentOf_spec (count total : nat) :
  (count ≤ total)%nat →
  ∃ n : Z,
    Dashboard.percentOf count total = of_Z n
    ∧ 0 <= n <= 100
    ∧ (total = 0%nat → n = 0)
    ∧ ((0 < total)%nat →
       (Qabs (inject_Z n - 100 * (Qnat count / Qnat total))
        <= (1 # 2) + 200 * (1 # 2 ^ 53))%Q).
Proof.
  intros Hle. unfold Dashboard.percentOf.
  case_bool_decide as Hpos.
  - destruct (round_percent count total Hle Hpos) as (n & Hn & Hrange & Hnear).
    exists n. split_and!; [done|lia|lia|lia|done].
  - exists 0. split_and!; [done|lia|lia|done|lia].
Qed.

(** Two whole numbers that are close as rationals are close as integers. *)
Lemma whole_lt (a b : Z) : (inject_Z a < inject_Z b + 1)%Q → a <= b.
Proof.
  change 1%Q with (inject_Z 1). rewrite <- inject_Z_plus, <- Zlt_Qlt. lia.
Qed.

(** X25. The two percentages of the public dashboard are whole numbers
    between 0 and 100 that add up to 101 at most; on the same feedback rows
    their difference is within 1 of the satisfaction score that
    [computeMetrics] computes; and when the three queries fail the dashboard
    shows the empty record. *)
Theorem dashboard_percentages (postsRes : option (list RawPost))
    (feedbackRes : option (list RawFeedback)) (sharesRes : option (list string)) :
  let data := Dashboard.fetchDashboard postsRes feedbackRes sharesRes in
  ∃ hp sp n : Z,
    Dashboard.happyPercent data = of_Z hp
    ∧ Dashboard.sadPercent data = of_Z sp
    ∧ npsScore_raw (default [] feedbackRes) = of_Z n
    ∧ 0 <= hp <= 100
    ∧ 0 <= sp <= 100
    ∧ hp + sp <= 101
    ∧ -1 <= n - (hp - sp) <= 1
    ∧ Dashboard.fetchDashboard None None None = Dashboard.EMPTY.
Proof.
  cbv zeta. unfold Dashboard.fetchDashboard.
  cbn [Dashboard.happyPercent Dashboard.sadPercent].
  set (rows := default [] feedbackRes).
  destruct (countRating_sum rows) as [Hsum _].
  destruct (percentOf_spec (countRating "happy" rows) (length rows))
    as (hp & Hhp & Hhr & Hh0 & Hh); [lia|].
  destruct (percentOf_spec (countRating "sad" rows) (length rows))
    as (sp & Hsp & Hsr & Hs0 & Hs); [lia|].
  destruct (npsScore_raw_whole rows) as (n & Hn & Hnr & Hn0 & Hnn & _).
  cbv zeta in Hn0, Hnn.
  exists hp, sp, n.
  split; [done|]. split; [done|]. split; [done|].
  split; [done|]. split; [done|].
  destruct (decide (length rows = 0%nat)) as [Hnone|Hsome].
  { rewrite (Hh0 Hnone), (Hs0 Hnone), (Hn0 Hnone).
    split; [lia|]. split; [lia|]. done. }
  specialize (Hh ltac:(lia)). specialize (Hs ltac:(lia)).
  specialize (Hnn ltac:(lia)).
  pose proof (ratio_sum (countRating "happy" rows) (countRating "sad" rows)
                (length rows) ltac:(lia) ltac:(lia)) as Hratio.
  set (qh := (Qnat (countRating "happy" rows) / Qnat (length rows))%Q) in *.
  set (qs := (Qnat (countRating "sad" rows) / Qnat (length rows))%Q) in *.
  clearbody qh qs.
  apply Qabs_Qle_condition in Hh as [Hh1 Hh2].
  apply Qabs_Qle_condition in Hs as [Hs1 Hs2].
  apply Qabs_Qle_condition in Hnn as [Hn1 Hn2].
  assert (Heps : (400 * (1 # 2 ^ 53) < 1 # 8)%Q) by reflexivity.
  assert (Heps' : (200 * (1 # 2 ^ 53) < 1 # 8)%Q) by reflexivity.
  set (e4 := (400 * (1 # 2 ^ 53))%Q) in *.
  set (e2 := (200 * (1 # 2 ^ 53))%Q) in *.
  clearbody e4 e2.
  split; [|split; [split|done]].
  - apply whole_lt. rewrite inject_Z_plus.
    change (inject_Z 101) with 101%Q. lra.
  - enough (hp - sp - 1 <= n) by lia.
    apply whole_lt. unfold Z.sub.
    rewrite !inject_Z_plus, !inject_Z_opp.
    change (inject_Z 1) with 1%Q. lra.
  - enough (n <= hp - sp + 1) by lia.
    apply whole_lt. unfold Z.sub.
    rewrite !inject_Z_plus, !inject_Z_opp.
    change (inject_Z 1) with 1%Q. lra.
Qed.

End DashboardProofs.
